(** * Reqline: a verified model of [services/reqline/parse.js]

    The service receives one string, the "reqline"
    ([[HTTP GET | URL https://host/path | QUERY {...}]]), checks its
    grammar, builds a request description and hands it to the HTTP
    transport.  This file embeds the service in Rocq and proves
    properties of it.

    - [Module JS] models the part of the JavaScript runtime the service
      calls: strings as sequences of UTF-16 code units, the [String]
      methods, [JSON.parse], [ToString], [encodeURIComponent] and
      [Object.entries].
    - [Module Reqline] is the service itself, statement by statement.
    - The theorems follow the definitions. *)

From Stdlib Require Import String Ascii.
From Stdlib Require Import List NArith ZArith Bool Arith Lia Permutation.
Import ListNotations.


Set Warnings "-register-all".

(* ================================================================= *)
(** ** Outcomes of a computation that may throw *)

(** A JavaScript computation completes normally or throws.  [Unmodelled]
    marks a call the model does not describe: [Object.entries] of a value
    that is neither an object nor [null], a call the service never makes
    (lemma [compile_modelled]). *)
Inductive outcome (E A : Type) : Type :=
| Ok (a : A)
| Throw (e : E)
| Unmodelled.

Arguments Ok {E A} a.
Arguments Throw {E A} e.
Arguments Unmodelled {E A}.

Definition bind {E A B} (m : outcome E A) (k : A -> outcome E B) : outcome E B :=
  match m with
  | Ok a => k a
  | Throw e => Throw e
  | Unmodelled => Unmodelled
  end.

Declare Scope outcome_scope.
Delimit Scope outcome_scope with outcome.
Notation "x <- m ;; k" := (bind m (fun x => k))
  (at level 61, m at next level, right associativity) : outcome_scope.
Notation "m ;;; k" := (bind m (fun _ => k))
  (at level 61, right associativity) : outcome_scope.

(** [when c e]: the statement [if (c) { throw e }]. *)
Definition when {E} (c : bool) (e : E) : outcome E unit :=
  if c then Throw e else Ok tt.

(** Monadic left fold: [Array.prototype.forEach] with a callback that may
    throw. *)
Fixpoint foldM {E S A} (f : S -> A -> outcome E S) (s : S) (l : list A) : outcome E S :=
  match l with
  | [] => Ok s
  | a :: l' => bind (f s a) (fun s' => foldM f s' l')
  end.

(** Map with a function that may throw, left to right. *)
Fixpoint mapM {E A B} (f : A -> outcome E B) (l : list A) : outcome E (list B) :=
  match l with
  | [] => Ok []
  | a :: l' => bind (f a) (fun b => bind (mapM f l') (fun bs => Ok (b :: bs)))
  end.

(* ================================================================= *)
(** ** The JavaScript runtime *)

Module JS.

(** A string is a sequence of UTF-16 code units, each below [2^16]. *)
Definition jsstring := list N.

(** A literal of the source text (ASCII). *)
Definition js (s : string) : jsstring :=
  map N_of_ascii (list_ascii_of_string s).

(** A literal in which ['] stands for the double quote, for JSON texts. *)
Definition jsq (s : string) : jsstring :=
  map (fun c => if (c =? 39)%N then 34%N else c) (js s).

Definition SPACE : N := 32.
Definition PIPE : N := 124.

Fixpoint str_eqb (a b : jsstring) : bool :=
  match a, b with
  | [], [] => true
  | x :: a', y :: b' => N.eqb x y && str_eqb a' b'
  | _, _ => false
  end.

(** [s.startsWith(p)] *)
Fixpoint startsWith (p s : jsstring) : bool :=
  match p, s with
  | [], _ => true
  | x :: p', y :: s' => N.eqb x y && startsWith p' s'
  | _ :: _, [] => false
  end.

(** [s.endsWith(p)] *)
Definition endsWith (p s : jsstring) : bool :=
  startsWith (rev p) (rev s).

(** [s.includes(sub)] *)
Fixpoint includes (sub s : jsstring) : bool :=
  startsWith sub s ||
  match s with
  | [] => false
  | _ :: s' => includes sub s'
  end.

(** [s.indexOf(c)] for a one-character string [c]; [None] stands for -1. *)
Fixpoint indexOf (c : N) (s : jsstring) : option nat :=
  match s with
  | [] => None
  | x :: s' => if N.eqb x c then Some O else option_map S (indexOf c s')
  end.

(** [s.substring(a, b)] for [a <= b] and [s.substring(a)]. *)
Definition substring (a b : nat) (s : jsstring) : jsstring :=
  firstn (b - a) (skipn a s).
Definition substring_from (a : nat) (s : jsstring) : jsstring :=
  skipn a s.

(** [s.slice(1, -1)] *)
Definition slice_1_neg1 (s : jsstring) : jsstring :=
  removelast (tl s).

(** [s[j]]; [None] stands for [undefined]. *)
Definition charAt (s : jsstring) (j : nat) : option N := nth_error s j.

Definition is_char (c : N) (o : option N) : bool :=
  match o with
  | Some x => N.eqb x c
  | None => false
  end.

(** White space and line terminators, the code units [String.prototype.trim]
    removes. *)
Definition isWhiteSpace (c : N) : bool :=
  ((9 <=? c) && (c <=? 13) || (c =? 32) || (c =? 160) || (c =? 5760)
   || (8192 <=? c) && (c <=? 8202) || (c =? 8232) || (c =? 8233)
   || (c =? 8239) || (c =? 8287) || (c =? 12288) || (c =? 65279))%N.

Fixpoint trimStart (s : jsstring) : jsstring :=
  match s with
  | [] => []
  | c :: s' => if isWhiteSpace c then trimStart s' else s
  end.

Definition trimEnd (s : jsstring) : jsstring := rev (trimStart (rev s)).

(** [s.trim()] *)
Definition trim (s : jsstring) : jsstring := trimEnd (trimStart s).

Definition isAscii (c : N) : bool := (c <? 128)%N.

Definition upperAscii (c : N) : N :=
  if ((97 <=? c) && (c <=? 122))%N then (c - 32)%N else c.

(** The code points of a string: a lead surrogate and the trail surrogate
    after it make one code point, any other code unit stands for
    itself. *)
Fixpoint codePoints (s : jsstring) : list N :=
  match s with
  | [] => []
  | c :: r =>
      match r with
      | d :: r' =>
          if ((55296 <=? c) && (c <=? 56319) && (56320 <=? d) && (d <=? 57343))%N
          then ((c - 55296) * 1024 + (d - 56320) + 65536)%N :: codePoints r'
          else c :: codePoints r
      | [] => [c]
      end
  end.

(** The code units of a code point. *)
Definition codeUnits (cp : N) : jsstring :=
  if (cp <? 65536)%N then [cp]
  else [(55296 + (cp - 65536) / 1024)%N; (56320 + (cp - 65536) mod 1024)%N].

(** The uppercase mapping of the Unicode Character Database (version
    14.0), for the code points it changes.  [(lo, hi, step, up)] says
    that the code points [lo], [lo + step], ... up to [hi] map to [up],
    [up + step], ...: the simple mappings of [UnicodeData.txt]. *)
Definition upper_ranges : list (N * N * N * N) :=
  [(97, 122, 1, 65); (181, 181, 1, 924); (224, 246, 1, 192); (248, 254, 1, 216);
   (255, 255, 1, 376); (257, 303, 2, 256); (305, 305, 1, 73); (307, 311, 2, 306);
   (314, 328, 2, 313); (331, 375, 2, 330); (378, 382, 2, 377); (383, 383, 1, 83);
   (384, 384, 1, 579); (387, 389, 2, 386); (392, 392, 1, 391); (396, 396, 1, 395);
   (402, 402, 1, 401); (405, 405, 1, 502); (409, 409, 1, 408); (410, 410, 1, 573);
   (414, 414, 1, 544); (417, 421, 2, 416); (424, 424, 1, 423); (429, 429, 1, 428);
   (432, 432, 1, 431); (436, 438, 2, 435); (441, 441, 1, 440); (445, 445, 1, 444);
   (447, 447, 1, 503); (453, 453, 1, 452); (454, 454, 1, 452); (456, 456, 1, 455);
   (457, 457, 1, 455); (459, 459, 1, 458); (460, 460, 1, 458); (462, 476, 2, 461);
   (477, 477, 1, 398); (479, 495, 2, 478); (498, 498, 1, 497); (499, 499, 1, 497);
   (501, 501, 1, 500); (505, 543, 2, 504); (547, 563, 2, 546); (572, 572, 1, 571);
   (575, 576, 1, 11390); (578, 578, 1, 577); (583, 591, 2, 582); (592, 592, 1, 11375);
   (593, 593, 1, 11373); (594, 594, 1, 11376); (595, 595, 1, 385); (596, 596, 1, 390);
   (598, 599, 1, 393); (601, 601, 1, 399); (603, 603, 1, 400); (604, 604, 1, 42923);
   (608, 608, 1, 403); (609, 609, 1, 42924); (611, 611, 1, 404); (613, 613, 1, 42893);
   (614, 614, 1, 42922); (616, 616, 1, 407); (617, 617, 1, 406); (618, 618, 1, 42926);
   (619, 619, 1, 11362); (620, 620, 1, 42925); (623, 623, 1, 412); (625, 625, 1, 11374);
   (626, 626, 1, 413); (629, 629, 1, 415); (637, 637, 1, 11364); (640, 640, 1, 422);
   (642, 642, 1, 42949); (643, 643, 1, 425); (647, 647, 1, 42929); (648, 648, 1, 430);
   (649, 649, 1, 580); (650, 651, 1, 433); (652, 652, 1, 581); (658, 658, 1, 439);
   (669, 669, 1, 42930); (670, 670, 1, 42928); (837, 837, 1, 921); (881, 883, 2, 880);
   (887, 887, 1, 886); (891, 893, 1, 1021); (940, 940, 1, 902); (941, 943, 1, 904);
   (945, 961, 1, 913); (962, 962, 1, 931); (963, 971, 1, 931); (972, 972, 1, 908);
   (973, 974, 1, 910); (976, 976, 1, 914); (977, 977, 1, 920); (981, 981, 1, 934);
   (982, 982, 1, 928); (983, 983, 1, 975); (985, 1007, 2, 984); (1008, 1008, 1, 922);
   (1009, 1009, 1, 929); (1010, 1010, 1, 1017); (1011, 1011, 1, 895); (1013, 1013, 1, 917);
   (1016, 1016, 1, 1015); (1019, 1019, 1, 1018); (1072, 1103, 1, 1040); (1104, 1119, 1, 1024);
   (1121, 1153, 2, 1120); (1163, 1215, 2, 1162); (1218, 1230, 2, 1217); (1231, 1231, 1, 1216);
   (1233, 1327, 2, 1232); (1377, 1414, 1, 1329); (4304, 4346, 1, 7312); (4349, 4351, 1, 7357);
   (5112, 5117, 1, 5104); (7296, 7296, 1, 1042); (7297, 7297, 1, 1044); (7298, 7298, 1, 1054);
   (7299, 7300, 1, 1057); (7301, 7301, 1, 1058); (7302, 7302, 1, 1066); (7303, 7303, 1, 1122);
   (7304, 7304, 1, 42570); (7545, 7545, 1, 42877); (7549, 7549, 1, 11363); (7566, 7566, 1, 42950);
   (7681, 7829, 2, 7680); (7835, 7835, 1, 7776); (7841, 7935, 2, 7840); (7936, 7943, 1, 7944);
   (7952, 7957, 1, 7960); (7968, 7975, 1, 7976); (7984, 7991, 1, 7992); (8000, 8005, 1, 8008);
   (8017, 8023, 2, 8025); (8032, 8039, 1, 8040); (8048, 8049, 1, 8122); (8050, 8053, 1, 8136);
   (8054, 8055, 1, 8154); (8056, 8057, 1, 8184); (8058, 8059, 1, 8170); (8060, 8061, 1, 8186);
   (8112, 8113, 1, 8120); (8126, 8126, 1, 921); (8144, 8145, 1, 8152); (8160, 8161, 1, 8168);
   (8165, 8165, 1, 8172); (8526, 8526, 1, 8498); (8560, 8575, 1, 8544); (8580, 8580, 1, 8579);
   (9424, 9449, 1, 9398); (11312, 11359, 1, 11264); (11361, 11361, 1, 11360); (11365, 11365, 1, 570);
   (11366, 11366, 1, 574); (11368, 11372, 2, 11367); (11379, 11379, 1, 11378); (11382, 11382, 1, 11381);
   (11393, 11491, 2, 11392); (11500, 11502, 2, 11499); (11507, 11507, 1, 11506); (11520, 11557, 1, 4256);
   (11559, 11559, 1, 4295); (11565, 11565, 1, 4301); (42561, 42605, 2, 42560); (42625, 42651, 2, 42624);
   (42787, 42799, 2, 42786); (42803, 42863, 2, 42802); (42874, 42876, 2, 42873); (42879, 42887, 2, 42878);
   (42892, 42892, 1, 42891); (42897, 42899, 2, 42896); (42900, 42900, 1, 42948); (42903, 42921, 2, 42902);
   (42933, 42947, 2, 42932); (42952, 42954, 2, 42951); (42961, 42961, 1, 42960); (42967, 42969, 2, 42966);
   (42998, 42998, 1, 42997); (43859, 43859, 1, 42931); (43888, 43967, 1, 5024); (65345, 65370, 1, 65313);
   (66600, 66639, 1, 66560); (66776, 66811, 1, 66736); (66967, 67003, 2, 66928); (66968, 66976, 2, 66929);
   (66980, 66992, 2, 66941); (66996, 67000, 2, 66957); (67004, 67004, 1, 66965); (68800, 68850, 1, 68736);
   (71872, 71903, 1, 71840); (93792, 93823, 1, 93760); (125218, 125251, 1, 125184)]%N.

(** The code points that map to more than one: the unconditional
    mappings of [SpecialCasing.txt]. *)
Definition upper_special : list (N * list N) :=
  [(223, [83; 83]); (329, [700; 78]); (496, [74; 780]); (912, [921; 776; 769]);
   (944, [933; 776; 769]); (1415, [1333; 1362]); (7830, [72; 817]); (7831, [84; 776]);
   (7832, [87; 778]); (7833, [89; 778]); (7834, [65; 702]); (8016, [933; 787]);
   (8018, [933; 787; 768]); (8020, [933; 787; 769]); (8022, [933; 787; 834]); (8064, [7944; 921]);
   (8065, [7945; 921]); (8066, [7946; 921]); (8067, [7947; 921]); (8068, [7948; 921]);
   (8069, [7949; 921]); (8070, [7950; 921]); (8071, [7951; 921]); (8072, [7944; 921]);
   (8073, [7945; 921]); (8074, [7946; 921]); (8075, [7947; 921]); (8076, [7948; 921]);
   (8077, [7949; 921]); (8078, [7950; 921]); (8079, [7951; 921]); (8080, [7976; 921]);
   (8081, [7977; 921]); (8082, [7978; 921]); (8083, [7979; 921]); (8084, [7980; 921]);
   (8085, [7981; 921]); (8086, [7982; 921]); (8087, [7983; 921]); (8088, [7976; 921]);
   (8089, [7977; 921]); (8090, [7978; 921]); (8091, [7979; 921]); (8092, [7980; 921]);
   (8093, [7981; 921]); (8094, [7982; 921]); (8095, [7983; 921]); (8096, [8040; 921]);
   (8097, [8041; 921]); (8098, [8042; 921]); (8099, [8043; 921]); (8100, [8044; 921]);
   (8101, [8045; 921]); (8102, [8046; 921]); (8103, [8047; 921]); (8104, [8040; 921]);
   (8105, [8041; 921]); (8106, [8042; 921]); (8107, [8043; 921]); (8108, [8044; 921]);
   (8109, [8045; 921]); (8110, [8046; 921]); (8111, [8047; 921]); (8114, [8122; 921]);
   (8115, [913; 921]); (8116, [902; 921]); (8118, [913; 834]); (8119, [913; 834; 921]);
   (8124, [913; 921]); (8130, [8138; 921]); (8131, [919; 921]); (8132, [905; 921]);
   (8134, [919; 834]); (8135, [919; 834; 921]); (8140, [919; 921]); (8146, [921; 776; 768]);
   (8147, [921; 776; 769]); (8150, [921; 834]); (8151, [921; 776; 834]); (8162, [933; 776; 768]);
   (8163, [933; 776; 769]); (8164, [929; 787]); (8166, [933; 834]); (8167, [933; 776; 834]);
   (8178, [8186; 921]); (8179, [937; 921]); (8180, [911; 921]); (8182, [937; 834]);
   (8183, [937; 834; 921]); (8188, [937; 921]); (64256, [70; 70]); (64257, [70; 73]);
   (64258, [70; 76]); (64259, [70; 70; 73]); (64260, [70; 70; 76]); (64261, [83; 84]);
   (64262, [83; 84]); (64275, [1348; 1350]); (64276, [1348; 1333]); (64277, [1348; 1339]);
   (64278, [1358; 1350]); (64279, [1348; 1341])]%N.

Definition in_upper_range (cp : N) (r : N * N * N * N) : bool :=
  let '(lo, hi, step, _) := r in
  ((lo <=? cp) && (cp <=? hi) && ((cp - lo) mod step =? 0))%N.

(** The uppercase of a code point. *)
Definition upperCodePoint (cp : N) : list N :=
  match find (fun e => (fst e =? cp)%N) upper_special with
  | Some (_, ups) => ups
  | None =>
      match find (in_upper_range cp) upper_ranges with
      | Some (lo, _, _, up) => [(up + (cp - lo))%N]
      | None => [cp]
      end
  end.

(** [s.toUpperCase()]: every code point gives way to its uppercase, an
    unpaired surrogate to itself.  On a string of ASCII code units this
    is the shift of the letters [a] to [z]; the result is never
    [None]. *)
Definition toUpperCase (s : jsstring) : option jsstring :=
  if forallb isAscii s then Some (map upperAscii s)
  else Some (concat (map codeUnits (concat (map upperCodePoint (codePoints s))))).

(** [s.split(sep)] for a non-empty separator: the occurrences of [sep] are
    taken from left to right without overlap.  [skip] counts the code
    units of a separator just matched that are still to be passed. *)
Fixpoint split_go (sep : jsstring) (skip : nat) (s : jsstring) : list jsstring :=
  match s with
  | [] => [[]]
  | c :: s' =>
      match skip with
      | S k => split_go sep k s'
      | O =>
          if startsWith sep s then [] :: split_go sep (length sep - 1) s'
          else match split_go sep 0 s' with
               | p :: ps => (c :: p) :: ps
               | [] => [[c]]
               end
      end
  end.

Definition split (sep s : jsstring) : list jsstring := split_go sep 0 s.

(** [parts.join(sep)] *)
Fixpoint join (sep : jsstring) (parts : list jsstring) : jsstring :=
  match parts with
  | [] => []
  | [p] => p
  | p :: ps => p ++ sep ++ join sep ps
  end.

(* ----------------------------------------------------------------- *)
(** *** JSON values and [JSON.parse] *)

(** A value [JSON.parse] can return.  A number keeps its literal: its
    value is the IEEE double the literal denotes.  An object keeps its own
    properties in creation order, each key once. *)
Inductive JSValue : Type :=
| JNull
| JBool (b : bool)
| JNumber (lit : jsstring)
| JString (s : jsstring)
| JArray (elems : list JSValue)
| JObject (props : list (jsstring * JSValue)).

(** [CreateDataProperty]: a key already present keeps its place and takes
    the new value, a new key goes last. *)
Fixpoint obj_set (k : jsstring) (v : JSValue) (props : list (jsstring * JSValue))
  : list (jsstring * JSValue) :=
  match props with
  | [] => [(k, v)]
  | (k', v') :: ps =>
      if str_eqb k' k then (k', v) :: ps else (k', v') :: obj_set k v ps
  end.

Definition isJsonWs (c : N) : bool :=
  ((c =? 32) || (c =? 9) || (c =? 10) || (c =? 13))%N.

Fixpoint skip_ws (s : jsstring) : jsstring :=
  match s with
  | [] => []
  | c :: s' => if isJsonWs c then skip_ws s' else s
  end.

Definition isDigit (c : N) : bool := ((48 <=? c) && (c <=? 57))%N.

Definition hexValue (c : N) : option N :=
  if isDigit c then Some (c - 48)%N
  else if ((65 <=? c) && (c <=? 70))%N then Some (c - 55)%N
  else if ((97 <=? c) && (c <=? 102))%N then Some (c - 87)%N
  else None.

Definition hex4 (a b c d : N) : option N :=
  match hexValue a, hexValue b, hexValue c, hexValue d with
  | Some x, Some y, Some z, Some w => Some (x * 4096 + y * 256 + z * 16 + w)%N
  | _, _, _, _ => None
  end.

(** The code unit an escape stands for, the four-digit escape apart:
    quote, backslash, slash, b, f, n, r, t. *)
Definition simpleEscape (c : N) : option N :=
  if (c =? 34)%N then Some 34%N
  else if (c =? 92)%N then Some 92%N
  else if (c =? 47)%N then Some 47%N
  else if (c =? 98)%N then Some 8%N
  else if (c =? 102)%N then Some 12%N
  else if (c =? 110)%N then Some 10%N
  else if (c =? 114)%N then Some 13%N
  else if (c =? 116)%N then Some 9%N
  else None.

(** The rest of a string literal after its opening quote: the decoded
    string and what follows the closing quote. *)
Fixpoint scan_string (s acc : jsstring) : option (jsstring * jsstring) :=
  match s with
  | [] => None
  | c :: r =>
      if (c =? 34)%N then Some (rev acc, r)
      else if (c =? 92)%N then
        match r with
        | [] => None
        | e :: r1 =>
            if (e =? 117)%N then
              match r1 with
              | h1 :: h2 :: h3 :: h4 :: r2 =>
                  match hex4 h1 h2 h3 h4 with
                  | Some u => scan_string r2 (u :: acc)
                  | None => None
                  end
              | _ => None
              end
            else
              match simpleEscape e with
              | Some u => scan_string r1 (u :: acc)
              | None => None
              end
        end
      else if (c <? 32)%N then None
      else scan_string r (c :: acc)
  end.

Fixpoint span_digits (s : jsstring) : jsstring * jsstring :=
  match s with
  | c :: r =>
      if isDigit c then let (ds, r') := span_digits r in (c :: ds, r')
      else ([], s)
  | [] => ([], [])
  end.

(** The integer part of a number: [0], or a non-zero digit and digits. *)
Definition scan_int (s : jsstring) : option (jsstring * jsstring) :=
  match s with
  | c :: r =>
      if (c =? 48)%N then Some ([c], r)
      else if isDigit c then let (ds, r') := span_digits r in Some (c :: ds, r')
      else None
  | [] => None
  end.

(** An optional fraction: [.] and at least one digit. *)
Definition scan_frac (s : jsstring) : option (jsstring * jsstring) :=
  match s with
  | c :: r =>
      if (c =? 46)%N then
        match span_digits r with
        | ([], _) => None
        | (ds, r') => Some (c :: ds, r')
        end
      else Some ([], s)
  | [] => Some ([], [])
  end.

(** An optional exponent: [e] or [E], an optional sign, at least one digit. *)
Definition scan_exp (s : jsstring) : option (jsstring * jsstring) :=
  match s with
  | c :: r =>
      if ((c =? 101) || (c =? 69))%N then
        let (sign, r0) :=
          match r with
          | g :: r' => if ((g =? 43) || (g =? 45))%N then ([g], r') else ([], r)
          | [] => ([], r)
          end in
        match span_digits r0 with
        | ([], _) => None
        | (ds, r') => Some (c :: sign ++ ds, r')
        end
      else Some ([], s)
  | [] => Some ([], [])
  end.

(** A number literal and what follows it. *)
Definition scan_number (s : jsstring) : option (jsstring * jsstring) :=
  let (sign, s0) :=
    match s with
    | c :: r => if (c =? 45)%N then ([c], r) else ([], s)
    | [] => ([], s)
    end in
  match scan_int s0 with
  | None => None
  | Some (i, s1) =>
      match scan_frac s1 with
      | None => None
      | Some (f, s2) =>
          match scan_exp s2 with
          | None => None
          | Some (e, s3) => Some (sign ++ i ++ f ++ e, s3)
          end
      end
  end.

(** The result of a parser that runs on fuel. *)
Inductive presult : Type :=
| POk (v : JSValue) (rest : jsstring)
| PFail
| PFuel.

(** Recursive descent over the JSON grammar.  [parse_elements] reads the
    elements of an array after its [[] or a comma, [parse_members] the
    members of an object after its [{] or a comma. *)
Fixpoint parse_value (fuel : nat) (s : jsstring) : presult :=
  match fuel with
  | O => PFuel
  | S f =>
      match skip_ws s with
      | [] => PFail
      | c :: r =>
          if (c =? 123)%N then
            match skip_ws r with
            | c' :: r' =>
                if (c' =? 125)%N then POk (JObject []) r'
                else parse_members f (c' :: r') []
            | [] => PFail
            end
          else if (c =? 91)%N then
            match skip_ws r with
            | c' :: r' =>
                if (c' =? 93)%N then POk (JArray []) r'
                else parse_elements f (c' :: r') []
            | [] => PFail
            end
          else if (c =? 34)%N then
            match scan_string r [] with
            | Some (str, r') => POk (JString str) r'
            | None => PFail
            end
          else if startsWith (js "true") (c :: r) then
            POk (JBool true) (skipn 4 (c :: r))
          else if startsWith (js "false") (c :: r) then
            POk (JBool false) (skipn 5 (c :: r))
          else if startsWith (js "null") (c :: r) then
            POk JNull (skipn 4 (c :: r))
          else
            match scan_number (c :: r) with
            | Some (lit, r') => POk (JNumber lit) r'
            | None => PFail
            end
      end
  end
with parse_elements (fuel : nat) (s : jsstring) (acc : list JSValue) : presult :=
  match fuel with
  | O => PFuel
  | S f =>
      match parse_value f s with
      | POk v r =>
          match skip_ws r with
          | c :: r' =>
              if (c =? 44)%N then parse_elements f r' (v :: acc)
              else if (c =? 93)%N then POk (JArray (rev (v :: acc))) r'
              else PFail
          | [] => PFail
          end
      | PFail => PFail
      | PFuel => PFuel
      end
  end
with parse_members (fuel : nat) (s : jsstring) (acc : list (jsstring * JSValue)) : presult :=
  match fuel with
  | O => PFuel
  | S f =>
      match skip_ws s with
      | c :: r =>
          if (c =? 34)%N then
            match scan_string r [] with
            | Some (k, r1) =>
                match skip_ws r1 with
                | c1 :: r2 =>
                    if (c1 =? 58)%N then
                      match parse_value f r2 with
                      | POk v r3 =>
                          match skip_ws r3 with
                          | c3 :: r4 =>
                              if (c3 =? 44)%N then parse_members f r4 (obj_set k v acc)
                              else if (c3 =? 125)%N then POk (JObject (obj_set k v acc)) r4
                              else PFail
                          | [] => PFail
                          end
                      | PFail => PFail
                      | PFuel => PFuel
                      end
                    else PFail
                | [] => PFail
                end
            | None => PFail
            end
          else PFail
      | [] => PFail
      end
  end.

(** Fuel that is enough for a text: each call of the three functions but
    the first is paid for by a code unit read. *)
Definition json_fuel (s : jsstring) : nat := 2 * length s + 2.

(** [JSON.parse(s)]; [None] stands for the [SyntaxError] it throws. *)
Definition JSON_parse (s : jsstring) : option JSValue :=
  match parse_value (json_fuel s) s with
  | POk v r => match skip_ws r with [] => Some v | _ :: _ => None end
  | PFail => None
  | PFuel => None
  end.


(* ----------------------------------------------------------------- *)
(** *** Conversions and [encodeURIComponent] *)

(** The native errors the service can meet. *)
Inductive NativeError : Type := SyntaxError | TypeError | URIError.

(** [JSON.parse] as a computation. *)
Definition JSON_parse_or_throw (s : jsstring) : outcome NativeError JSValue :=
  match JSON_parse s with
  | Some v => Ok v
  | None => Throw SyntaxError
  end.

(** [typeof v === 'object'] on a JSON value: also true of [null]. *)
Definition typeof_object (v : JSValue) : bool :=
  match v with
  | JNull | JArray _ | JObject _ => true
  | JBool _ | JNumber _ | JString _ => false
  end.

(** [Array.isArray(v)] *)
Definition Array_isArray (v : JSValue) : bool :=
  match v with
  | JArray _ => true
  | _ => false
  end.

Definition has_own (k : jsstring) (props : list (jsstring * JSValue)) : bool :=
  existsb (fun kv => str_eqb (fst kv) k) props.

(** The number a string of digits denotes. *)
Fixpoint digits_value (acc : Z) (ds : jsstring) : Z :=
  match ds with
  | [] => acc
  | c :: r => digits_value (10 * acc + Z.of_N (c - 48)) r
  end.

(** A number literal of JSON read as a decimal: is it negative, its digits
    as one integer [d] and the power of ten [e] that scales it, the
    mathematical value being [d * 10^e]. *)
Definition decimal_of_literal (lit : jsstring) : bool * Z * Z :=
  let (neg, r0) :=
    match lit with
    | c :: r => if (c =? 45)%N then (true, r) else (false, lit)
    | [] => (false, lit)
    end in
  let (int, r1) := span_digits r0 in
  let (frac, r2) :=
    match r1 with
    | c :: r => if (c =? 46)%N then span_digits r else ([], r1)
    | [] => ([], r1)
    end in
  let e :=
    match r2 with
    | c :: r =>
        if ((c =? 101) || (c =? 69))%N then
          match r with
          | g :: r' =>
              if (g =? 45)%N then (- digits_value 0 r')%Z
              else if (g =? 43)%N then digits_value 0 r'
              else digits_value 0 r
          | [] => 0%Z
          end
        else 0%Z
    | [] => 0%Z
    end in
  (neg, digits_value 0 (int ++ frac), (e - Z.of_nat (length frac))%Z).

(** A positive rational [n / d] over the power of two [2^p], as a
    fraction. *)
Definition over_pow2 (n d p : Z) : Z * Z :=
  if (p <? 0)%Z then (n * 2 ^ (- p), d)%Z else (n, d * 2 ^ p)%Z.

(** The quotient of a fraction rounded to the nearest integer, a tie
    going to the even one. *)
Definition round_half_even (nd : Z * Z) : Z :=
  let (n, d) := nd in
  let q := (n / d)%Z in
  let r := (n mod d)%Z in
  match (2 * r ?= d)%Z with
  | Lt => q
  | Gt => (q + 1)%Z
  | Eq => if Z.even q then q else (q + 1)%Z
  end.

(** The double nearest to the positive rational [n / d], a tie going to
    the even significand: [Some (m, p)] stands for [m * 2^p] with
    [m < 2^53] and [-1074 <= p <= 971], [m] being below [2^52] only for
    [p = -1074] (the subnormal numbers and zero); [None] stands for
    [Infinity]. *)
Definition nearest_double (n d : Z) : option (Z * Z) :=
  let p0 := (Z.log2 n - Z.log2 d - 53)%Z in
  let (n0, d0) := over_pow2 n d p0 in
  let p1 := if (2 ^ 53 * d0 <=? n0)%Z then (p0 + 1)%Z else p0 in
  let p := Z.max p1 (- 1074) in
  let m := round_half_even (over_pow2 n d p) in
  let (m', p') := if (m =? 2 ^ 53)%Z then (2 ^ 52, p + 1)%Z else (m, p) in
  if (971 <? p')%Z then None else Some (m', p').

(** The position of the decimal point of a positive [r / s]: the least
    [n] with [r / s < 10^n].  The search starts below it, from an
    estimate of the logarithm. *)
Definition below_pow10 (r s n : Z) : bool :=
  if (n <? 0)%Z then (r * 10 ^ (- n) <? s)%Z else (r <? s * 10 ^ n)%Z.

Fixpoint point_from (fuel : nat) (r s n : Z) : Z :=
  match fuel with
  | O => n
  | S fuel' => if below_pow10 r s n then n else point_from fuel' r s (n + 1)
  end.

Definition decimal_point (r s : Z) : Z :=
  point_from 8 r s ((Z.log2 r - Z.log2 s) * 1233 / 4096 - 2)%Z.

(** The shortest decimal that reads back as the double [m * 2^p],
    [m > 0]: its digits as an integer and the position [n] of its decimal
    point, the decimal being [0.digits * 10^n].  The decimals that read
    back as the double are those between the midpoints to the two
    neighbouring doubles, the midpoints themselves when [m] is even.
    For [k = 1, 2, ...] digits, the two [k]-digit decimals around the
    double are tried, and of two that fit the nearer is taken, the even
    one when they are as near. *)
Fixpoint shortest_from (fuel : nat) (k : Z) (even : bool) (lo v hi s n : Z) : Z * Z :=
  let g := (n - k)%Z in
  let up := if (g <? 0)%Z then (10 ^ (- g))%Z else 1%Z in
  let dn := if (g <? 0)%Z then s else (s * 10 ^ g)%Z in
  let fits (c : Z) :=
    if even then ((lo * up <=? c * dn) && (c * dn <=? hi * up))%Z
    else ((lo * up <? c * dn) && (c * dn <? hi * up))%Z in
  let c0 := (v * up / dn)%Z in
  let c1 := (c0 + 1)%Z in
  let r := (v * up mod dn)%Z in
  let nearer :=
    match (2 * r ?= dn)%Z with
    | Lt => c0
    | Gt => c1
    | Eq => if Z.even c0 then c0 else c1
    end in
  let found :=
    if fits c0 then if fits c1 then Some nearer else Some c0
    else if fits c1 then Some c1 else None in
  match found, fuel with
  | Some c, _ => (c, k)
  | None, S fuel' => shortest_from fuel' (k + 1) even lo v hi s n
  | None, O => (c0, k)
  end.

(** The decimal digits of a positive integer. *)
Fixpoint digits_from (fuel : nat) (c : Z) (acc : jsstring) : jsstring :=
  match fuel with
  | O => acc
  | S fuel' =>
      let acc' := (48 + Z.to_N (c mod 10))%N :: acc in
      if (c <? 10)%Z then acc' else digits_from fuel' (c / 10) acc'
  end.

Definition digits_of (c : Z) : jsstring :=
  digits_from (S (Z.to_nat (Z.log2 c))) c [].

Fixpoint strip_zeros (rds : jsstring) : jsstring :=
  match rds with
  | c :: r => if (c =? 48)%N then strip_zeros r else rds
  | [] => []
  end.

(** [Number::toString] of the double [m * 2^p], [m > 0]: the digits
    [ds] of the shortest decimal, [k] of them, and the position [n] of
    the point, laid out as the language prescribes: plain digits up to
    [10^21], a fraction from [10^-6], the scientific notation
    otherwise. *)
Definition layout (ds : jsstring) (n : Z) : jsstring :=
  let k := Z.of_nat (length ds) in
  if ((k <=? n) && (n <=? 21))%Z then
    ds ++ repeat 48%N (Z.to_nat (n - k))
  else if ((0 <? n) && (n <=? 21))%Z then
    firstn (Z.to_nat n) ds ++ [46%N] ++ skipn (Z.to_nat n) ds
  else if ((- 6 <? n) && (n <=? 0))%Z then
    [48%N; 46%N] ++ repeat 48%N (Z.to_nat (- n)) ++ ds
  else
    let e := (n - 1)%Z in
    let sign := if (e <? 0)%Z then 45%N else 43%N in
    match ds with
    | [d] => [d; 101%N; sign] ++ digits_of (Z.abs e)
    | d :: r => [d; 46%N] ++ r ++ [101%N; sign] ++ digits_of (Z.abs e)
    | [] => []
    end.

Definition double_toString (m p : Z) : jsstring :=
  let closer := ((m =? 2 ^ 52) && (- 1074 <? p))%Z in
  let t := (p - 2)%Z in
  let scale := if (t <? 0)%Z then 1%Z else (2 ^ t)%Z in
  let s := if (t <? 0)%Z then (2 ^ (- t))%Z else 1%Z in
  let v := (4 * m * scale)%Z in
  let lo := ((4 * m - (if closer then 1 else 2)) * scale)%Z in
  let hi := ((4 * m + 2) * scale)%Z in
  let n := decimal_point v s in
  let (c, k) := shortest_from 17 1 (Z.even m) lo v hi s n in
  let all := digits_of c in
  let ds := rev (strip_zeros (rev all)) in
  layout ds (n + Z.of_nat (length all) - k)%Z.

(** [Number::toString] of the value of a number literal of JSON; the
    result is never [None].  An integer literal of at most fifteen digits
    denotes itself ([-0] prints as [0]).  Any other literal denotes the
    double nearest to its mathematical value, which prints as its
    shortest decimal; zero, also the negative one, prints as [0].  A
    literal whose power of ten alone puts it above the doubles, or below
    half the least of them, is decided without computing that power. *)
Definition Number_toString (lit : jsstring) : option jsstring :=
  let ds := match lit with
            | c :: r => if (c =? 45)%N then r else lit
            | [] => lit
            end in
  if forallb isDigit ds && (length ds <=? 15) then
    if forallb (N.eqb 48) ds then Some (js "0") else Some lit
  else
    let '(neg, d, e) := decimal_of_literal lit in
    let len := Z.of_nat (length lit) in
    let sign := if neg then [45%N] else [] in
    if (d =? 0)%Z then Some (js "0")
    else if (310 <? e)%Z then Some (sign ++ js "Infinity")
    else if (e + len <? - 330)%Z then Some (js "0")
    else
      let n := if (e <? 0)%Z then d else (d * 10 ^ e)%Z in
      let dn := if (e <? 0)%Z then (10 ^ (- e))%Z else 1%Z in
      match nearest_double n dn with
      | None => Some (sign ++ js "Infinity")
      | Some (m, p) =>
          if (m =? 0)%Z then Some (js "0") else Some (sign ++ double_toString m p)
      end.

(** [ToString(v)], as the template literal and [encodeURIComponent] apply
    it.  An array prints its elements joined by commas, [null] elements
    as the empty string.  A plain object prints as [[object Object]]
    through [Object.prototype.toString], unless an own property
    [toString] hides that method: the property of a JSON object is never
    callable, [valueOf] returns the object, and the conversion throws a
    [TypeError]. *)
Fixpoint ToString (v : JSValue) : outcome NativeError jsstring :=
  match v with
  | JNull => Ok (js "null")
  | JBool true => Ok (js "true")
  | JBool false => Ok (js "false")
  | JNumber lit =>
      match Number_toString lit with
      | Some s => Ok s
      | None => Unmodelled
      end
  | JString s => Ok s
  | JArray elems =>
      bind ((fix each (l : list JSValue) : outcome NativeError (list jsstring) :=
               match l with
               | [] => Ok []
               | e :: l' =>
                   bind (match e with JNull => Ok [] | _ => ToString e end)
                        (fun x => bind (each l') (fun xs => Ok (x :: xs)))
               end) elems)
           (fun parts => Ok (join (js ",") parts))
  | JObject props =>
      if has_own (js "toString") props then Throw TypeError
      else Ok (js "[object Object]")
  end.

(** The code units [encodeURIComponent] leaves as they are: letters,
    digits and [- _ . ! ~ * ' ( )]. *)
Definition isUnreserved (c : N) : bool :=
  ((65 <=? c) && (c <=? 90) || (97 <=? c) && (c <=? 122) || isDigit c
   || (c =? 45) || (c =? 95) || (c =? 46) || (c =? 33) || (c =? 126)
   || (c =? 42) || (c =? 39) || (c =? 40) || (c =? 41))%N.

Definition hexDigit (n : N) : N :=
  if (n <? 10)%N then (48 + n)%N else (55 + n)%N.

(** An octet as [%XX], two upper-case hexadecimal digits. *)
Definition percent (b : N) : jsstring :=
  [37%N; hexDigit ((b / 16) mod 16); hexDigit (b mod 16)].

(** The UTF-8 octets of a code point. *)
Definition utf8 (cp : N) : list N :=
  if (cp <? 128)%N then [cp]
  else if (cp <? 2048)%N then [192 + cp / 64; 128 + cp mod 64]%N
  else if (cp <? 65536)%N then
    [224 + cp / 4096; 128 + (cp / 64) mod 64; 128 + cp mod 64]%N
  else
    [240 + cp / 262144; 128 + (cp / 4096) mod 64;
     128 + (cp / 64) mod 64; 128 + cp mod 64]%N.

Definition isLeadSurrogate (c : N) : bool := ((55296 <=? c) && (c <=? 56319))%N.
Definition isTrailSurrogate (c : N) : bool := ((56320 <=? c) && (c <=? 57343))%N.

Definition pairCodePoint (hi lo : N) : N :=
  ((hi - 55296) * 1024 + (lo - 56320) + 65536)%N.

Definition percentEncode (cp : N) : jsstring := concat (map percent (utf8 cp)).

(** [encodeURIComponent(s)]; [None] stands for the [URIError] an unpaired
    surrogate raises. *)
Fixpoint encodeURIComponent (s : jsstring) : option jsstring :=
  match s with
  | [] => Some []
  | c :: r =>
      if isUnreserved c then option_map (cons c) (encodeURIComponent r)
      else if isLeadSurrogate c then
        match r with
        | d :: r' =>
            if isTrailSurrogate d then
              option_map (app (percentEncode (pairCodePoint c d))) (encodeURIComponent r')
            else None
        | [] => None
        end
      else if isTrailSurrogate c then None
      else option_map (app (percentEncode c)) (encodeURIComponent r)
  end.

Definition encodeURIComponent_or_throw (s : jsstring) : outcome NativeError jsstring :=
  match encodeURIComponent s with
  | Some e => Ok e
  | None => Throw URIError
  end.

(** An array index: the canonical decimal form of an integer below
    [2^32 - 1]. *)
Definition arrayIndex (k : jsstring) : option N :=
  match k with
  | [] => None
  | c :: r =>
      if forallb isDigit k
         && (negb (c =? 48)%N || match r with [] => true | _ :: _ => false end)
         && (length k <=? 10)
      then
        let n := fold_left (fun a d => a * 10 + (d - 48))%N k 0%N in
        if (n <? 4294967295)%N then Some n else None
      else None
  end.

Fixpoint insert_index (e : N * (jsstring * JSValue)) (l : list (N * (jsstring * JSValue)))
  : list (N * (jsstring * JSValue)) :=
  match l with
  | [] => [e]
  | x :: l' => if (fst e <? fst x)%N then e :: l else x :: insert_index e l'
  end.

Fixpoint index_props (props : list (jsstring * JSValue)) : list (N * (jsstring * JSValue)) :=
  match props with
  | [] => []
  | kv :: ps =>
      match arrayIndex (fst kv) with
      | Some n => insert_index (n, kv) (index_props ps)
      | None => index_props ps
      end
  end.

Definition isNamed (kv : jsstring * JSValue) : bool :=
  match arrayIndex (fst kv) with
  | Some _ => false
  | None => true
  end.

(** The own properties in the order of [OrdinaryOwnPropertyKeys]: array
    indices ascending, then the other keys in creation order. *)
Definition own_entries (props : list (jsstring * JSValue)) : list (jsstring * JSValue) :=
  map snd (index_props props) ++ filter isNamed props.

(** [Object.entries(v)] for the values the service passes to it: an
    object, or [null], on which it throws a [TypeError]. *)
Definition Object_entries (v : JSValue) : outcome NativeError (list (jsstring * JSValue)) :=
  match v with
  | JObject props => Ok (own_entries props)
  | JNull => Throw TypeError
  | _ => Unmodelled
  end.

End JS.

(* ================================================================= *)
(** ** The service *)

Module Reqline.
Import JS.
Local Open Scope outcome_scope.

(** Modelled from the spec: the message catalog [messages/req-line] is
    not among the sources; an entry is named by its key.  The spec's error
    kinds name the same entries ([PipeSpacingError] is
    [INVALID_SPACING_AROUND_PIPE], [DuplicateSection] is
    [DUPLICATE_SECTION], [InvalidHeadersJson] is
    [INVALID_JSON_FORMAT_HEADERS], and so on). *)
Inductive message_key : Type :=
| MISSING_REQLINE
| INVALID_SYNTAX
| INVALID_REQLINE_FORMAT
| INVALID_SPACING_AROUND_PIPE
| HTTP_NOT_FIRST
| URL_NOT_SECOND
| EMPTY_HTTP_SECTION
| MULTIPLE_SPACES_FOUND
| MISSING_SPACE_AFTER_KEYWORD
| MISSING_HTTP_KEYWORD
| HTTP_METHOD_NOT_UPPERCASE
| INVALID_HTTP_METHOD
| EMPTY_URL_SECTION
| MISSING_URL_KEYWORD
| INVALID_URL_FORMAT
| KEYWORDS_NOT_UPPERCASE
| INVALID_KEYWORD
| DUPLICATE_SECTION
| EMPTY_HEADERS_SECTION
| EMPTY_QUERY_SECTION
| EMPTY_BODY_SECTION
| INVALID_JSON_FORMAT_HEADERS
| INVALID_JSON_FORMAT_QUERY.

(** The message of an error: a catalog entry, or a text built in place. *)
Inductive message : Type :=
| Catalog (k : message_key)
| Text (s : jsstring).

(** An application error: its message and its status code. *)
Record AppError : Type := mkAppError { errMessage : message; errStatus : Z }.

(** What a [throw] inside the [try] block can carry. *)
Inductive exn : Type :=
| AppErr (e : AppError)
| Native (n : NativeError).

(** Modelled from the spec: [throwAppError] of [@app-core/errors] is not
    among the sources; it raises a classified application error (one whose
    [isApplicationError] is set) carrying the message and the status code. *)
Definition throwAppError {A} (m : message) (code : Z) : outcome AppError A :=
  Throw (mkAppError m code).

Definition throwIf (c : bool) (k : message_key) : outcome AppError unit :=
  if c then throwAppError (Catalog k) 400 else Ok tt.

(** The same inside the [try] block. *)
Definition throwIf_try (c : bool) (k : message_key) : outcome exn unit :=
  when c (AppErr (mkAppError (Catalog k) 400)).

Definition native {A} (m : outcome NativeError A) : outcome exn A :=
  match m with
  | Ok a => Ok a
  | Throw n => Throw (Native n)
  | Unmodelled => Unmodelled
  end.

(** [serviceData.reqline]: a string, or a value of another type, of which
    the service only tests the truthiness. *)
Inductive Input : Type :=
| NotString (truthy : bool)
| Str (s : jsstring).

(** The [request] object. *)
Record Request : Type := mkRequest {
  query : JSValue;
  body : JSValue;
  headers : JSValue;
  fullUrl : jsstring
}.

(** The variables the callback of [rest.forEach] reads and writes:
    [request], the local [fullUrl] and the set [processedSections]. *)
Record State : Type := mkState {
  st_request : Request;
  st_fullUrl : jsstring;
  st_processed : list jsstring
}.

(** What the validation and the building leave behind for the transport
    call: the locals [method] and [url], and [request]. *)
Record Compiled : Type := mkCompiled {
  c_method : jsstring;
  c_url : jsstring;
  c_request : Request
}.

Definition isEmpty (s : jsstring) : bool :=
  match s with
  | [] => true
  | _ :: _ => false
  end.

(** The body of the loop over the pipes (lines 40-62) at index [j]: does
    one of its four tests throw? *)
Definition pipe_misplaced (s : jsstring) (j : nat) : bool :=
  is_char PIPE (charAt s j) &&
  ((j =? 0) || negb (is_char SPACE (charAt s (j - 1)))
   || (j =? length s - 1) || negb (is_char SPACE (charAt s (j + 1)))
   || ((2 <=? j) && is_char SPACE (charAt s (j - 2)))
   || ((j + 2 <? length s) && is_char SPACE (charAt s (j + 2)))).

Definition scan_pipes (s : jsstring) : bool :=
  existsb (pipe_misplaced s) (seq 0 (length s)).

(** The loops over two consecutive spaces (lines 96, 141 and 197). *)
Definition has_double_space (p : jsstring) : bool :=
  existsb (fun j => is_char SPACE (charAt p j) && is_char SPACE (charAt p (j + 1)))
          (seq 0 (length p - 1)).

(** Lines 8-69: the checks on the whole line, and the split. *)
Definition lex (reqline : Input) : outcome AppError (list jsstring) :=
  match reqline with
  | NotString truthy =>
      throwIf (negb truthy) MISSING_REQLINE ;;;
      throwAppError (Catalog INVALID_SYNTAX) 400
  | Str reqline =>
      throwIf (isEmpty reqline) MISSING_REQLINE ;;;
      throwIf (negb (startsWith (js "[") reqline) || negb (endsWith (js "]") reqline))
              INVALID_REQLINE_FORMAT ;;;
      let reqlineContent := trim (slice_1_neg1 reqline) in
      throwIf (isEmpty reqlineContent) INVALID_SYNTAX ;;;
      throwIf (includes (js "  |") reqlineContent) INVALID_SPACING_AROUND_PIPE ;;;
      throwIf (includes (js "|  ") reqlineContent) INVALID_SPACING_AROUND_PIPE ;;;
      throwIf (scan_pipes reqlineContent) INVALID_SPACING_AROUND_PIPE ;;;
      let parts := split (js " | ") reqlineContent in
      throwIf (length parts <? 2) INVALID_SYNTAX ;;;
      Ok parts
  end.

(** [s !== s.toUpperCase()] *)
Definition not_upper (s : jsstring) : outcome AppError bool :=
  match toUpperCase s with
  | Some u => Ok (negb (str_eqb s u))
  | None => Unmodelled
  end.

(** Lines 79-175: the HTTP and URL sections; the result is [method] and
    [url]. *)
Definition head_sections (httpPart urlPart : jsstring)
  : outcome AppError (jsstring * jsstring) :=
  throwIf (isEmpty httpPart || negb (startsWith (js "HTTP ") (trim httpPart)))
          HTTP_NOT_FIRST ;;;
  throwIf (isEmpty urlPart || negb (startsWith (js "URL ") (trim urlPart)))
          URL_NOT_SECOND ;;;
  throwIf (isEmpty httpPart || isEmpty (trim httpPart)) EMPTY_HTTP_SECTION ;;;
  throwIf (has_double_space httpPart) MULTIPLE_SPACES_FOUND ;;;
  let trimmedHttpPart := trim httpPart in
  match indexOf SPACE trimmedHttpPart with
  | None => throwAppError (Catalog MISSING_SPACE_AFTER_KEYWORD) 400
  | Some httpSpaceIndex =>
      let httpKeyword := substring 0 httpSpaceIndex trimmedHttpPart in
      let method := substring_from (httpSpaceIndex + 1) trimmedHttpPart in
      throwIf (negb (str_eqb httpKeyword (js "HTTP"))) MISSING_HTTP_KEYWORD ;;;
      throwIf (isEmpty method) MISSING_SPACE_AFTER_KEYWORD ;;;
      throwIf (includes (js " ") method) MULTIPLE_SPACES_FOUND ;;;
      lower <- not_upper method ;;
      throwIf lower HTTP_METHOD_NOT_UPPERCASE ;;;
      throwIf (negb (str_eqb method (js "GET")) && negb (str_eqb method (js "POST")))
              INVALID_HTTP_METHOD ;;;
      throwIf (isEmpty urlPart || isEmpty (trim urlPart)) EMPTY_URL_SECTION ;;;
      throwIf (has_double_space urlPart) MULTIPLE_SPACES_FOUND ;;;
      let trimmedUrlPart := trim urlPart in
      match indexOf SPACE trimmedUrlPart with
      | None => throwAppError (Catalog MISSING_SPACE_AFTER_KEYWORD) 400
      | Some urlSpaceIndex =>
          let urlKeyword := substring 0 urlSpaceIndex trimmedUrlPart in
          let url := substring_from (urlSpaceIndex + 1) trimmedUrlPart in
          throwIf (negb (str_eqb urlKeyword (js "URL"))) MISSING_URL_KEYWORD ;;;
          throwIf (isEmpty url) MISSING_SPACE_AFTER_KEYWORD ;;;
          throwIf (includes (js " ") url) MULTIPLE_SPACES_FOUND ;;;
          let isValidUrl :=
            (startsWith (js "http://") url || startsWith (js "https://") url)
            && (8 <? length url) in
          throwIf (negb isValidUrl) INVALID_URL_FORMAT ;;;
          Ok (method, url)
      end
  end.

(** Lines 71-75 and 177-181: the state before the optional sections. *)
Definition initial_state (url : jsstring) : State :=
  mkState (mkRequest (JObject []) (JObject []) (JObject []) url) url [].

(** One pair of the query string (line 261). *)
Definition query_part (kv : jsstring * JSValue) : outcome NativeError jsstring :=
  s <- ToString (snd kv) ;;
  e <- encodeURIComponent_or_throw s ;;
  Ok (fst kv ++ js "=" ++ e).

(** Lines 247-274: the [switch] inside [try]. *)
Definition try_section (keyword value : jsstring) (st : State) : outcome exn State :=
  let rq := st_request st in
  if str_eqb keyword (js "HEADERS") then
    v <- native (JSON_parse_or_throw value) ;;
    throwIf_try (negb (typeof_object v) || Array_isArray v) INVALID_JSON_FORMAT_HEADERS ;;;
    Ok (mkState (mkRequest (query rq) (body rq) v (fullUrl rq))
                (st_fullUrl st) (st_processed st))
  else if str_eqb keyword (js "QUERY") then
    v <- native (JSON_parse_or_throw value) ;;
    throwIf_try (negb (typeof_object v) || Array_isArray v) INVALID_JSON_FORMAT_QUERY ;;;
    params <- native (Object_entries v) ;;
    queryParts <- native (mapM query_part params) ;;
    let queryString := join (js "&") queryParts in
    if negb (isEmpty queryString) then
      let fullUrl' :=
        st_fullUrl st ++
        (if includes (js "?") (st_fullUrl st) then js "&" ++ queryString
         else js "?" ++ queryString) in
      Ok (mkState (mkRequest v (body rq) (headers rq) fullUrl')
                  fullUrl' (st_processed st))
    else
      Ok (mkState (mkRequest v (body rq) (headers rq) (fullUrl rq))
                  (st_fullUrl st) (st_processed st))
  else if str_eqb keyword (js "BODY") then
    v <- native (JSON_parse_or_throw value) ;;
    Ok (mkState (mkRequest (query rq) v (headers rq) (fullUrl rq))
                (st_fullUrl st) (st_processed st))
  else
    Throw (AppErr (mkAppError (Catalog INVALID_KEYWORD) 400)).

(** Lines 275-280: the [catch] clause. *)
Definition catch_section (keyword : jsstring) (m : outcome exn State)
  : outcome AppError State :=
  match m with
  | Ok st => Ok st
  | Throw (AppErr e) => Throw e
  | Throw (Native _) =>
      throwAppError (Text (js "Invalid JSON format in " ++ keyword ++ js " section")) 400
  | Unmodelled => Unmodelled
  end.

(** Lines 230-244: the error for an empty value. *)
Definition empty_section_key (keyword : jsstring) : message_key :=
  if str_eqb keyword (js "HEADERS") then EMPTY_HEADERS_SECTION
  else if str_eqb keyword (js "QUERY") then EMPTY_QUERY_SECTION
  else if str_eqb keyword (js "BODY") then EMPTY_BODY_SECTION
  else INVALID_KEYWORD.

(** Lines 191-281: the callback of [rest.forEach]. *)
Definition optional_section (st : State) (part : jsstring) : outcome AppError State :=
  throwIf (isEmpty part || isEmpty (trim part)) INVALID_SYNTAX ;;;
  throwIf (has_double_space part) MULTIPLE_SPACES_FOUND ;;;
  let trimmedPart := trim part in
  match indexOf SPACE trimmedPart with
  | None => throwAppError (Catalog MISSING_SPACE_AFTER_KEYWORD) 400
  | Some spaceIndex =>
      let keyword := substring 0 spaceIndex trimmedPart in
      let value := substring_from (spaceIndex + 1) trimmedPart in
      lower <- not_upper keyword ;;
      throwIf lower KEYWORDS_NOT_UPPERCASE ;;;
      throwIf (negb (str_eqb keyword (js "HEADERS"))
               && negb (str_eqb keyword (js "QUERY"))
               && negb (str_eqb keyword (js "BODY"))) INVALID_KEYWORD ;;;
      throwIf (existsb (str_eqb keyword) (st_processed st)) DUPLICATE_SECTION ;;;
      let st1 := mkState (st_request st) (st_fullUrl st) (keyword :: st_processed st) in
      throwIf (isEmpty value || isEmpty (trim value)) (empty_section_key keyword) ;;;
      catch_section keyword (try_section keyword value st1)
  end.

(** Lines 71-281 on the sections the split returned. *)
Definition build (parts : list jsstring) : outcome AppError Compiled :=
  match parts with
  | httpPart :: urlPart :: rest =>
      mu <- head_sections httpPart urlPart ;;
      let (method, url) := mu in
      st <- foldM optional_section (initial_state url) rest ;;
      Ok (mkCompiled method url (st_request st))
  | _ => throwAppError (Catalog INVALID_SYNTAX) 400
  end.

(** Lines 5-281: validation and building, all that precedes the transport
    call. *)
Definition compile (reqline : Input) : outcome AppError Compiled :=
  parts <- lex reqline ;;
  build parts.

(* ----------------------------------------------------------------- *)
(** *** The transport call *)

(** The argument of [httpRequest]. *)
Record TransportRequest : Type := mkTransportRequest {
  t_method : jsstring;
  t_url : jsstring;
  t_data : JSValue;
  t_headers : JSValue
}.

(** What the promise of [httpRequest] settles to: a result with [status]
    and [data], or an error with [message] and, when the server answered,
    [response.status]. *)
Inductive TransportOutcome : Type :=
| Resolved (status : Z) (data : JSValue)
| Rejected (message : jsstring) (response_status : option Z).

Record Response : Type := mkResponse {
  httpStatus : Z;
  duration : Z;
  requestStartTimestamp : Z;
  requestStopTimestamp : Z;
  responseData : JSValue
}.

Record Result : Type := mkResult {
  request : Request;
  response : Response
}.

(** The service.  [httpRequest] is the transport and the two timestamps
    are what the two calls of [Date.now()] return. *)
Definition parse (httpRequest : TransportRequest -> TransportOutcome)
                 (requestStartTimestamp requestStopTimestamp : Z)
                 (reqline : Input) : outcome AppError Result :=
  c <- compile reqline ;;
  let request := c_request c in
  match httpRequest (mkTransportRequest (c_method c) (fullUrl request)
                                        (body request) (headers request)) with
  | Rejected error_message response_status =>
      throwAppError (Text error_message)
                    (match response_status with Some st => st | None => 500%Z end)
  | Resolved status data =>
      Ok (mkResult request
            (mkResponse status (requestStopTimestamp - requestStartTimestamp)
                        requestStartTimestamp requestStopTimestamp data))
  end.

End Reqline.

Import JS Reqline.
Local Open Scope outcome_scope.

(* ================================================================= *)
(** ** The endpoint *)

Module Endpoint.

(** What the handler hands back to the server. *)
Record Reply : Type := mkReply {
  status : Z;
  data : Result
}.

(** The handler of [POST /] (lines 7-14 of the endpoint).  [rc.body] is
    taken to be an object: [reqline] is its property of that name, a
    missing one being a value that is not a string and not truthy.
    [HTTP_200_OK] is [helpers.http_statuses.HTTP_200_OK]; the transport
    and the clock are those of the service. *)
Definition handler (httpRequest : TransportRequest -> TransportOutcome)
                   (requestStartTimestamp requestStopTimestamp : Z)
                   (HTTP_200_OK : Z)
                   (reqline : Input) : outcome AppError Reply :=
  response <- parse httpRequest requestStartTimestamp requestStopTimestamp reqline ;;
  Ok (mkReply HTTP_200_OK response).

End Endpoint.

(* ================================================================= *)
(** ** The notions of the statements *)

(** *** General facts about outcomes *)

(** [throws_only Q m]: whatever [m] throws satisfies [Q]. *)
Definition throws_only {A} (Q : AppError -> Prop) (m : outcome AppError A) : Prop :=
  forall e, m = Throw e -> Q e.

(** *** Which errors the validation can raise *)

(** An error the validation and the building can raise: status 400, and
    never one of the two "missing keyword" entries. *)
Definition expected_error (e : AppError) : Prop :=
  errStatus e = 400%Z /\
  errMessage e <> Catalog MISSING_HTTP_KEYWORD /\
  errMessage e <> Catalog MISSING_URL_KEYWORD.

(** The argument the service passes to the transport. *)
Definition transport_request (c : Compiled) : TransportRequest :=
  mkTransportRequest (c_method c) (fullUrl (c_request c))
                     (body (c_request c)) (headers (c_request c)).

(** *** Status codes (C8) *)

(** A transport that answers 404, and one that fails without a response. *)
Definition transport_404 (_ : TransportRequest) : TransportOutcome :=
  Resolved 404 (JString (js "Not Found")).
Definition transport_down (_ : TransportRequest) : TransportOutcome :=
  Rejected (js "connect ECONNREFUSED") None.

(** *** What a successful validation tells *)

(** The facts a successful run of lines 79-175 establishes. *)
Record head_ok (httpPart urlPart method url : jsstring) : Prop := mkHeadOk {
  ho_http : trim httpPart = js "HTTP " ++ method;
  ho_url : trim urlPart = js "URL " ++ url;
  ho_http_spaces : has_double_space httpPart = false;
  ho_url_spaces : has_double_space urlPart = false;
  ho_method : method = js "GET" \/ method = js "POST";
  ho_no_space : ~ In SPACE url;
  ho_scheme : startsWith (js "http://") url || startsWith (js "https://") url = true;
  ho_length : 8 < length url
}.

(** *** The optional sections, one at a time *)

(** What a section does to the request once its value is decoded. *)
Inductive effect : Type :=
| SetHeaders (v : JSValue)
| SetQuery (v : JSValue) (queryString : jsstring)
| SetBody (v : JSValue).

(** The decoding of a value under a keyword: the part of [try_section]
    that does not read the state. *)
Definition effect_of (keyword value : jsstring) : outcome exn effect :=
  if str_eqb keyword (js "HEADERS") then
    v <- native (JSON_parse_or_throw value) ;;
    throwIf_try (negb (typeof_object v) || Array_isArray v) INVALID_JSON_FORMAT_HEADERS ;;;
    Ok (SetHeaders v)
  else if str_eqb keyword (js "QUERY") then
    v <- native (JSON_parse_or_throw value) ;;
    throwIf_try (negb (typeof_object v) || Array_isArray v) INVALID_JSON_FORMAT_QUERY ;;;
    params <- native (Object_entries v) ;;
    queryParts <- native (mapM query_part params) ;;
    Ok (SetQuery v (join (js "&") queryParts))
  else if str_eqb keyword (js "BODY") then
    v <- native (JSON_parse_or_throw value) ;;
    Ok (SetBody v)
  else
    Throw (AppErr (mkAppError (Catalog INVALID_KEYWORD) 400)).

(** The URL with a query string appended (line 264). *)
Definition append_query (fullUrl queryString : jsstring) : jsstring :=
  fullUrl ++ (if includes (js "?") fullUrl then js "&" ++ queryString
              else js "?" ++ queryString).

(** The assignments of [try_section] once the value is decoded. *)
Definition apply_effect (eff : effect) (st : State) : State :=
  let rq := st_request st in
  match eff with
  | SetHeaders v =>
      mkState (mkRequest (query rq) (body rq) v (fullUrl rq))
              (st_fullUrl st) (st_processed st)
  | SetQuery v queryString =>
      if negb (isEmpty queryString) then
        mkState (mkRequest v (body rq) (headers rq)
                           (append_query (st_fullUrl st) queryString))
                (append_query (st_fullUrl st) queryString) (st_processed st)
      else
        mkState (mkRequest v (body rq) (headers rq) (fullUrl rq))
                (st_fullUrl st) (st_processed st)
  | SetBody v =>
      mkState (mkRequest (query rq) v (headers rq) (fullUrl rq))
              (st_fullUrl st) (st_processed st)
  end.

(** The three keywords of the optional sections. *)
Definition optional_keyword (k : jsstring) : Prop :=
  k = js "HEADERS" \/ k = js "QUERY" \/ k = js "BODY".

(** [section_of part keyword value]: the section reads [keyword value],
    as lines 192-221 accept it. *)
Record section_of (part keyword value : jsstring) : Prop := mkSectionOf {
  so_spaces : has_double_space part = false;
  so_trim : trim part = keyword ++ SPACE :: value;
  so_keyword : optional_keyword keyword
}.

(** [processedSections.add(keyword)] and [processedSections.has(k)]. *)
Definition mark (keyword : jsstring) (st : State) : State :=
  mkState (st_request st) (st_fullUrl st) (keyword :: st_processed st).

Definition processed (k : jsstring) (st : State) : bool :=
  existsb (str_eqb k) (st_processed st).

(** The keyword of a section: the text of the trimmed section before its
    first space (line 210). *)
Definition keyword_of (part : jsstring) : option jsstring :=
  match indexOf SPACE (trim part) with
  | Some spaceIndex => Some (substring 0 spaceIndex (trim part))
  | None => None
  end.

(** *** Duplicate sections (C6) *)

(** A line with two [QUERY] sections, the first of which does not decode. *)
Definition two_queries_line : Input :=
  Str (js "[HTTP GET | URL https://a.com/x | QUERY x | QUERY {}]").

(** *** The query string (C2, C10) *)

(** What a value must be for its section to be accepted. *)
Inductive decodes : jsstring -> jsstring -> effect -> Prop :=
| decodes_headers value v :
    JSON_parse value = Some v ->
    typeof_object v = true -> Array_isArray v = false ->
    decodes (js "HEADERS") value (SetHeaders v)
| decodes_query value props queryParts :
    JSON_parse value = Some (JObject props) ->
    mapM query_part (own_entries props) = Ok queryParts ->
    decodes (js "QUERY") value (SetQuery (JObject props) (join (js "&") queryParts))
| decodes_body value v :
    JSON_parse value = Some v ->
    decodes (js "BODY") value (SetBody v).

(** One pair of the query string, as the rule words it: the key as it is,
    [=], and the value, turned into a string, through
    [encodeURIComponent]. *)
Definition pair_encoded (kv : jsstring * JSValue) (part : jsstring) : Prop :=
  exists s e, ToString (snd kv) = Ok s /\ encodeURIComponent s = Some e /\
              part = fst kv ++ js "=" ++ e.

(** Is the list empty? *)
Definition is_nil {A} (l : list A) : bool :=
  match l with
  | [] => true
  | _ :: _ => false
  end.

(** The rule of [fullUrl], as an invariant of the loop. *)
Definition query_rule (url : jsstring) (st : State) : Prop :=
  st_fullUrl st = fullUrl (st_request st) /\
  exists props queryParts,
    query (st_request st) = JObject props /\
    Forall2 pair_encoded (own_entries props) queryParts /\
    fullUrl (st_request st) =
      (if is_nil props then url else append_query url (join (js "&") queryParts)) /\
    (processed (js "QUERY") st = false -> props = []).

(** *** The spacing of the pipes (C5) *)

(** The number of spaces a string starts with. *)
Fixpoint leading_spaces (s : jsstring) : nat :=
  match s with
  | c :: s' => if (c =? SPACE)%N then S (leading_spaces s') else 0
  | [] => 0
  end.

(** The spaces just before and just after a pipe that sits between [x]
    and [y]. *)
Definition spaces_before (x : jsstring) : nat := leading_spaces (rev x).
Definition spaces_after (y : jsstring) : nat := leading_spaces y.

(** [r] starts with one space and no more. *)
Definition one_space (r : jsstring) : bool :=
  match r with
  | c :: r' => (c =? SPACE)%N && negb (is_char SPACE (hd_error r'))
  | [] => false
  end.

(** *** Values that are not objects (C3) *)

(** Lines whose HEADERS, and whose QUERY, is [null]. *)
Definition headers_null_line : Input :=
  Str (js "[HTTP GET | URL https://a.com/x | HEADERS null]").
Definition query_null_line : Input :=
  Str (js "[HTTP GET | URL https://a.com/x | QUERY null]").

(** *** Lines put together from sections *)

(** The delimiter of the sections. *)
Definition SEP : jsstring := js " | ".

(** A section of a well-spaced line: not empty, without pipe, with no
    space at either end. *)
Record clean (p : jsstring) : Prop := mkClean {
  clean_nonempty : p <> [];
  clean_no_pipe : ~ In PIPE p;
  clean_first : is_char SPACE (hd_error p) = false;
  clean_last : is_char SPACE (hd_error (rev p)) = false
}.

(** *** Compiling [fullUrl] again (C7) *)

(** The printable ASCII code units, the space apart. *)
Definition printable (c : N) : Prop := (33 <= c <= 126)%N.

(** Lines whose query has a key with a space, and a key that is a pipe
    (written as the escape of the code unit 7c in the JSON text). *)
Definition spaced_key_line : Input :=
  Str (jsq "[HTTP GET | URL https://api.test/x | QUERY {'a b':'1'}]").
Definition pipe_key_line : Input :=
  Str (jsq "[HTTP GET | URL https://api.test/x | QUERY {'\u007c':'1'}]").

(** *** The order of the optional sections (C4) *)

(** Two states of the loop that differ at most in the order in which the
    keywords were marked. *)
Record same_state (st st' : State) : Prop := mkSameState {
  ss_request : st_request st = st_request st';
  ss_fullUrl : st_fullUrl st = st_fullUrl st';
  ss_processed : forall k, processed k st = processed k st'
}.



(** What the split guarantees of its parts: no part has the delimiter,
    and a part that is not the last does not end in a space and a pipe
    that would start it. *)
Fixpoint split_inv (parts : list jsstring) : Prop :=
  match parts with
  | [] => True
  | [p] => includes SEP p = false
  | p :: ps => includes SEP (p ++ [SPACE; PIPE]) = false /\ split_inv ps
  end.

(** The text before and after a section in the joined line. *)
Definition before_part (ps1 : list jsstring) : jsstring :=
  match ps1 with
  | [] => []
  | _ :: _ => join SEP ps1 ++ SEP
  end.
Definition after_part (ps2 : list jsstring) : jsstring :=
  match ps2 with
  | [] => []
  | _ :: _ => SEP ++ join SEP ps2
  end.

(** A section the build accepts: not empty, and not starting with a pipe. *)
Definition starts_well (p : jsstring) : Prop :=
  p <> [] /\ is_char PIPE (hd_error p) = false.

(** The sections of a bracketed line: its interior, trimmed, split at the
    delimiter. *)
Definition sections (line : jsstring) : option (list jsstring) :=
  if startsWith (js "[") line && endsWith (js "]") line
  then Some (split SEP (trim (slice_1_neg1 line)))
  else None.

(** *** The errors of each stage *)

(** An error with status 400 whose message is one of the given entries. *)
Definition raises (keys : list message_key) (e : AppError) : Prop :=
  errStatus e = 400%Z /\ exists k, errMessage e = Catalog k /\ In k keys.

(** The text the [catch] clause builds (line 279). *)
Definition json_error_text (keyword : jsstring) : message :=
  Text (js "Invalid JSON format in " ++ keyword ++ js " section").

(** The same, or the text of the [catch] clause for one of the three
    keywords. *)
Definition raises_or_json (keys : list message_key) (e : AppError) : Prop :=
  raises keys e \/
  (errStatus e = 400%Z /\
   exists keyword, optional_keyword keyword /\ errMessage e = json_error_text keyword).

(** The entries lines 8-69 can raise. *)
Definition lex_keys : list message_key :=
  [MISSING_REQLINE; INVALID_SYNTAX; INVALID_REQLINE_FORMAT; INVALID_SPACING_AROUND_PIPE].

(** The entries lines 79-175 can raise. *)
Definition head_keys : list message_key :=
  [HTTP_NOT_FIRST; URL_NOT_SECOND; MULTIPLE_SPACES_FOUND;
   HTTP_METHOD_NOT_UPPERCASE; INVALID_HTTP_METHOD; INVALID_URL_FORMAT].

(** The entries lines 191-281 can raise. *)
Definition optional_keys : list message_key :=
  [INVALID_SYNTAX; MULTIPLE_SPACES_FOUND; MISSING_SPACE_AFTER_KEYWORD;
   KEYWORDS_NOT_UPPERCASE; INVALID_KEYWORD; DUPLICATE_SECTION;
   INVALID_JSON_FORMAT_HEADERS; INVALID_JSON_FORMAT_QUERY].

(** The entries the validation and the building can raise: the others of
    the catalog are behind tests that never hold. *)
Definition reachable_keys : list message_key :=
  [MISSING_REQLINE; INVALID_SYNTAX; INVALID_REQLINE_FORMAT;
   INVALID_SPACING_AROUND_PIPE; HTTP_NOT_FIRST; URL_NOT_SECOND;
   MULTIPLE_SPACES_FOUND; MISSING_SPACE_AFTER_KEYWORD;
   HTTP_METHOD_NOT_UPPERCASE; INVALID_HTTP_METHOD; INVALID_URL_FORMAT;
   KEYWORDS_NOT_UPPERCASE; INVALID_KEYWORD; DUPLICATE_SECTION;
   INVALID_JSON_FORMAT_HEADERS; INVALID_JSON_FORMAT_QUERY].

(** *** The two mandatory sections *)

(** What the first two sections were like when they are reported out of
    order, or the URL ill-formed. *)
Definition head_error_cause (httpPart urlPart : jsstring) (e : AppError) : Prop :=
  match errMessage e with
  | Catalog HTTP_NOT_FIRST => startsWith (js "HTTP ") (trim httpPart) = false
  | Catalog URL_NOT_SECOND =>
      startsWith (js "HTTP ") (trim httpPart) = true /\
      startsWith (js "URL ") (trim urlPart) = false
  | Catalog INVALID_URL_FORMAT =>
      has_double_space httpPart = false /\
      has_double_space urlPart = false /\
      exists method url,
        trim httpPart = js "HTTP " ++ method /\
        (method = js "GET" \/ method = js "POST") /\
        trim urlPart = js "URL " ++ url /\ ~ In SPACE url /\
        (startsWith (js "http://") url || startsWith (js "https://") url = false
         \/ length url <= 8)
  | _ => True
  end.

(** *** The fields of the request *)

(** The field of [request] a keyword stands for. *)
Definition field_of (keyword : jsstring) (rq : Request) : JSValue :=
  if str_eqb keyword (js "HEADERS") then headers rq
  else if str_eqb keyword (js "QUERY") then query rq
  else body rq.

(* ================================================================= *)
(** ** General facts about outcomes *)

Section Outcomes.
Context {E A B : Type}.

Lemma bind_Ok_inv (m : outcome E A) (k : A -> outcome E B) (b : B) :
  bind m k = Ok b -> exists a, m = Ok a /\ k a = Ok b.
Proof. destruct m; simpl; intros H; try discriminate; eauto. Qed.

Lemma bind_Throw_inv (m : outcome E A) (k : A -> outcome E B) (e : E) :
  bind m k = Throw e -> m = Throw e \/ exists a, m = Ok a /\ k a = Throw e.
Proof.
  destruct m as [a|e'|]; simpl; intros H.
  - right; exists a; auto.
  - left; congruence.
  - discriminate.
Qed.

Lemma when_Ok_inv (c : bool) (e : E) (u : unit) :
  when c e = Ok u -> c = false.
Proof. destruct c; simpl; congruence. Qed.
End Outcomes.

Lemma foldM_app {E S A} (f : S -> A -> outcome E S) (l1 l2 : list A) (s : S) :
  foldM f s (l1 ++ l2) = bind (foldM f s l1) (fun s' => foldM f s' l2).
Proof.
  revert s; induction l1 as [|a l1 IH]; intros s; simpl; [reflexivity|].
  destruct (f s a); simpl; auto.
Qed.

Section ThrowsOnly.
Variable Q : AppError -> Prop.

Lemma throws_only_Ok {A} (a : A) : throws_only Q (Ok a).
Proof. intros e H; discriminate. Qed.

Lemma throws_only_Unmodelled {A} : throws_only Q (@Unmodelled AppError A).
Proof. intros e H; discriminate. Qed.

Lemma throws_only_throw {A} (m : message) (code : Z) :
  Q (mkAppError m code) -> throws_only Q (@throwAppError A m code).
Proof. intros HQ e H; inversion H; subst; exact HQ. Qed.

Lemma throws_only_throwIf (c : bool) (k : message_key) :
  (c = true -> Q (mkAppError (Catalog k) 400)) -> throws_only Q (throwIf c k).
Proof.
  intros HQ e H; destruct c; simpl in H; [|discriminate].
  inversion H; subst; auto.
Qed.

Lemma throws_only_bind {A B} (m : outcome AppError A) (k : A -> outcome AppError B) :
  throws_only Q m ->
  (forall a, m = Ok a -> throws_only Q (k a)) ->
  throws_only Q (bind m k).
Proof.
  intros Hm Hk e H; apply bind_Throw_inv in H as [H | (a & Ha & H)].
  - exact (Hm e H).
  - exact (Hk a Ha e H).
Qed.

Lemma throws_only_foldM {S A} (f : S -> A -> outcome AppError S) (l : list A) :
  (forall s a, throws_only Q (f s a)) ->
  forall s, throws_only Q (foldM f s l).
Proof.
  intros Hf; induction l as [|a l IH]; intros s; simpl.
  - apply throws_only_Ok.
  - apply throws_only_bind; auto.
Qed.
End ThrowsOnly.

Lemma throwIf_Ok_inv (c : bool) (k : message_key) (u : unit) :
  throwIf c k = Ok u -> c = false.
Proof. destruct c; simpl; intros H; [discriminate H | reflexivity]. Qed.

Lemma not_upper_throws_only (Q : AppError -> Prop) (s : jsstring) :
  throws_only Q (not_upper s).
Proof. unfold not_upper; intros e H; destruct (toUpperCase s); discriminate. Qed.

(* ================================================================= *)
(** ** Facts about strings *)

Lemma str_eqb_eq (a b : jsstring) : str_eqb a b = true <-> a = b.
Proof.
  revert b; induction a as [|x a IH]; intros [|y b]; simpl; split; intros H;
    try reflexivity; try discriminate.
  - apply andb_true_iff in H as [Hx Hab]. apply N.eqb_eq in Hx.
    apply IH in Hab. congruence.
  - inversion H; subst. rewrite N.eqb_refl. simpl. apply IH. reflexivity.
Qed.

Lemma str_eqb_refl (a : jsstring) : str_eqb a a = true.
Proof. apply str_eqb_eq; reflexivity. Qed.

Lemma str_eqb_neq (a b : jsstring) : str_eqb a b = false <-> a <> b.
Proof.
  split.
  - intros H Hab. apply str_eqb_eq in Hab. congruence.
  - intros H. destruct (str_eqb a b) eqn:E; [|reflexivity].
    apply str_eqb_eq in E. contradiction.
Qed.

Lemma startsWith_app (p s : jsstring) : startsWith p (p ++ s) = true.
Proof. induction p as [|x p IH]; simpl; [reflexivity|]. now rewrite N.eqb_refl. Qed.

Lemma startsWith_inv (p s : jsstring) :
  startsWith p s = true -> exists r, s = p ++ r.
Proof.
  revert s; induction p as [|x p IH]; intros s H; simpl in *.
  - exists s; reflexivity.
  - destruct s as [|y s]; [discriminate|].
    apply andb_true_iff in H as [Hx Hp]. apply N.eqb_eq in Hx. subst y.
    destruct (IH s Hp) as [r ->]. exists r; reflexivity.
Qed.

(** The keyword in front of the first space: when a string starts with
    [kw] and a space and [kw] has no space, the first space is at
    [length kw] and the text before it is [kw]. *)
Lemma keyword_before_space (kw r : jsstring) :
  ~ In SPACE kw ->
  indexOf SPACE (kw ++ SPACE :: r) = Some (length kw) /\
  substring 0 (length kw) (kw ++ SPACE :: r) = kw /\
  substring_from (length kw + 1) (kw ++ SPACE :: r) = r.
Proof.
  induction kw as [|x kw IH]; intros Hn.
  - simpl. repeat split; reflexivity.
  - assert (Hx : (x =? SPACE)%N = false).
    { apply N.eqb_neq. intros ->. apply Hn. left; reflexivity. }
    destruct IH as (Hi & Hs & Hf); [intros Hin; apply Hn; right; exact Hin|].
    simpl. rewrite Hx, Hi. simpl. repeat split.
    + unfold substring in *. simpl in *. rewrite Nat.sub_0_r in Hs.
      simpl. f_equal. exact Hs.
    + exact Hf.
Qed.

(* ================================================================= *)
(** ** Which errors the validation can raise *)

Ltac expected_error_now :=
  intros; repeat split; simpl; solve [reflexivity | discriminate].

Ltac step_throws :=
  lazymatch goal with
  | |- throws_only _ (bind (throwIf _ _) _) =>
      apply throws_only_bind;
      [ apply throws_only_throwIf
      | let u := fresh "u" in let H := fresh "Hc" in
        intros u H; apply throwIf_Ok_inv in H ]
  | |- throws_only _ (bind (not_upper _) _) =>
      apply throws_only_bind; [ apply not_upper_throws_only | intros ? _ ]
  | |- throws_only _ (throwAppError _ _) => apply throws_only_throw
  | |- throws_only _ (Ok _) => apply throws_only_Ok
  end.

Lemma try_section_throws (keyword value : jsstring) (st : State) (e : AppError) :
  try_section keyword value st = Throw (AppErr e) -> expected_error e.
Proof.
  unfold try_section, throwIf_try, when, native, JSON_parse_or_throw.
  intros H.
  repeat match type of H with
         | context [if ?c then _ else _] => destruct c
         | context [match ?x with _ => _ end] => destruct x; simpl in H
         end;
    try discriminate; inversion H; subst; expected_error_now.
Qed.

Lemma catch_section_throws (keyword : jsstring) (m : outcome exn State) :
  (forall e, m = Throw (AppErr e) -> expected_error e) ->
  throws_only expected_error (catch_section keyword m).
Proof.
  intros Hm e H. destruct m as [st|[e'|n]|]; simpl in H; try discriminate.
  - inversion H; subst. apply Hm. reflexivity.
  - inversion H; subst. expected_error_now.
Qed.

Lemma empty_section_key_expected (keyword : jsstring) :
  expected_error (mkAppError (Catalog (empty_section_key keyword)) 400).
Proof.
  unfold empty_section_key.
  repeat match goal with |- context [if ?c then _ else _] => destruct c end;
    expected_error_now.
Qed.

Lemma optional_section_throws (st : State) (part : jsstring) :
  throws_only expected_error (optional_section st part).
Proof.
  unfold optional_section.
  do 2 (step_throws; [expected_error_now|]).
  destruct (indexOf SPACE (trim part)) as [spaceIndex|];
    [|step_throws; expected_error_now].
  step_throws.
  do 3 (step_throws; [expected_error_now|]).
  step_throws; [intros _; apply empty_section_key_expected|].
  apply catch_section_throws. intros e. apply try_section_throws.
Qed.

Lemma head_sections_throws (httpPart urlPart : jsstring) :
  throws_only expected_error (head_sections httpPart urlPart).
Proof.
  unfold head_sections.
  step_throws; [expected_error_now|].
  apply orb_false_iff in Hc as [_ Hhttp]. apply negb_false_iff in Hhttp.
  step_throws; [expected_error_now|].
  apply orb_false_iff in Hc as [_ Hurl]. apply negb_false_iff in Hurl.
  do 2 (step_throws; [expected_error_now|]).
  apply startsWith_inv in Hhttp as [rh Hh]. apply startsWith_inv in Hurl as [ru Hu].
  rewrite Hh, Hu.
  destruct (@keyword_before_space (js "HTTP") rh) as (Hi & Hk & _).
  { vm_compute. intuition discriminate. }
  destruct (@keyword_before_space (js "URL") ru) as (Hi' & Hk' & _).
  { vm_compute. intuition discriminate. }
  change (js "HTTP ") with (js "HTTP" ++ SPACE :: []).
  change (js "URL ") with (js "URL" ++ SPACE :: []).
  rewrite <- !app_assoc. simpl ((_ :: _) ++ _).
  change ([72; 84; 84; 80; SPACE] ++ rh)%N with (js "HTTP" ++ SPACE :: rh).
  rewrite Hi.
  step_throws.
  { intros Hbad. apply negb_true_iff in Hbad. rewrite Hk, str_eqb_refl in Hbad.
    discriminate. }
  do 2 (step_throws; [expected_error_now|]).
  step_throws.
  do 4 (step_throws; [expected_error_now|]).
  change ([85; 82; 76; SPACE] ++ ru)%N with (js "URL" ++ SPACE :: ru).
  rewrite Hi'.
  step_throws.
  { intros Hbad. apply negb_true_iff in Hbad. rewrite Hk', str_eqb_refl in Hbad.
    discriminate. }
  do 3 (step_throws; [expected_error_now|]).
  step_throws.
Qed.

Lemma build_throws (parts : list jsstring) :
  throws_only expected_error (build parts).
Proof.
  unfold build.
  destruct parts as [|httpPart [|urlPart rest]];
    try (step_throws; expected_error_now).
  apply throws_only_bind; [apply head_sections_throws|].
  intros [method url] _.
  apply throws_only_bind.
  - apply throws_only_foldM. intros s a. apply optional_section_throws.
  - intros st _. step_throws.
Qed.

Lemma lex_throws (reqline : Input) :
  throws_only expected_error (lex reqline).
Proof.
  unfold lex. destruct reqline as [truthy|s].
  - step_throws; [expected_error_now|]. step_throws. expected_error_now.
  - do 7 (step_throws; [expected_error_now|]). step_throws.
Qed.

Lemma compile_throws (reqline : Input) :
  throws_only expected_error (compile reqline).
Proof.
  unfold compile. apply throws_only_bind; [apply lex_throws|].
  intros parts _. apply build_throws.
Qed.

Lemma parse_after_compile
      (httpRequest : TransportRequest -> TransportOutcome) (t0 t1 : Z)
      (reqline : Input) (c : Compiled) :
  compile reqline = Ok c ->
  parse httpRequest t0 t1 reqline =
  match httpRequest (transport_request c) with
  | Rejected msg rs =>
      Throw (mkAppError (Text msg) (match rs with Some st => st | None => 500%Z end))
  | Resolved status data =>
      Ok (mkResult (c_request c) (mkResponse status (t1 - t0) t0 t1 data))
  end.
Proof. intros H. unfold parse. rewrite H. reflexivity. Qed.

(* ================================================================= *)
(** ** Every run is modelled *)

Lemma bind_modelled {E A B} (m : outcome E A) (k : A -> outcome E B) :
  m <> Unmodelled -> (forall a, m = Ok a -> k a <> Unmodelled) ->
  bind m k <> Unmodelled.
Proof.
  intros Hm Hk. destruct m as [a|e|]; cbn [bind].
  - apply Hk. reflexivity.
  - discriminate.
  - destruct (Hm eq_refl).
Qed.

Lemma throwIf_modelled (c : bool) (k : message_key) : throwIf c k <> Unmodelled.
Proof. destruct c; discriminate. Qed.

Lemma foldM_modelled {E S A} (f : S -> A -> outcome E S) (l : list A) :
  (forall s a, f s a <> Unmodelled) -> forall s, foldM f s l <> Unmodelled.
Proof.
  intros Hf. induction l as [|a l IH]; intros s; cbn [foldM]; [discriminate|].
  apply bind_modelled; [apply Hf | intros s' _; apply IH].
Qed.

Lemma toUpperCase_total (s : jsstring) : exists u, toUpperCase s = Some u.
Proof. unfold toUpperCase. destruct (forallb isAscii s); eexists; reflexivity. Qed.

Lemma not_upper_modelled (s : jsstring) : not_upper s <> Unmodelled.
Proof.
  unfold not_upper. destruct (toUpperCase_total s) as [u ->]. discriminate.
Qed.

Lemma Number_toString_total (lit : jsstring) : exists s, Number_toString lit = Some s.
Proof.
  unfold Number_toString.
  repeat match goal with
         | |- context [if ?c then _ else _] => destruct c
         | |- context [let '(_, _) := ?x in _] => destruct x
         | |- context [match ?x with _ => _ end] => destruct x
         end; eexists; reflexivity.
Qed.

(** [ToString] of an array goes through its elements. *)
Lemma ToString_modelled (v : JSValue) : ToString v <> Unmodelled.
Proof.
  revert v. fix IH 1. intros v. destruct v as [| b | lit | s | elems | props].
  - discriminate.
  - destruct b; discriminate.
  - cbn [ToString]. destruct (Number_toString_total lit) as [s ->]. discriminate.
  - discriminate.
  - cbn [ToString]. apply bind_modelled; [|intros parts _; discriminate].
    induction elems as [|e elems IHl]; [discriminate|].
    apply bind_modelled.
    + pose proof (IH e) as He. destruct e; try discriminate; exact He.
    + intros x _. apply bind_modelled; [exact IHl | intros xs _; discriminate].
  - cbn [ToString]. destruct (has_own (js "toString") props); discriminate.
Qed.

Lemma native_modelled {A} (m : outcome NativeError A) :
  m <> Unmodelled -> native m <> Unmodelled.
Proof. destruct m; cbn [native]; [discriminate | discriminate | intros H; destruct (H eq_refl)]. Qed.

Lemma query_part_modelled (kv : jsstring * JSValue) : query_part kv <> Unmodelled.
Proof.
  unfold query_part. apply bind_modelled; [apply ToString_modelled|].
  intros s _. apply bind_modelled; [|intros e _; discriminate].
  unfold encodeURIComponent_or_throw. destruct (encodeURIComponent s); discriminate.
Qed.

Lemma mapM_modelled {E A B} (f : A -> outcome E B) (l : list A) :
  (forall a, f a <> Unmodelled) -> mapM f l <> Unmodelled.
Proof.
  intros Hf. induction l as [|a l IH]; cbn [mapM]; [discriminate|].
  apply bind_modelled; [apply Hf|]. intros b _.
  apply bind_modelled; [exact IH | intros bs _; discriminate].
Qed.

Lemma JSON_parse_or_throw_modelled (s : jsstring) : JSON_parse_or_throw s <> Unmodelled.
Proof. unfold JSON_parse_or_throw. destruct (JSON_parse s); discriminate. Qed.

Lemma try_section_modelled (keyword value : jsstring) (st : State) :
  try_section keyword value st <> Unmodelled.
Proof.
  unfold try_section.
  destruct (str_eqb keyword (js "HEADERS")).
  { apply bind_modelled; [apply native_modelled, JSON_parse_or_throw_modelled|].
    intros v _. apply bind_modelled; [|intros u _; discriminate].
    unfold throwIf_try, when. destruct (negb (typeof_object v) || Array_isArray v); discriminate. }
  destruct (str_eqb keyword (js "QUERY")).
  { apply bind_modelled; [apply native_modelled, JSON_parse_or_throw_modelled|].
    intros v _. apply bind_modelled.
    - unfold throwIf_try, when.
      destruct (negb (typeof_object v) || Array_isArray v); discriminate.
    - intros u Hu. unfold throwIf_try in Hu. apply when_Ok_inv in Hu.
      apply bind_modelled.
      + apply native_modelled. destruct v; try discriminate Hu; discriminate.
      + intros params _. apply bind_modelled.
        * apply native_modelled, mapM_modelled, query_part_modelled.
        * intros queryParts _.
          destruct (negb (isEmpty (join (js "&") queryParts))); discriminate. }
  destruct (str_eqb keyword (js "BODY")); [|discriminate].
  apply bind_modelled; [apply native_modelled, JSON_parse_or_throw_modelled|].
  intros v _. discriminate.
Qed.

Lemma optional_section_modelled (st : State) (part : jsstring) :
  optional_section st part <> Unmodelled.
Proof.
  unfold optional_section.
  apply bind_modelled; [apply throwIf_modelled | intros _ _].
  apply bind_modelled; [apply throwIf_modelled | intros _ _].
  destruct (indexOf SPACE (trim part)) as [i|]; [|discriminate].
  apply bind_modelled; [apply not_upper_modelled | intros lower _].
  do 4 (apply bind_modelled; [apply throwIf_modelled | intros _ _]).
  pose proof (try_section_modelled (substring 0 i (trim part))
                (substring_from (i + 1) (trim part))
                (mkState (st_request st) (st_fullUrl st)
                   (substring 0 i (trim part) :: st_processed st))) as H.
  destruct (try_section _ _ _) as [s|[e|n]|]; cbn [catch_section];
    [discriminate | discriminate | discriminate | destruct (H eq_refl)].
Qed.

Lemma head_sections_modelled (httpPart urlPart : jsstring) :
  head_sections httpPart urlPart <> Unmodelled.
Proof.
  unfold head_sections.
  do 4 (apply bind_modelled; [apply throwIf_modelled | intros _ _]).
  destruct (indexOf SPACE (trim httpPart)) as [i|]; [|discriminate].
  do 3 (apply bind_modelled; [apply throwIf_modelled | intros _ _]).
  apply bind_modelled; [apply not_upper_modelled | intros lower _].
  do 4 (apply bind_modelled; [apply throwIf_modelled | intros _ _]).
  destruct (indexOf SPACE (trim urlPart)) as [j|]; [|discriminate].
  do 4 (apply bind_modelled; [apply throwIf_modelled | intros _ _]).
  discriminate.
Qed.

Lemma lex_modelled (reqline : Input) : lex reqline <> Unmodelled.
Proof.
  unfold lex. destruct reqline as [truthy|s].
  - apply bind_modelled; [apply throwIf_modelled | intros _ _]. discriminate.
  - do 7 (apply bind_modelled; [apply throwIf_modelled | intros _ _]). discriminate.
Qed.

Lemma build_modelled (parts : list jsstring) : build parts <> Unmodelled.
Proof.
  unfold build. destruct parts as [|h [|u rest]]; try discriminate.
  apply bind_modelled; [apply head_sections_modelled|].
  intros [method url] _. apply bind_modelled; [|intros st _; discriminate].
  apply foldM_modelled. exact optional_section_modelled.
Qed.

(** The validation and the building of every input end in a value or in
    an error: no input leads to a call the model does not describe. *)
Lemma compile_modelled (reqline : Input) : compile reqline <> Unmodelled.
Proof.
  unfold compile. apply bind_modelled; [apply lex_modelled|].
  intros parts _. apply build_modelled.
Qed.

Lemma compile_Ok_or_Throw (reqline : Input) :
  (exists c, compile reqline = Ok c) \/ (exists e, compile reqline = Throw e).
Proof.
  pose proof (compile_modelled reqline) as H.
  destruct (compile reqline) as [c|e|]; [left; eauto | right; eauto | destruct (H eq_refl)].
Qed.

Lemma parse_modelled (httpRequest : TransportRequest -> TransportOutcome) (t0 t1 : Z)
      (reqline : Input) :
  parse httpRequest t0 t1 reqline <> Unmodelled.
Proof.
  unfold parse. apply bind_modelled; [apply compile_modelled|].
  intros c _. destruct (httpRequest _); discriminate.
Qed.

(** A query with a decimal, an exponent and an integer beyond [2^53]. *)
Example decimal_query_compiles :
  compile (Str (jsq "[HTTP GET | URL https://a.com/x | QUERY {'a':1.5,'b':1e3,'c':12345678901234567890}]"))
  = Ok (mkCompiled (js "GET") (js "https://a.com/x")
          (mkRequest (JObject [(js "a", JNumber (js "1.5")); (js "b", JNumber (js "1e3"));
                               (js "c", JNumber (js "12345678901234567890"))])
                     (JObject []) (JObject [])
                     (js "https://a.com/x?a=1.5&b=1000&c=12345678901234567000"))).
Proof. vm_compute. reflexivity. Qed.

(** A method that is not ASCII: [G], the code unit 201 (capital E with
    acute) and [T] is its own uppercase and not a method; with the code
    unit 233 (small e with acute) between [g] and [t] it is not
    uppercase. *)
Example non_ascii_method :
  compile (Str (js "[HTTP G" ++ [201%N] ++ js "T | URL https://a.com/x]"))
  = Throw (mkAppError (Catalog INVALID_HTTP_METHOD) 400) /\
  compile (Str (js "[HTTP g" ++ [233%N] ++ js "t | URL https://a.com/x]"))
  = Throw (mkAppError (Catalog HTTP_METHOD_NOT_UPPERCASE) 400).
Proof. split; vm_compute; reflexivity. Qed.

(* ================================================================= *)
(** ** Status codes (C8) *)

(** C8.  Every error of the validation and the building carries status
    400.  When the transport fails, the error carries the status of the
    upstream response if there is one, and 500 otherwise.  When the
    transport resolves, its status (404, say) is the [httpStatus] of the
    result. *)
Theorem status_codes
        (httpRequest : TransportRequest -> TransportOutcome) (t0 t1 : Z)
        (reqline : Input) :
  (forall e, compile reqline = Throw e ->
             errStatus e = 400%Z /\ parse httpRequest t0 t1 reqline = Throw e) /\
  (forall c, compile reqline = Ok c ->
     (forall msg st, httpRequest (transport_request c) = Rejected msg (Some st) ->
        parse httpRequest t0 t1 reqline = Throw (mkAppError (Text msg) st)) /\
     (forall msg, httpRequest (transport_request c) = Rejected msg None ->
        parse httpRequest t0 t1 reqline = Throw (mkAppError (Text msg) 500%Z)) /\
     (forall st data, httpRequest (transport_request c) = Resolved st data ->
        exists r, parse httpRequest t0 t1 reqline = Ok r /\
                  request r = c_request c /\
                  httpStatus (response r) = st)).
Proof.
  split.
  - intros e H. split.
    + exact (proj1 (compile_throws reqline e H)).
    + unfold parse. rewrite H. reflexivity.
  - intros c H. repeat split.
    + intros msg st Ht. rewrite (parse_after_compile httpRequest t0 t1 reqline c H), Ht. reflexivity.
    + intros msg Ht. rewrite (parse_after_compile httpRequest t0 t1 reqline c H), Ht. reflexivity.
    + intros st data Ht. rewrite (parse_after_compile httpRequest t0 t1 reqline c H), Ht.
      eexists. repeat split.
Qed.

Lemma status_codes_witness :
  (exists r, parse transport_404 10 25 (Str (js "[HTTP GET | URL https://a.com/x]")) = Ok r
             /\ httpStatus (response r) = 404%Z) /\
  parse transport_down 10 25 (Str (js "[HTTP GET | URL https://a.com/x]"))
  = Throw (mkAppError (Text (js "connect ECONNREFUSED")) 500%Z) /\
  errStatus (mkAppError (Catalog HTTP_METHOD_NOT_UPPERCASE) 400) = 400%Z.
Proof.
  split; [|split].
  - destruct (proj2 (status_codes transport_404 10 25
                       (Str (js "[HTTP GET | URL https://a.com/x]"))) _ eq_refl)
      as (_ & _ & H).
    destruct (H 404%Z _ eq_refl) as (r & Hr & _ & Hs).
    exists r. split; assumption.
  - exact (proj1 (proj2 (proj2 (status_codes transport_down 10 25
                       (Str (js "[HTTP GET | URL https://a.com/x]"))) _ eq_refl))
                 _ eq_refl).
  - exact (proj1 (proj1 (status_codes transport_down 10 25
                       (Str (js "[HTTP get | URL https://a.com/x]"))) _ eq_refl)).
Defined.

(* ================================================================= *)
(** ** The two unreachable branches (C9) *)

(** C9.  The branches that raise [MISSING_HTTP_KEYWORD] (line 114) and
    [MISSING_URL_KEYWORD] (line 159) never fire: the checks of lines 81
    and 86 have made sure the trimmed section starts with [HTTP ] (with
    [URL ]), so the text before the first space is the keyword.  Neither
    the validation nor the whole service raises one of the two. *)
Theorem missing_keyword_unreachable
        (httpRequest : TransportRequest -> TransportOutcome) (t0 t1 : Z)
        (reqline : Input) (status : Z) :
  compile reqline <> Throw (mkAppError (Catalog MISSING_HTTP_KEYWORD) status) /\
  compile reqline <> Throw (mkAppError (Catalog MISSING_URL_KEYWORD) status) /\
  parse httpRequest t0 t1 reqline
    <> Throw (mkAppError (Catalog MISSING_HTTP_KEYWORD) status) /\
  parse httpRequest t0 t1 reqline
    <> Throw (mkAppError (Catalog MISSING_URL_KEYWORD) status).
Proof.
  assert (Hc : forall k, k = MISSING_HTTP_KEYWORD \/ k = MISSING_URL_KEYWORD ->
                         compile reqline <> Throw (mkAppError (Catalog k) status)).
  { intros k Hk H. destruct (compile_throws reqline _ H) as (_ & H1 & H2).
    destruct Hk as [-> | ->]; [apply H1 | apply H2]; reflexivity. }
  assert (Hp : forall k, k = MISSING_HTTP_KEYWORD \/ k = MISSING_URL_KEYWORD ->
                         parse httpRequest t0 t1 reqline
                         <> Throw (mkAppError (Catalog k) status)).
  { intros k Hk H. destruct (compile reqline) as [c|e|] eqn:E.
    - rewrite (parse_after_compile httpRequest t0 t1 reqline c E) in H.
      destruct (httpRequest (transport_request c)); discriminate.
    - unfold parse in H. rewrite E in H. simpl in H.
      apply (Hc k Hk). congruence.
    - unfold parse in H. rewrite E in H. discriminate. }
  repeat split; auto.
Qed.

(* ================================================================= *)
(** ** What a successful validation tells *)

Ltac ok_throwIf H Hc :=
  apply bind_Ok_inv in H as ([] & Hc & H); apply throwIf_Ok_inv in Hc.

Lemma includes_space (s : jsstring) :
  includes (js " ") s = false <-> ~ In SPACE s.
Proof.
  induction s as [|x s IH].
  - simpl. split; [intros _ []|reflexivity].
  - change (includes (js " ") (x :: s))
      with (((SPACE =? x)%N && true) || includes (js " ") s).
    rewrite andb_true_r, orb_false_iff, IH.
    change (In SPACE (x :: s)) with (x = SPACE \/ In SPACE s).
    split.
    + intros [H1 H2] [H|H]; [|contradiction].
      apply N.eqb_neq in H1. congruence.
    + intros H. split.
      * apply N.eqb_neq. intros E. apply H. left. congruence.
      * intros Hin. apply H. right; exact Hin.
Qed.

Lemma not_upper_Ok_false (s : jsstring) :
  not_upper s = Ok false -> toUpperCase s = Some s.
Proof.
  unfold not_upper. destruct (toUpperCase s) as [u|]; [|discriminate].
  intros H. inversion H as [H1]. apply negb_false_iff, str_eqb_eq in H1.
  congruence.
Qed.

Lemma trim_keyword (kw part : jsstring) :
  ~ In SPACE kw ->
  startsWith (kw ++ [SPACE]) (trim part) = true ->
  exists r, trim part = kw ++ SPACE :: r /\
            indexOf SPACE (trim part) = Some (length kw) /\
            substring 0 (length kw) (trim part) = kw /\
            substring_from (length kw + 1) (trim part) = r.
Proof.
  intros Hkw H. apply startsWith_inv in H as [r Hr].
  rewrite <- app_assoc in Hr. simpl in Hr.
  exists r. rewrite Hr. split; [reflexivity|].
  apply keyword_before_space. exact Hkw.
Qed.

Lemma HTTP_no_space : ~ In SPACE (js "HTTP").
Proof. vm_compute. intuition discriminate. Qed.

Lemma URL_no_space : ~ In SPACE (js "URL").
Proof. vm_compute. intuition discriminate. Qed.

Lemma head_sections_Ok_inv (httpPart urlPart method url : jsstring) :
  head_sections httpPart urlPart = Ok (method, url) ->
  head_ok httpPart urlPart method url.
Proof.
  unfold head_sections. intros H.
  ok_throwIf H Hhttp. apply orb_false_iff in Hhttp as [_ Hhttp].
  apply negb_false_iff in Hhttp.
  ok_throwIf H Hurl. apply orb_false_iff in Hurl as [_ Hurl].
  apply negb_false_iff in Hurl.
  ok_throwIf H He. ok_throwIf H Hds.
  destruct (trim_keyword (js "HTTP") httpPart HTTP_no_space Hhttp)
    as (rh & Hh & Hi & _ & Hm).
  destruct (trim_keyword (js "URL") urlPart URL_no_space Hurl)
    as (ru & Hu & Hi' & _ & Hv).
  rewrite Hi in H. rewrite Hm in H.
  ok_throwIf H Hk. ok_throwIf H Hne. ok_throwIf H Hsp.
  apply bind_Ok_inv in H as (lower & Hup & H).
  ok_throwIf H Hlow. subst lower.
  ok_throwIf H Hmeth. ok_throwIf H Hue. ok_throwIf H Hds'.
  rewrite Hi' in H. rewrite Hv in H.
  ok_throwIf H Hk'. ok_throwIf H Hne'. ok_throwIf H Hsp'. ok_throwIf H Hvalid.
  inversion H; subst method url; clear H.
  apply negb_false_iff, andb_true_iff in Hvalid as [Hscheme Hlen].
  constructor; auto.
  - apply andb_false_iff in Hmeth.
    destruct Hmeth as [Hg|Hp]; apply negb_false_iff, str_eqb_eq in Hg || 
      apply negb_false_iff, str_eqb_eq in Hp; auto.
  - apply includes_space. exact Hsp'.
  - apply Nat.ltb_lt. exact Hlen.
Qed.

(* ================================================================= *)
(** ** The optional sections, one at a time *)

Lemma try_section_effect (keyword value : jsstring) (st : State) :
  try_section keyword value st =
  bind (effect_of keyword value) (fun eff => Ok (apply_effect eff st)).
Proof.
  unfold try_section, effect_of.
  destruct (str_eqb keyword (js "HEADERS")).
  { destruct (native (JSON_parse_or_throw value)) as [v| |]; try reflexivity.
    cbn [bind].
    destruct (throwIf_try _ INVALID_JSON_FORMAT_HEADERS); reflexivity. }
  destruct (str_eqb keyword (js "QUERY")).
  { destruct (native (JSON_parse_or_throw value)) as [v| |]; try reflexivity.
    cbn [bind].
    destruct (throwIf_try _ INVALID_JSON_FORMAT_QUERY); try reflexivity.
    cbn [bind].
    destruct (native (Object_entries v)) as [params| |]; try reflexivity.
    cbn [bind].
    destruct (native (mapM query_part params)) as [queryParts| |]; try reflexivity.
    cbn [bind apply_effect]. unfold append_query.
    destruct (negb (isEmpty (join (js "&") queryParts))); reflexivity. }
  destruct (str_eqb keyword (js "BODY")).
  { destruct (native (JSON_parse_or_throw value)) as [v| |]; reflexivity. }
  reflexivity.
Qed.

Lemma optional_keyword_no_space (k : jsstring) :
  optional_keyword k -> ~ In SPACE k.
Proof.
  intros [-> | [-> | ->]]; vm_compute; intuition discriminate.
Qed.

Lemma optional_keyword_upper (k : jsstring) :
  optional_keyword k -> not_upper k = Ok false.
Proof. intros [-> | [-> | ->]]; reflexivity. Qed.

Lemma optional_keyword_allowed (k : jsstring) :
  optional_keyword k <->
  negb (str_eqb k (js "HEADERS")) && negb (str_eqb k (js "QUERY"))
  && negb (str_eqb k (js "BODY")) = false.
Proof.
  unfold optional_keyword. rewrite !andb_false_iff, !negb_false_iff, !str_eqb_eq.
  tauto.
Qed.

Lemma indexOf_Some_split (c : N) (s : jsstring) (i : nat) :
  indexOf c s = Some i ->
  s = substring 0 i s ++ c :: substring_from (i + 1) s /\
  ~ In c (substring 0 i s).
Proof.
  revert i; induction s as [|x s IH]; intros i H; simpl in H; [discriminate|].
  destruct (x =? c)%N eqn:E.
  - inversion H; subst i. apply N.eqb_eq in E. subst x.
    split; [reflexivity|intros []].
  - destruct (indexOf c s) as [j|]; [|discriminate].
    inversion H; subst i. destruct (IH j eq_refl) as [Hs Hn].
    unfold substring, substring_from in *. simpl.
    rewrite Nat.sub_0_r in *. split.
    + f_equal. exact Hs.
    + intros [Hx|Hin]; [|contradiction].
      apply N.eqb_neq in E. congruence.
Qed.

(* ----------------------------------------------------------------- *)
(** *** Trimming *)

Lemma trimStart_head (s r : jsstring) (c : N) :
  trimStart s = c :: r -> isWhiteSpace c = false.
Proof.
  induction s as [|x s IH]; simpl; [discriminate|].
  destruct (isWhiteSpace x) eqn:E; [exact IH|].
  intros H; inversion H; subst; exact E.
Qed.

Lemma trimStart_fixed (s : jsstring) (c : N) :
  isWhiteSpace c = false -> trimStart (c :: s) = c :: s.
Proof. intros H; simpl; rewrite H; reflexivity. Qed.

Lemma trimStart_snoc (s : jsstring) (c : N) :
  isWhiteSpace c = false -> exists w, trimStart (s ++ [c]) = w ++ [c].
Proof.
  intros Hc. induction s as [|x s [w IH]]; simpl.
  - rewrite Hc. exists []; reflexivity.
  - destruct (isWhiteSpace x).
    + exists w; exact IH.
    + exists (x :: s); reflexivity.
Qed.

Lemma trimEnd_snoc (s : jsstring) (c : N) :
  isWhiteSpace c = false -> trimEnd (s ++ [c]) = s ++ [c].
Proof.
  intros Hc. unfold trimEnd. rewrite rev_app_distr. simpl.
  rewrite Hc. simpl. rewrite rev_involutive. reflexivity.
Qed.

Lemma trim_last (s r : jsstring) (c : N) :
  trim s = r ++ [c] -> isWhiteSpace c = false.
Proof.
  unfold trim, trimEnd. intros H.
  apply (f_equal (@rev N)) in H. rewrite rev_involutive, rev_app_distr in H.
  simpl in H. exact (trimStart_head _ _ _ H).
Qed.

Lemma trim_snoc_nonempty (s : jsstring) (c : N) :
  isWhiteSpace c = false -> isEmpty (trim (s ++ [c])) = false.
Proof.
  intros Hc. unfold trim. destruct (trimStart_snoc s c Hc) as [w ->].
  rewrite (trimEnd_snoc w c Hc). destruct w; reflexivity.
Qed.

(** A string that starts and ends with code units that are not white
    space is its own trimming. *)
Lemma trim_fixed (s : jsstring) (a z : N) :
  isWhiteSpace a = false -> isWhiteSpace z = false ->
  trim (a :: s ++ [z]) = a :: s ++ [z].
Proof.
  intros Ha Hz. unfold trim. rewrite (trimStart_fixed _ _ Ha).
  exact (trimEnd_snoc (a :: s) z Hz).
Qed.

Lemma trim_nonempty_source (s : jsstring) :
  isEmpty (trim s) = false -> isEmpty s = false.
Proof. destruct s; [intros H; exact H | reflexivity]. Qed.

Lemma SPACE_is_white : isWhiteSpace SPACE = true.
Proof. reflexivity. Qed.

(** After a keyword and a space a trimmed section has a value that is not
    empty, also when trimmed. *)
Lemma trimmed_value (part keyword value : jsstring) :
  trim part = keyword ++ SPACE :: value ->
  isEmpty value || isEmpty (trim value) = false.
Proof.
  intros H.
  destruct (@exists_last _ (SPACE :: value)) as (v' & c & Hv); [discriminate|].
  assert (Hc : isWhiteSpace c = false).
  { apply (@trim_last part (keyword ++ v') c).
    rewrite H, Hv, app_assoc. reflexivity. }
  destruct v' as [|x v'].
  - inversion Hv as [[Hx Hnil]]. subst c. discriminate.
  - inversion Hv as [[Hx Hval]]. rewrite (trim_snoc_nonempty v' c Hc).
    destruct v'; reflexivity.
Qed.

(** The callback on a well-formed section: the duplicate check, then the
    decoding. *)
Lemma optional_section_eq (st : State) (part keyword value : jsstring) :
  section_of part keyword value ->
  optional_section st part =
  (throwIf (existsb (str_eqb keyword) (st_processed st)) DUPLICATE_SECTION ;;;
   catch_section keyword
     (bind (effect_of keyword value)
           (fun eff => Ok (apply_effect eff (mark keyword st))))).
Proof.
  intros [Hds Htrim Hkw]. unfold optional_section.
  assert (Hne : isEmpty part || isEmpty (trim part) = false).
  { assert (Ht : isEmpty (trim part) = false)
      by (rewrite Htrim; destruct keyword; reflexivity).
    rewrite Ht, (trim_nonempty_source _ Ht). reflexivity. }
  rewrite Hne, Hds. cbn [throwIf bind].
  destruct (keyword_before_space keyword value (optional_keyword_no_space _ Hkw))
    as (Hi & Hk & Hv).
  rewrite Htrim, Hi, Hk, Hv.
  rewrite (optional_keyword_upper _ Hkw). cbn [throwIf bind].
  rewrite (proj1 (optional_keyword_allowed keyword) Hkw). cbn [throwIf bind].
  destruct (existsb (str_eqb keyword) (st_processed st)); [reflexivity|].
  cbn [throwIf bind].
  rewrite (trimmed_value _ _ _ Htrim). cbn [throwIf bind].
  rewrite try_section_effect. reflexivity.
Qed.

Lemma catch_section_Ok_inv (keyword : jsstring) (m : outcome exn State) (st : State) :
  catch_section keyword m = Ok st -> m = Ok st.
Proof. destruct m as [s|[e|n]|]; simpl; intros H; congruence || discriminate. Qed.

(** A section the callback accepts is well formed, its keyword is new and
    its value decodes. *)
Lemma optional_section_Ok_inv (st st' : State) (part : jsstring) :
  optional_section st part = Ok st' ->
  exists keyword value eff,
    section_of part keyword value /\
    existsb (str_eqb keyword) (st_processed st) = false /\
    effect_of keyword value = Ok eff /\
    st' = apply_effect eff (mark keyword st).
Proof.
  unfold optional_section. intros H.
  ok_throwIf H Hne. ok_throwIf H Hds.
  destruct (indexOf SPACE (trim part)) as [i|] eqn:Hi; [|discriminate].
  apply bind_Ok_inv in H as (lower & Hup & H).
  ok_throwIf H Hlow. subst lower.
  ok_throwIf H Hallowed. ok_throwIf H Hdup. ok_throwIf H Hval.
  apply catch_section_Ok_inv in H. rewrite try_section_effect in H.
  apply bind_Ok_inv in H as (eff & Heff & H).
  destruct (indexOf_Some_split _ _ _ Hi) as [Hsplit _].
  exists (substring 0 i (trim part)), (substring_from (i + 1) (trim part)), eff.
  repeat split; auto.
  - apply optional_keyword_allowed. exact Hallowed.
  - inversion H. reflexivity.
Qed.

(* ----------------------------------------------------------------- *)
(** *** The loop over the optional sections *)

Lemma processed_mark (k k' : jsstring) (st : State) :
  processed k (mark k' st) = str_eqb k k' || processed k st.
Proof. reflexivity. Qed.

Lemma apply_effect_processed (eff : effect) (st : State) :
  st_processed (apply_effect eff st) = st_processed st.
Proof.
  destruct eff; simpl; try reflexivity.
  destruct (negb (isEmpty queryString)); reflexivity.
Qed.

(** A successful step marks its keyword. *)
Lemma optional_section_marks (st st' : State) (part : jsstring) :
  optional_section st part = Ok st' ->
  exists keyword value,
    section_of part keyword value /\
    processed keyword st = false /\
    st_processed st' = keyword :: st_processed st.
Proof.
  intros H. apply optional_section_Ok_inv in H
    as (keyword & value & eff & Hs & Hdup & _ & ->).
  exists keyword, value. split; [exact Hs|]. split; [exact Hdup|].
  rewrite apply_effect_processed. reflexivity.
Qed.

(** A section has one reading. *)
Lemma section_of_unique (part k v k' v' : jsstring) :
  section_of part k v -> section_of part k' v' -> k = k' /\ v = v'.
Proof.
  intros [_ Ht Hk] [_ Ht' Hk'].
  destruct (keyword_before_space k v (optional_keyword_no_space _ Hk))
    as (Hi & Hs & Hv).
  destruct (keyword_before_space k' v' (optional_keyword_no_space _ Hk'))
    as (Hi' & Hs' & Hv').
  rewrite <- Ht in Hi, Hs, Hv. rewrite <- Ht' in Hi', Hs', Hv'.
  rewrite Hi in Hi'. inversion Hi' as [Hlen].
  rewrite Hlen in Hs, Hv. split; congruence.
Qed.

(** A mark stays. *)
Lemma foldM_keeps_mark (k : jsstring) (rest : list jsstring) (st st' : State) :
  foldM optional_section st rest = Ok st' ->
  processed k st = true -> processed k st' = true.
Proof.
  revert st. induction rest as [|p rest IH]; intros st H Hk; simpl in H.
  - inversion H; subst; exact Hk.
  - apply bind_Ok_inv in H as (st1 & H1 & H).
    apply (IH st1 H).
    apply optional_section_marks in H1 as (k1 & v1 & _ & _ & Hp).
    unfold processed. rewrite Hp. simpl. unfold processed in Hk. rewrite Hk.
    apply orb_true_r.
Qed.

(** After a successful loop the keywords of all sections are marked. *)
Lemma foldM_marks (rest : list jsstring) (st st' : State) :
  foldM optional_section st rest = Ok st' ->
  forall part keyword value,
    In part rest -> section_of part keyword value ->
    processed keyword st' = true.
Proof.
  revert st. induction rest as [|p rest IH]; intros st H part keyword value Hin Hs.
  - destruct Hin.
  - simpl in H. apply bind_Ok_inv in H as (st1 & H1 & H).
    destruct Hin as [->|Hin].
    + apply optional_section_marks in H1 as (k & v & Hs' & _ & Hp).
      destruct (section_of_unique _ _ _ _ _ Hs Hs') as [<- _].
      apply (foldM_keeps_mark keyword rest st1 st' H).
      unfold processed. rewrite Hp. simpl. rewrite str_eqb_refl. reflexivity.
    + exact (IH st1 H part keyword value Hin Hs).
Qed.

(** Every section of a successful loop is well formed. *)
Lemma foldM_accepts (rest : list jsstring) (st st' : State) :
  foldM optional_section st rest = Ok st' ->
  forall part, In part rest -> exists keyword value, section_of part keyword value.
Proof.
  revert st. induction rest as [|p rest IH]; intros st H part Hin.
  - destruct Hin.
  - simpl in H. apply bind_Ok_inv in H as (st1 & H1 & H).
    destruct Hin as [->|Hin].
    + apply optional_section_marks in H1 as (k & v & Hs & _).
      exists k, v. exact Hs.
    + exact (IH st1 H part Hin).
Qed.

Lemma section_of_keyword_of (part k v : jsstring) :
  section_of part k v -> keyword_of part = Some k.
Proof.
  intros [_ Ht Hk]. unfold keyword_of. rewrite Ht.
  destruct (keyword_before_space k v (optional_keyword_no_space _ Hk))
    as (Hi & Hs & _).
  rewrite Hi, Hs. reflexivity.
Qed.

Lemma keyword_of_section_of (part k : jsstring) :
  keyword_of part = Some k -> optional_keyword k ->
  has_double_space part = false ->
  exists v, section_of part k v.
Proof.
  unfold keyword_of. intros H Hk Hds.
  destruct (indexOf SPACE (trim part)) as [i|] eqn:Hi; [|discriminate].
  injection H as Hsub. destruct (indexOf_Some_split _ _ _ Hi) as [Hsplit _].
  exists (substring_from (i + 1) (trim part)).
  rewrite Hsub in Hsplit. constructor; [exact Hds | exact Hsplit | exact Hk].
Qed.

Lemma build_Ok_inv (httpPart urlPart : jsstring) (rest : list jsstring) (c : Compiled) :
  build (httpPart :: urlPart :: rest) = Ok c ->
  exists st,
    head_sections httpPart urlPart = Ok (c_method c, c_url c) /\
    foldM optional_section (initial_state (c_url c)) rest = Ok st /\
    c_request c = st_request st.
Proof.
  unfold build. intros H.
  apply bind_Ok_inv in H as ([method url] & Hh & H).
  apply bind_Ok_inv in H as (st & Hf & H).
  inversion H; subst c; simpl. exists st. auto.
Qed.

Lemma compile_Ok_inv (reqline : Input) (c : Compiled) :
  compile reqline = Ok c -> exists parts, lex reqline = Ok parts /\ build parts = Ok c.
Proof. unfold compile. intros H. apply bind_Ok_inv in H. exact H. Qed.

(* ================================================================= *)
(** ** Duplicate sections (C6) *)

(** C6, amended.  Let the line split into sections of which a trailing
    one, [d], has the keyword [k] of an earlier trailing section.  Then
    the line never compiles: it fails, with status 400.  It fails with
    [DUPLICATE_SECTION] when the sections before [d] are accepted (the
    line cut before [d] builds) and [d] itself has no two consecutive
    spaces; an earlier defect is reported first. *)
Theorem duplicate_section
        (reqline : Input) (httpPart urlPart d d1 k : jsstring)
        (pre post : list jsstring) :
  lex reqline = Ok (httpPart :: urlPart :: pre ++ d :: post) ->
  In d1 pre ->
  keyword_of d1 = Some k ->
  keyword_of d = Some k ->
  (forall c, compile reqline <> Ok c) /\
  (exists e, compile reqline = Throw e /\ errStatus e = 400%Z) /\
  (forall c, build (httpPart :: urlPart :: pre) = Ok c ->
             has_double_space d = false ->
             compile reqline = Throw (mkAppError (Catalog DUPLICATE_SECTION) 400)).
Proof.
  intros Hlex Hin Hk1 Hk.
  assert (Hnever : forall c, compile reqline <> Ok c); [|split; [exact Hnever|split]].
  - intros c Hc. apply compile_Ok_inv in Hc as (parts & Hl & Hb).
    rewrite Hlex in Hl. inversion Hl; subst parts; clear Hl.
    apply build_Ok_inv in Hb as (st & _ & Hf & _).
    rewrite foldM_app in Hf. apply bind_Ok_inv in Hf as (st1 & Hpre & Hf).
    simpl in Hf. apply bind_Ok_inv in Hf as (st2 & Hd & _).
    apply optional_section_marks in Hd as (k' & v' & Hs & Hnew & _).
    rewrite (section_of_keyword_of _ _ _ Hs) in Hk. inversion Hk; subst k'.
    destruct (foldM_accepts _ _ _ Hpre d1 Hin) as (k1 & v1 & Hs1).
    rewrite (section_of_keyword_of _ _ _ Hs1) in Hk1. inversion Hk1; subst k1.
    rewrite (foldM_marks _ _ _ Hpre d1 k v1 Hin Hs1) in Hnew. discriminate.
  - destruct (compile_Ok_or_Throw reqline) as [[c Hc] | [e He]];
      [destruct (Hnever c Hc)|].
    exists e. split; [exact He | exact (proj1 (compile_throws reqline e He))].
  - intros c Hb Hds. unfold compile. rewrite Hlex. cbn [bind].
    apply build_Ok_inv in Hb as (st & Hh & Hpre & _).
    unfold build. rewrite Hh. cbn [bind]. rewrite foldM_app, Hpre. cbn [bind foldM].
    destruct (foldM_accepts _ _ _ Hpre d1 Hin) as (k1 & v1 & Hs1).
    rewrite (section_of_keyword_of _ _ _ Hs1) in Hk1. inversion Hk1; subst k1.
    destruct (keyword_of_section_of _ _ Hk (so_keyword _ _ _ Hs1) Hds) as [v Hs].
    rewrite (optional_section_eq st _ _ _ Hs).
    fold (processed k st). rewrite (foldM_marks _ _ _ Hpre d1 k v1 Hin Hs1).
    reflexivity.
Qed.

(** Two [QUERY] sections after a [HEADERS] section. *)
Lemma duplicate_section_witness :
  compile (Str (jsq "[HTTP GET | URL https://a.com/x | QUERY {'a':'1'} | HEADERS {} | QUERY {}]"))
  = Throw (mkAppError (Catalog DUPLICATE_SECTION) 400).
Proof.
  refine (proj2 (proj2 (duplicate_section
            (Str (jsq "[HTTP GET | URL https://a.com/x | QUERY {'a':'1'} | HEADERS {} | QUERY {}]"))
            (js "HTTP GET") (js "URL https://a.com/x")
            (js "QUERY {}") (jsq "QUERY {'a':'1'}") (js "QUERY")
            [jsq "QUERY {'a':'1'}"; js "HEADERS {}"] []
            eq_refl _ eq_refl eq_refl)) _ eq_refl eq_refl).
  left; reflexivity.
Defined.

(** The claim as stated fails: the first of two [QUERY] sections does not
    decode, and that is the error reported. *)
Lemma duplicate_section_counterexample :
  lex two_queries_line
  = Ok [js "HTTP GET"; js "URL https://a.com/x"; js "QUERY x"; js "QUERY {}"] /\
  keyword_of (js "QUERY x") = Some (js "QUERY") /\
  keyword_of (js "QUERY {}") = Some (js "QUERY") /\
  compile two_queries_line
  = Throw (mkAppError (Text (js "Invalid JSON format in QUERY section")) 400) /\
  compile two_queries_line <> Throw (mkAppError (Catalog DUPLICATE_SECTION) 400).
Proof.
  repeat split; try reflexivity. vm_compute. discriminate.
Qed.

(* ================================================================= *)
(** ** The query string (C2, C10) *)

Lemma native_Ok_inv {A} (m : outcome NativeError A) (a : A) :
  native m = Ok a -> m = Ok a.
Proof. destruct m; simpl; intros H; congruence || discriminate. Qed.

Lemma JSON_parse_or_throw_Ok (s : jsstring) (v : JSValue) :
  JSON_parse_or_throw s = Ok v <-> JSON_parse s = Some v.
Proof.
  unfold JSON_parse_or_throw. destruct (JSON_parse s); split; intros H;
    congruence || discriminate.
Qed.

Lemma effect_of_Ok_inv (keyword value : jsstring) (eff : effect) :
  effect_of keyword value = Ok eff -> decodes keyword value eff.
Proof.
  unfold effect_of. intros H.
  destruct (str_eqb keyword (js "HEADERS")) eqn:Eh.
  { apply str_eqb_eq in Eh. subst keyword.
    apply bind_Ok_inv in H as (v & Hv & H).
    apply native_Ok_inv, JSON_parse_or_throw_Ok in Hv.
    apply bind_Ok_inv in H as ([] & Hc & H). apply when_Ok_inv in Hc.
    apply orb_false_iff in Hc as [Ht Ha]. apply negb_false_iff in Ht.
    inversion H; subst eff. constructor; assumption. }
  destruct (str_eqb keyword (js "QUERY")) eqn:Eq.
  { apply str_eqb_eq in Eq. subst keyword.
    apply bind_Ok_inv in H as (v & Hv & H).
    apply native_Ok_inv, JSON_parse_or_throw_Ok in Hv.
    apply bind_Ok_inv in H as ([] & Hc & H).
    apply bind_Ok_inv in H as (params & Hp & H). apply native_Ok_inv in Hp.
    apply bind_Ok_inv in H as (queryParts & Hq & H). apply native_Ok_inv in Hq.
    destruct v; try discriminate Hp. simpl in Hp. inversion Hp; subst params.
    inversion H; subst eff. constructor; assumption. }
  destruct (str_eqb keyword (js "BODY")) eqn:Eb; [|discriminate].
  apply str_eqb_eq in Eb. subst keyword.
  apply bind_Ok_inv in H as (v & Hv & H).
  apply native_Ok_inv, JSON_parse_or_throw_Ok in Hv.
  inversion H; subst eff. constructor; assumption.
Qed.

Lemma mapM_query_part (params : list (jsstring * JSValue)) (queryParts : list jsstring) :
  mapM query_part params = Ok queryParts ->
  Forall2 pair_encoded params queryParts.
Proof.
  revert queryParts. induction params as [|kv params IH]; intros queryParts H.
  - simpl in H. inversion H. constructor.
  - simpl in H. apply bind_Ok_inv in H as (p & Hp & H).
    apply bind_Ok_inv in H as (ps & Hps & H). inversion H; subst queryParts.
    constructor; [|apply IH; exact Hps].
    unfold query_part in Hp. apply bind_Ok_inv in Hp as (s & Hs & Hp).
    apply bind_Ok_inv in Hp as (e & He & Hp). inversion Hp; subst p.
    exists s, e. repeat split; auto.
    unfold encodeURIComponent_or_throw in He.
    destruct (encodeURIComponent s); congruence || discriminate.
Qed.

Lemma join_isEmpty (sep : jsstring) (parts : list jsstring) :
  Forall (fun p => p <> []) parts ->
  isEmpty (join sep parts) = is_nil parts.
Proof.
  intros H. destruct parts as [|p [|q parts]]; [reflexivity| |].
  - inversion H; subst. destruct p; [contradiction|reflexivity].
  - inversion H; subst. destruct p; [contradiction|reflexivity].
Qed.

Lemma pair_encoded_nonempty (params : list (jsstring * JSValue)) (queryParts : list jsstring) :
  Forall2 pair_encoded params queryParts -> Forall (fun p => p <> []) queryParts.
Proof.
  induction 1 as [|kv p params parts (s & e & _ & _ & ->) _ IH]; constructor; auto.
  destruct (fst kv); discriminate.
Qed.

Lemma insert_index_length e l : length (insert_index e l) = S (length l).
Proof.
  induction l as [|x l IH]; simpl; [reflexivity|].
  destruct (fst e <? fst x)%N; simpl; congruence.
Qed.

Lemma own_entries_length (props : list (jsstring * JSValue)) :
  length (own_entries props) = length props.
Proof.
  unfold own_entries. rewrite length_app, length_map.
  induction props as [|kv props IH]; [reflexivity|].
  cbn [index_props filter]. unfold isNamed at 1.
  destruct (arrayIndex (fst kv)).
  - rewrite insert_index_length. cbn [length Nat.add]. rewrite IH. reflexivity.
  - cbn [length]. rewrite Nat.add_succ_r, IH. reflexivity.
Qed.

Lemma query_rule_initial (url : jsstring) : query_rule url (initial_state url).
Proof.
  split; [reflexivity|]. exists [], []. repeat split. constructor.
Qed.

Lemma query_rule_step (url : jsstring) (st st' : State) (part : jsstring) :
  query_rule url st ->
  optional_section st part = Ok st' ->
  query_rule url st'.
Proof.
  intros (Hfull & props & parts & Hq & Hparts & Hurl & Hnew) H.
  apply optional_section_Ok_inv in H as (k & v & eff & Hs & Hdup & Heff & ->).
  apply effect_of_Ok_inv in Heff.
  destruct Heff as [value v' Hv Ht Ha | value props' parts' Hv Hm | value v' Hv].
  - split; [exact Hfull|]. exists props, parts. repeat split; auto.
  - fold (processed (js "QUERY") st) in Hdup.
    specialize (Hnew Hdup). subst props. simpl in Hurl.
    pose proof (mapM_query_part _ _ Hm) as HF.
    assert (He : isEmpty (join (js "&") parts') = is_nil props').
    { rewrite (join_isEmpty _ _ (pair_encoded_nonempty _ _ HF)).
      pose proof (Forall2_length HF) as Hl. rewrite own_entries_length in Hl.
      destruct props', parts'; simpl in Hl; try discriminate; reflexivity. }
    unfold apply_effect. rewrite He.
    destruct (is_nil props') eqn:Ep; simpl.
    + split; [exact Hfull|]. exists props', parts'. rewrite Ep.
      repeat split; auto. intros Hp. discriminate Hp.
    + split; [reflexivity|]. exists props', parts'. rewrite Ep.
      repeat split; auto.
      * rewrite Hfull, Hurl. reflexivity.
      * intros Hp. discriminate Hp.
  - split; [exact Hfull|]. exists props, parts. repeat split; auto.
Qed.

Lemma query_rule_loop (url : jsstring) (rest : list jsstring) (st st' : State) :
  query_rule url st ->
  foldM optional_section st rest = Ok st' ->
  query_rule url st'.
Proof.
  revert st. induction rest as [|p rest IH]; intros st Hinv H; simpl in H.
  - inversion H; subst; exact Hinv.
  - apply bind_Ok_inv in H as (st1 & H1 & H).
    exact (IH st1 (query_rule_step _ _ _ _ Hinv H1) H).
Qed.


Lemma compile_query_rule (reqline : Input) (c : Compiled) :
  compile reqline = Ok c ->
  exists parts st,
    lex reqline = Ok parts /\
    foldM optional_section (initial_state (c_url c)) (skipn 2 parts) = Ok st /\
    c_request c = st_request st /\
    query_rule (c_url c) st.
Proof.
  intros H. apply compile_Ok_inv in H as (parts & Hlex & Hb).
  destruct parts as [|httpPart [|urlPart rest]]; try discriminate Hb.
  apply build_Ok_inv in Hb as (st & _ & Hf & Hr).
  exists (httpPart :: urlPart :: rest), st.
  split; [exact Hlex|]. split; [exact Hf|]. split; [exact Hr|].
  exact (query_rule_loop (c_url c) rest (initial_state (c_url c)) st
           (query_rule_initial (c_url c)) Hf).
Qed.

(** The shape of [fullUrl] after a successful run. *)
Lemma compile_fullUrl (reqline : Input) (c : Compiled) :
  compile reqline = Ok c ->
  exists props queryParts,
    query (c_request c) = JObject props /\
    Forall2 pair_encoded (own_entries props) queryParts /\
    fullUrl (c_request c) =
      match props with
      | [] => c_url c
      | _ :: _ =>
          c_url c ++ (if includes (js "?") (c_url c) then js "&" else js "?")
                  ++ join (js "&") queryParts
      end.
Proof.
  intros H.
  destruct (compile_query_rule _ _ H)
    as (parts & st & _ & _ & Hr & _ & props & queryParts & Hq & HF & Hu & _).
  exists props, queryParts. rewrite Hr. repeat split; auto.
  rewrite Hu. unfold append_query.
  destruct props; [reflexivity|]. simpl is_nil. cbv iota.
  destruct (includes (js "?") (c_url c)); reflexivity.
Qed.

(* ----------------------------------------------------------------- *)
(** *** The pairs of the query string, the other way round *)












(* ================================================================= *)
(** ** The spacing of the pipes (C5) *)

Lemma one_space_leading (r : jsstring) :
  one_space r = (leading_spaces r =? 1).
Proof.
  destruct r as [|c [|d r]]; simpl; try reflexivity.
  - destruct (c =? SPACE)%N; reflexivity.
  - destruct (c =? SPACE)%N; [|reflexivity].
    destruct (d =? SPACE)%N; reflexivity.
Qed.

Lemma one_space_chars (r : jsstring) :
  one_space r = is_char SPACE (hd_error r) && negb (is_char SPACE (nth_error r 1)).
Proof. destruct r as [|c [|d r]]; reflexivity. Qed.

Lemma charAt_app_plus (x y : jsstring) (k : nat) :
  charAt (x ++ y) (length x + k) = charAt y k.
Proof.
  unfold charAt. rewrite nth_error_app2 by lia.
  replace (length x + k - length x) with k by lia. reflexivity.
Qed.

Lemma charAt_rev_app (r y : jsstring) (k : nat) :
  charAt (rev r ++ y) (length r + k) = charAt y k.
Proof. rewrite <- (length_rev r). apply charAt_app_plus. Qed.

Section AroundPipe.
Variables r y : jsstring.
Let s := rev r ++ PIPE :: y.
Let j := length r.

Lemma around_pipe_at : charAt s j = Some PIPE.
Proof.
  unfold s, j. rewrite <- (Nat.add_0_r (length r)).
  rewrite charAt_rev_app. reflexivity.
Qed.

Lemma around_pipe_prev :
  (j =? 0) || negb (is_char SPACE (charAt s (j - 1)))
  = negb (is_char SPACE (hd_error r)).
Proof.
  unfold s, j. destruct r as [|a r']; [reflexivity|].
  cbn [length rev hd_error]. rewrite <- app_assoc.
  replace (S (length r') - 1) with (length r' + 0) by lia.
  rewrite charAt_rev_app. reflexivity.
Qed.

Lemma around_pipe_prev2 :
  (2 <=? j) && is_char SPACE (charAt s (j - 2))
  = is_char SPACE (nth_error r 1).
Proof.
  unfold s, j. destruct r as [|a [|b r']]; [reflexivity|reflexivity|].
  cbn [length rev nth_error]. rewrite <- !app_assoc.
  replace (S (S (length r')) - 2) with (length r' + 0) by lia.
  rewrite charAt_rev_app. reflexivity.
Qed.

Lemma around_pipe_next :
  (j =? length s - 1) || negb (is_char SPACE (charAt s (j + 1)))
  = negb (is_char SPACE (hd_error y)).
Proof.
  unfold s, j. rewrite charAt_rev_app, length_app, length_rev.
  destruct y as [|d y'].
  - cbn [length]. replace (length r + 1 - 1) with (length r) by lia.
    rewrite Nat.eqb_refl. reflexivity.
  - cbn [length]. replace (length r =? length r + S (S (length y')) - 1) with false.
    + reflexivity.
    + symmetry. apply Nat.eqb_neq. lia.
Qed.

Lemma around_pipe_next2 :
  (j + 2 <? length s) && is_char SPACE (charAt s (j + 2))
  = is_char SPACE (nth_error y 1).
Proof.
  unfold s, j. rewrite charAt_rev_app, length_app, length_rev.
  destruct y as [|d [|e y']].
  - rewrite andb_false_r. reflexivity.
  - rewrite andb_false_r. reflexivity.
  - cbn [length]. replace (length r + 2 <? length r + S (S (S (length y')))) with true.
    + reflexivity.
    + symmetry. apply Nat.ltb_lt. lia.
Qed.

(** The four tests of the loop at a pipe, in terms of the text around
    it: none throws when there is one space, and no more, on each
    side. *)
Lemma pipe_misplaced_at :
  pipe_misplaced s j = negb (one_space r && one_space y).
Proof.
  unfold pipe_misplaced. rewrite around_pipe_at.
  change (is_char PIPE (Some PIPE)) with true. cbn [andb].
  rewrite around_pipe_prev.
  rewrite <- (orb_assoc (negb (is_char SPACE (hd_error r)))).
  rewrite around_pipe_next, around_pipe_prev2, around_pipe_next2.
  rewrite !one_space_chars.
  destruct (is_char SPACE (hd_error r)), (is_char SPACE (nth_error r 1)),
    (is_char SPACE (hd_error y)), (is_char SPACE (nth_error y 1)); reflexivity.
Qed.
End AroundPipe.

(** The loop over the pipes throws exactly when some pipe has not one
    space, and no more, on each side. *)
Lemma scan_pipes_true (s : jsstring) :
  scan_pipes s = true <->
  exists x y, s = x ++ PIPE :: y /\ one_space (rev x) && one_space y = false.
Proof.
  unfold scan_pipes. rewrite existsb_exists. split.
  - intros (j & Hj & Hm).
    assert (Hp : charAt s j = Some PIPE).
    { unfold pipe_misplaced in Hm. apply andb_true_iff in Hm as [Hm _].
      unfold charAt in *. destruct (nth_error s j); [|discriminate].
      apply N.eqb_eq in Hm. congruence. }
    apply nth_error_split in Hp as (x & y & -> & Hlen).
    exists x, y. split; [reflexivity|].
    rewrite <- (rev_involutive x) in Hm at 1. rewrite <- Hlen, <- length_rev in Hm.
    rewrite pipe_misplaced_at in Hm. apply negb_true_iff in Hm. exact Hm.
  - intros (x & y & -> & H). exists (length x). split.
    + apply in_seq. rewrite length_app. simpl. lia.
    + rewrite <- (rev_involutive x) at 1. rewrite <- (length_rev x).
      rewrite pipe_misplaced_at. rewrite H. reflexivity.
Qed.

(** C5.  Let the line be wrapped in brackets and let its interior, the
    text between them trimmed, have a pipe between [x] and [y].  When the
    spaces just before the pipe, or those just after it, are not exactly
    one (none, or two and more), the compiler fails with
    [INVALID_SPACING_AROUND_PIPE]: the check comes before the split, so no
    error of the split or of the sections is reported instead. *)
Theorem pipe_spacing_error (line x y : jsstring) :
  startsWith (js "[") line = true ->
  endsWith (js "]") line = true ->
  trim (slice_1_neg1 line) = x ++ PIPE :: y ->
  spaces_before x <> 1 \/ spaces_after y <> 1 ->
  lex (Str line) = Throw (mkAppError (Catalog INVALID_SPACING_AROUND_PIPE) 400) /\
  compile (Str line) = Throw (mkAppError (Catalog INVALID_SPACING_AROUND_PIPE) 400).
Proof.
  intros Hopen Hclose Hcontent Hspaces.
  assert (Hlex : lex (Str line)
                 = Throw (mkAppError (Catalog INVALID_SPACING_AROUND_PIPE) 400)).
  { unfold lex.
    assert (Hne : isEmpty line = false) by (destruct line; [discriminate|reflexivity]).
    rewrite Hne, Hopen, Hclose. cbn [negb orb throwIf bind].
    assert (Hc : isEmpty (trim (slice_1_neg1 line)) = false)
      by (rewrite Hcontent; destruct x; reflexivity).
    rewrite Hc. cbn [throwIf bind].
    destruct (includes (js "  |") (trim (slice_1_neg1 line))); [reflexivity|].
    cbn [throwIf bind].
    destruct (includes (js "|  ") (trim (slice_1_neg1 line))); [reflexivity|].
    cbn [throwIf bind].
    assert (Hscan : scan_pipes (trim (slice_1_neg1 line)) = true).
    { apply scan_pipes_true. exists x, y. split; [exact Hcontent|].
      rewrite !one_space_leading. unfold spaces_before, spaces_after in Hspaces.
      apply andb_false_iff.
      destruct Hspaces as [H|H]; [left|right]; apply Nat.eqb_neq; exact H. }
    rewrite Hscan. reflexivity. }
  split; [exact Hlex|]. unfold compile. rewrite Hlex. reflexivity.
Qed.

(** No space after the pipe; two spaces before it. *)
Lemma pipe_spacing_error_witness :
  compile (Str (js "[HTTP GET |URL https://a.com/x]"))
  = Throw (mkAppError (Catalog INVALID_SPACING_AROUND_PIPE) 400) /\
  compile (Str (js "[HTTP GET  | URL https://a.com/x]"))
  = Throw (mkAppError (Catalog INVALID_SPACING_AROUND_PIPE) 400).
Proof.
  split.
  - refine (proj2 (pipe_spacing_error (js "[HTTP GET |URL https://a.com/x]")
                     (js "HTTP GET ") (js "URL https://a.com/x")
                     eq_refl eq_refl eq_refl _)).
    right. vm_compute. discriminate.
  - refine (proj2 (pipe_spacing_error (js "[HTTP GET  | URL https://a.com/x]")
                     (js "HTTP GET  ") (js " URL https://a.com/x")
                     eq_refl eq_refl eq_refl _)).
    left. vm_compute. discriminate.
Defined.

(* ================================================================= *)
(** ** Values that are not objects (C3) *)

(** A value that decodes to an array or to a scalar other than [null] is
    rejected with the entry of its section. *)
Lemma non_object_rejected (st : State) (part keyword value : jsstring) (v : JSValue) :
  section_of part keyword value ->
  processed keyword st = false ->
  JSON_parse value = Some v ->
  typeof_object v = false \/ Array_isArray v = true ->
  (keyword = js "HEADERS" ->
   optional_section st part
   = Throw (mkAppError (Catalog INVALID_JSON_FORMAT_HEADERS) 400)) /\
  (keyword = js "QUERY" ->
   optional_section st part
   = Throw (mkAppError (Catalog INVALID_JSON_FORMAT_QUERY) 400)).
Proof.
  intros Hs Hnew Hv Hno.
  assert (Hc : negb (typeof_object v) || Array_isArray v = true).
  { destruct Hno as [H|H]; rewrite H; [reflexivity|apply orb_true_r]. }
  rewrite (optional_section_eq st _ _ _ Hs). fold (processed keyword st).
  rewrite Hnew. cbn [throwIf bind].
  split; intros ->; unfold effect_of; cbn [str_eqb js]; cbv beta;
    unfold JSON_parse_or_throw; rewrite Hv; cbn [native bind];
    rewrite Hc; reflexivity.
Qed.

(** C3, on the code.  An array or a scalar other than [null] under
    HEADERS or QUERY is rejected with [INVALID_JSON_FORMAT_HEADERS] or
    [INVALID_JSON_FORMAT_QUERY].  But [null] passes the test
    [typeof v !== 'object' || Array.isArray(v)]: [HEADERS null] is
    accepted and [headers] is [null]; [QUERY null] fails later, in
    [Object.entries], and the [catch] clause reports the text
    [Invalid JSON format in QUERY section]. *)
Theorem null_passes_object_test :
  compile headers_null_line
  = Ok (mkCompiled (js "GET") (js "https://a.com/x")
          (mkRequest (JObject []) (JObject []) JNull (js "https://a.com/x"))) /\
  compile query_null_line
  = Throw (mkAppError (Text (js "Invalid JSON format in QUERY section")) 400) /\
  compile (Str (js "[HTTP GET | URL https://a.com/x | HEADERS [1,2]]"))
  = Throw (mkAppError (Catalog INVALID_JSON_FORMAT_HEADERS) 400) /\
  compile (Str (js "[HTTP GET | URL https://a.com/x | QUERY 7]"))
  = Throw (mkAppError (Catalog INVALID_JSON_FORMAT_QUERY) 400).
Proof. repeat split. Qed.

(* ================================================================= *)
(** ** Lines put together from sections *)

Lemma split_go_skip (sep a r : jsstring) :
  split_go sep (length a) (a ++ r) = split_go sep 0 r.
Proof. induction a as [|c a IH]; [reflexivity|exact IH]. Qed.

Lemma split_SEP_match (r : jsstring) :
  split SEP (SEP ++ r) = [] :: split SEP r.
Proof.
  unfold split. change (SEP ++ r) with (SPACE :: [PIPE; SPACE] ++ r).
  cbn [split_go].
  replace (startsWith SEP (SPACE :: [PIPE; SPACE] ++ r)) with true
    by (symmetry; exact (startsWith_app SEP r)).
  change (length SEP - 1) with (length [PIPE; SPACE]).
  rewrite split_go_skip. reflexivity.
Qed.

Lemma split_go_nonempty (sep : jsstring) (k : nat) (s : jsstring) :
  split_go sep k s <> [].
Proof.
  revert k. induction s as [|c s IH]; intros k; [discriminate|].
  destruct k as [|k]; cbn [split_go]; [|apply IH].
  destruct (startsWith sep (c :: s)); [discriminate|].
  destruct (split_go sep 0 s); discriminate.
Qed.

Lemma split_nomatch (c : N) (s : jsstring) :
  startsWith SEP (c :: s) = false ->
  exists p ps, split SEP s = p :: ps /\ split SEP (c :: s) = (c :: p) :: ps.
Proof.
  intros H. unfold split. cbn [split_go]. rewrite H.
  destruct (split_go SEP 0 s) as [|p ps] eqn:E.
  - destruct (split_go_nonempty _ _ _ E).
  - exists p, ps. split; reflexivity.
Qed.

(** A code unit that is followed by no pipe does not start a delimiter. *)
Lemma no_SEP_here (c : N) (s : jsstring) :
  is_char PIPE (hd_error s) = false -> startsWith SEP (c :: s) = false.
Proof.
  intros H. change SEP with [SPACE; PIPE; SPACE]. cbn [startsWith].
  destruct s as [|d s]; [apply andb_false_r|].
  cbn [hd_error is_char] in H. rewrite (N.eqb_sym PIPE d), H.
  apply andb_false_r.
Qed.

Lemma not_In_PIPE_hd (p r : jsstring) (d : N) :
  ~ In PIPE p -> d <> PIPE -> is_char PIPE (hd_error (p ++ d :: r)) = false.
Proof.
  intros Hp Hd. destruct p as [|c p]; cbn [app hd_error is_char].
  - apply N.eqb_neq. exact Hd.
  - apply N.eqb_neq. intros ->. apply Hp. left; reflexivity.
Qed.

Lemma split_pipe_free (p : jsstring) :
  ~ In PIPE p -> split SEP p = [p].
Proof.
  induction p as [|c p IH]; intros Hp; [reflexivity|].
  destruct (split_nomatch c p) as (q & qs & Hq & ->).
  - apply no_SEP_here. destruct p as [|d p]; [reflexivity|].
    cbn [hd_error is_char]. apply N.eqb_neq. intros ->. apply Hp. right; left; reflexivity.
  - rewrite IH in Hq by (intros H; apply Hp; right; exact H).
    inversion Hq. reflexivity.
Qed.

Lemma split_app_SEP (p r : jsstring) :
  ~ In PIPE p -> split SEP (p ++ SEP ++ r) = p :: split SEP r.
Proof.
  induction p as [|c p IH]; intros Hp.
  - apply split_SEP_match.
  - cbn [app]. destruct (split_nomatch c (p ++ SEP ++ r)) as (q & qs & Hq & ->).
    + apply no_SEP_here. change (SEP ++ r) with (SPACE :: [PIPE; SPACE] ++ r).
      apply not_In_PIPE_hd; [|discriminate].
      intros H; apply Hp; right; exact H.
    + rewrite IH in Hq by (intros H; apply Hp; right; exact H).
      inversion Hq. reflexivity.
Qed.

Lemma join_cons2 (sep p q : jsstring) (ps : list jsstring) :
  join sep (p :: q :: ps) = p ++ sep ++ join sep (q :: ps).
Proof. reflexivity. Qed.

(** Splitting what was joined gives the sections back, when no section
    has a pipe. *)
Lemma split_join (parts : list jsstring) :
  parts <> [] -> Forall (fun p => ~ In PIPE p) parts ->
  split SEP (join SEP parts) = parts.
Proof.
  induction parts as [|p [|q ps] IH]; intros Hne HF; [contradiction| |].
  - apply split_pipe_free. inversion HF; assumption.
  - rewrite join_cons2. inversion HF as [|? ? Hp HF']; subst.
    rewrite (split_app_SEP _ _ Hp). f_equal. apply IH; [discriminate|exact HF'].
Qed.

Lemma app_eq_pipe (l1 l2 x y : jsstring) (a : N) :
  l1 ++ l2 = x ++ a :: y -> ~ In a l1 ->
  exists x', x = l1 ++ x' /\ l2 = x' ++ a :: y.
Proof.
  revert x. induction l1 as [|c l1 IH]; intros x H Hn.
  - exists x. split; [reflexivity|exact H].
  - destruct x as [|d x].
    + cbn in H. inversion H. subst. destruct Hn. left; reflexivity.
    + cbn in H. inversion H. subst d.
      destruct (IH x H2) as (x' & -> & Hl2); [intros Hin; apply Hn; right; exact Hin|].
      exists x'. split; [reflexivity|exact Hl2].
Qed.

(** A pipe of a line joined from sections without pipes is the pipe of a
    delimiter. *)
Lemma join_pipe_position (parts : list jsstring) (x y : jsstring) :
  Forall (fun p => ~ In PIPE p) parts ->
  join SEP parts = x ++ PIPE :: y ->
  exists ps1 ps2,
    ps1 <> [] /\ ps2 <> [] /\ parts = ps1 ++ ps2 /\
    x = join SEP ps1 ++ [SPACE] /\ y = SPACE :: join SEP ps2.
Proof.
  revert x. induction parts as [|p [|q ps] IH]; intros x HF H.
  - destruct x; discriminate.
  - cbn in H. apply Forall_inv in HF. destruct HF. rewrite H.
    apply in_or_app. right; left; reflexivity.
  - rewrite join_cons2 in H. pose proof (Forall_inv HF) as Hp.
    pose proof (Forall_inv_tail HF) as HF'.
    destruct (app_eq_pipe _ _ _ _ _ H Hp) as (x' & -> & H').
    change (SEP ++ join SEP (q :: ps))
      with (SPACE :: PIPE :: SPACE :: join SEP (q :: ps)) in H'.
    destruct x' as [|c1 x']; [discriminate|]. inversion H' as [[Hc1 H1]].
    destruct x' as [|c2 x'].
    + inversion H1 as [Hy]. exists [p], (q :: ps).
      repeat split; discriminate || reflexivity.
    + inversion H1 as [[Hc2 H2]].
      destruct x' as [|c3 x']; [discriminate|]. inversion H2 as [[Hc3 H3]].
      destruct (IH x' HF' H3) as (ps1 & ps2 & Hn1 & Hn2 & Hparts & -> & ->).
      exists (p :: ps1), ps2. repeat split.
      * discriminate.
      * exact Hn2.
      * cbn [app]. rewrite Hparts. reflexivity.
      * destruct ps1 as [|p1 ps1]; [contradiction|].
        rewrite join_cons2. rewrite <- !app_assoc. reflexivity.
Qed.

Lemma hd_error_app (p r : jsstring) :
  p <> [] -> hd_error (p ++ r) = hd_error p.
Proof. destruct p; [contradiction|reflexivity]. Qed.

Lemma hd_error_join (sep p : jsstring) (ps : list jsstring) :
  p <> [] -> hd_error (join sep (p :: ps)) = hd_error p.
Proof.
  intros Hp. destruct ps as [|q ps]; [reflexivity|].
  rewrite join_cons2. apply hd_error_app. exact Hp.
Qed.

Lemma join_snoc (sep p : jsstring) (parts : list jsstring) :
  parts <> [] -> join sep (parts ++ [p]) = join sep parts ++ sep ++ p.
Proof.
  induction parts as [|a [|b l] IH]; intros Hne; [contradiction|reflexivity|].
  change ((a :: b :: l) ++ [p]) with (a :: b :: l ++ [p]).
  rewrite !join_cons2. change (b :: l ++ [p]) with ((b :: l) ++ [p]).
  rewrite IH by discriminate. rewrite <- !app_assoc. reflexivity.
Qed.

Lemma rev_join (sep : jsstring) (parts : list jsstring) :
  rev (join sep parts) = join (rev sep) (map (@rev N) (rev parts)).
Proof.
  induction parts as [|p [|q ps] IH]; [reflexivity|reflexivity|].
  rewrite join_cons2, !rev_app_distr, IH.
  change (rev (p :: q :: ps)) with (rev (q :: ps) ++ [p]).
  rewrite map_app. cbn [map]. rewrite join_snoc.
  - rewrite <- !app_assoc. reflexivity.
  - cbn [rev]. rewrite map_app. cbn [map].
    intros H. apply app_eq_nil in H as [_ H]. discriminate H.
Qed.

Lemma hd_error_rev_join (sep : jsstring) (ps : list jsstring) (p : jsstring) :
  p <> [] -> hd_error (rev (join sep (ps ++ [p]))) = hd_error (rev p).
Proof.
  intros Hp. rewrite rev_join, rev_app_distr. cbn [rev app map].
  apply hd_error_join. destruct p; [contradiction|].
  cbn [rev]. destruct (rev p); discriminate.
Qed.

(** In a line joined from clean sections every pipe has one space, and no
    more, on each side. *)
Lemma scan_pipes_join (parts : list jsstring) :
  Forall clean parts -> scan_pipes (join SEP parts) = false.
Proof.
  intros HF. destruct (scan_pipes (join SEP parts)) eqn:E; [|reflexivity].
  apply scan_pipes_true in E as (x & y & Hj & Hbad).
  destruct (join_pipe_position parts x y) as (ps1 & ps2 & Hn1 & Hn2 & -> & -> & ->).
  { eapply Forall_impl; [|exact HF]. intros p Hp. exact (clean_no_pipe p Hp). }
  { exact Hj. }
  apply Forall_app in HF as [HF1 HF2].
  assert (H1 : one_space (rev (join SEP ps1 ++ [SPACE])) = true).
  { rewrite rev_app_distr. cbn [rev app one_space].
    destruct (@exists_last _ ps1 Hn1) as (ps & p & ->).
    apply Forall_app in HF1 as [_ Hp]. apply Forall_inv in Hp.
    rewrite hd_error_rev_join by exact (clean_nonempty p Hp).
    rewrite (clean_last p Hp). reflexivity. }
  assert (H2 : one_space (SPACE :: join SEP ps2) = true).
  { cbn [one_space]. destruct ps2 as [|p ps]; [contradiction|].
    apply Forall_inv in HF2.
    rewrite hd_error_join by exact (clean_nonempty p HF2).
    rewrite (clean_first p HF2). reflexivity. }
  rewrite H1, H2 in Hbad. discriminate.
Qed.

Lemma includes_inv (sub s : jsstring) :
  includes sub s = true -> exists x y, s = x ++ sub ++ y.
Proof.
  induction s as [|c s IH]; cbn [includes]; intros H.
  - rewrite orb_false_r in H. apply startsWith_inv in H as [r Hr].
    exists [], r. exact Hr.
  - apply orb_true_iff in H as [H|H].
    + apply startsWith_inv in H as [r Hr]. exists [], r. exact Hr.
    + destruct (IH H) as (x & y & ->). exists (c :: x), y. reflexivity.
Qed.

(** The two searches of lines 30 and 35 find nothing the loop would not
    find. *)
Lemma scan_pipes_includes (s : jsstring) :
  scan_pipes s = false ->
  includes (js "  |") s = false /\ includes (js "|  ") s = false.
Proof.
  intros Hs. split.
  - destruct (includes (js "  |") s) eqn:E; [|reflexivity].
    apply includes_inv in E as (x & y & ->).
    assert (Hbad : scan_pipes (x ++ js "  |" ++ y) = true).
    { apply scan_pipes_true. exists (x ++ [SPACE; SPACE]), y. split.
      - rewrite <- app_assoc. reflexivity.
      - rewrite rev_app_distr. reflexivity. }
    congruence.
  - destruct (includes (js "|  ") s) eqn:E; [|reflexivity].
    apply includes_inv in E as (x & y & ->).
    assert (Hbad : scan_pipes (x ++ js "|  " ++ y) = true).
    { apply scan_pipes_true. exists x, (SPACE :: SPACE :: y). split.
      - reflexivity.
      - apply andb_false_r. }
    congruence.
Qed.

(** A string with no white space at either end is its own trimming. *)
Lemma trim_id (s : jsstring) (a z : N) :
  hd_error s = Some a -> isWhiteSpace a = false ->
  hd_error (rev s) = Some z -> isWhiteSpace z = false ->
  trim s = s.
Proof.
  intros Ha Hwa Hz Hwz. destruct s as [|c s]; [discriminate|].
  inversion Ha; subst c.
  destruct (@exists_last _ (a :: s)) as (s' & z' & Hs); [discriminate|].
  rewrite Hs in Hz. rewrite rev_app_distr in Hz. inversion Hz; subst z'.
  rewrite Hs. unfold trim.
  assert (Hstart : trimStart (s' ++ [z]) = s' ++ [z]).
  { rewrite <- Hs. apply trimStart_fixed. exact Hwa. }
  rewrite Hstart. apply trimEnd_snoc. exact Hwz.
Qed.

Lemma has_double_space_cons (c : N) (s : jsstring) :
  has_double_space (c :: s) =
  (is_char SPACE (Some c) && is_char SPACE (hd_error s)) || has_double_space s.
Proof.
  unfold has_double_space.
  replace (length (c :: s) - 1) with (length s) by (cbn [length]; lia).
  destruct s as [|d s].
  { cbn [hd_error is_char]. rewrite andb_false_r. reflexivity. }
  replace (length (d :: s) - 1) with (length s) by (cbn [length]; lia).
  change (seq 0 (length (d :: s))) with (0 :: seq 1 (length s)).
  rewrite <- seq_shift. cbn [existsb]. f_equal.
  induction (seq 0 (length s)) as [|j l IH]; [reflexivity|].
  cbn [map existsb]. rewrite IH. reflexivity.
Qed.

Lemma has_double_space_no_space (s : jsstring) :
  ~ In SPACE s -> has_double_space s = false.
Proof.
  induction s as [|c s IH]; intros H; [reflexivity|].
  rewrite has_double_space_cons, IH by (intros Hin; apply H; right; exact Hin).
  cbn [is_char]. replace (c =? SPACE)%N with false; [reflexivity|].
  symmetry. apply N.eqb_neq. intros ->. apply H. left; reflexivity.
Qed.

(** A keyword, one space and a value without space: no two consecutive
    spaces. *)
Lemma has_double_space_keyword (kw value : jsstring) :
  ~ In SPACE kw -> ~ In SPACE value ->
  has_double_space (kw ++ SPACE :: value) = false.
Proof.
  intros Hk Hv.
  induction kw as [|c kw IH].
  - cbn [app]. rewrite has_double_space_cons, (has_double_space_no_space _ Hv).
    destruct value as [|d value]; [reflexivity|].
    cbn [hd_error is_char]. replace (d =? SPACE)%N with false.
    + rewrite andb_false_r. reflexivity.
    + symmetry. apply N.eqb_neq. intros ->. apply Hv. left; reflexivity.
  - cbn [app]. rewrite has_double_space_cons, IH
      by (intros Hin; apply Hk; right; exact Hin).
    cbn [is_char]. replace (c =? SPACE)%N with false; [reflexivity|].
    symmetry. apply N.eqb_neq. intros ->. apply Hk. left; reflexivity.
Qed.

Lemma join_nonempty (sep p : jsstring) (ps : list jsstring) :
  p <> [] -> join sep (p :: ps) <> [].
Proof.
  intros Hp H. destruct ps as [|q ps]; [contradiction|].
  rewrite join_cons2 in H. apply app_eq_nil in H as [H _]. contradiction.
Qed.

(** The checks of lines 8-69 on a bracketed line whose interior is joined
    from at least two clean sections: they pass and the split returns the
    sections. *)
Lemma lex_content (line : jsstring) (parts : list jsstring) :
  startsWith (js "[") line = true ->
  endsWith (js "]") line = true ->
  trim (slice_1_neg1 line) = join SEP parts ->
  2 <= length parts ->
  Forall clean parts ->
  lex (Str line) = Ok parts.
Proof.
  intros Hopen Hclose Hcontent Hlen HF. unfold lex.
  assert (Hne : isEmpty line = false) by (destruct line; [discriminate|reflexivity]).
  rewrite Hne, Hopen, Hclose, Hcontent. cbn [negb orb throwIf bind].
  assert (Hc : isEmpty (join SEP parts) = false).
  { destruct parts as [|p ps]; [simpl in Hlen; lia|].
    apply Forall_inv in HF.
    destruct (join SEP (p :: ps)) eqn:E; [|reflexivity].
    destruct (join_nonempty SEP p ps (clean_nonempty p HF) E). }
  rewrite Hc. cbn [throwIf bind].
  pose proof (scan_pipes_join parts HF) as Hscan.
  destruct (scan_pipes_includes _ Hscan) as [Hi1 Hi2].
  rewrite Hi1, Hi2, Hscan. cbn [throwIf bind].
  fold SEP. rewrite split_join.
  - replace (length parts <? 2) with false; [reflexivity|].
    symmetry. apply Nat.ltb_ge. exact Hlen.
  - destruct parts; [simpl in Hlen; lia|discriminate].
  - eapply Forall_impl; [|exact HF]. intros p Hp. exact (clean_no_pipe p Hp).
Qed.

Lemma bracketed (content : jsstring) :
  startsWith (js "[") (js "[" ++ content ++ js "]") = true /\
  endsWith (js "]") (js "[" ++ content ++ js "]") = true /\
  slice_1_neg1 (js "[" ++ content ++ js "]") = content.
Proof.
  repeat split.
  - unfold endsWith. rewrite !rev_app_distr. reflexivity.
  - unfold slice_1_neg1. change (tl (js "[" ++ content ++ js "]")) with (content ++ [93%N]).
    apply removelast_last.
Qed.

Lemma last_hd_error_rev (s : jsstring) (d : N) :
  s <> [] -> hd_error (rev s) = Some (last s d).
Proof.
  intros Hs. destruct (@exists_last _ s Hs) as (s' & z & ->).
  rewrite rev_app_distr, last_last. reflexivity.
Qed.

(** The HTTP and URL sections of a well-formed line are accepted. *)
Lemma head_sections_accepts (method url : jsstring) :
  method = js "GET" \/ method = js "POST" ->
  startsWith (js "http://") url || startsWith (js "https://") url = true ->
  8 < length url ->
  ~ In SPACE url ->
  isWhiteSpace (last url 0%N) = false ->
  head_sections (js "HTTP " ++ method) (js "URL " ++ url) = Ok (method, url).
Proof.
  intros Hm Hscheme Hlen Hsp Hlast.
  assert (Hne : url <> []) by (intros ->; simpl in Hlen; lia).
  assert (Htu : trim (js "URL " ++ url) = js "URL " ++ url).
  { apply (trim_id (js "URL " ++ url) 85%N (last url 0%N)); try reflexivity.
    - rewrite rev_app_distr, hd_error_app.
      + apply last_hd_error_rev. exact Hne.
      + destruct url; [contradiction|]. cbn [rev]. intros H.
        apply app_eq_nil in H as [_ H]. discriminate H.
    - exact Hlast. }
  assert (Hth : trim (js "HTTP " ++ method) = js "HTTP " ++ method)
    by (destruct Hm as [-> | ->]; reflexivity).
  assert (Hdh : has_double_space (js "HTTP " ++ method) = false)
    by (destruct Hm as [-> | ->]; reflexivity).
  assert (Hdu : has_double_space (js "URL " ++ url) = false)
    by (exact (has_double_space_keyword (js "URL") url URL_no_space Hsp)).
  assert (Hmu : not_upper method = Ok false)
    by (destruct Hm as [-> | ->]; reflexivity).
  assert (Hms : includes (js " ") method = false)
    by (destruct Hm as [-> | ->]; reflexivity).
  assert (Hmv : negb (str_eqb method (js "GET")) && negb (str_eqb method (js "POST"))
                = false)
    by (destruct Hm as [-> | ->]; reflexivity).
  assert (Hme : isEmpty method = false)
    by (destruct Hm as [-> | ->]; reflexivity).
  destruct (keyword_before_space (js "HTTP") method HTTP_no_space) as (Hi & Hk & Hv).
  destruct (keyword_before_space (js "URL") url URL_no_space) as (Hi' & Hk' & Hv').
  unfold head_sections. rewrite Hth, Htu.
  rewrite (startsWith_app (js "HTTP ") method), (startsWith_app (js "URL ") url).
  rewrite Hdh, Hdu.
  change (js "HTTP " ++ method) with (js "HTTP" ++ SPACE :: method).
  change (js "URL " ++ url) with (js "URL" ++ SPACE :: url).
  rewrite Hi, Hk, Hv, Hi', Hk', Hv'.
  change (isEmpty (js "HTTP" ++ SPACE :: method)) with false.
  change (isEmpty (js "URL" ++ SPACE :: url)) with false.
  rewrite !str_eqb_refl, Hme, Hms, Hmu, Hmv.
  cbn [negb orb andb throwIf bind].
  rewrite (proj2 (includes_space url) Hsp), Hscheme.
  replace (8 <? length url) with true by (symmetry; apply Nat.ltb_lt; exact Hlen).
  destruct url; [contradiction|]. reflexivity.
Qed.

Lemma clean_keyword_value (kw value : jsstring) :
  kw <> [] -> ~ In SPACE kw -> ~ In PIPE kw ->
  value <> [] -> ~ In SPACE value -> ~ In PIPE value ->
  clean (kw ++ SPACE :: value).
Proof.
  intros Hk Hks Hkp Hv Hvs Hvp. constructor.
  - destruct kw; discriminate.
  - intros H. apply in_app_or in H as [H | [H | H]]; [contradiction|discriminate|contradiction].
  - destruct kw as [|c kw]; [contradiction|]. cbn [app hd_error is_char].
    apply N.eqb_neq. intros ->. apply Hks. left; reflexivity.
  - rewrite rev_app_distr. cbn [rev]. rewrite <- app_assoc.
    rewrite hd_error_app.
    + rewrite (last_hd_error_rev value 0%N Hv). cbn [is_char].
      apply N.eqb_neq. intros E. apply Hvs. rewrite <- E.
      destruct (@exists_last _ value Hv) as (v' & z & ->).
      rewrite last_last. apply in_or_app. right; left; reflexivity.
    + destruct value; [contradiction|]. cbn [rev]. intros H.
      apply app_eq_nil in H as [_ H]. discriminate H.
Qed.

(** A line of the two mandatory sections passes the checks of lines 8-69
    and splits into the two. *)
Lemma lex_two_sections (method url : jsstring) :
  method = js "GET" \/ method = js "POST" ->
  8 < length url ->
  ~ In SPACE url ->
  ~ In PIPE url ->
  isWhiteSpace (last url 0%N) = false ->
  lex (Str (js "[HTTP " ++ method ++ js " | URL " ++ url ++ js "]"))
  = Ok [js "HTTP " ++ method; js "URL " ++ url].
Proof.
  intros Hm Hlen Hsp Hpipe Hlast.
  assert (Hne : url <> []) by (intros ->; simpl in Hlen; lia).
  set (parts := [js "HTTP " ++ method; js "URL " ++ url]).
  assert (Hline : js "[HTTP " ++ method ++ js " | URL " ++ url ++ js "]"
                  = js "[" ++ join SEP parts ++ js "]").
  { unfold parts. cbn [join]. rewrite <- !app_assoc. reflexivity. }
  assert (Hclean : Forall clean parts).
  { unfold parts. apply Forall_cons; [|apply Forall_cons; [|apply Forall_nil]].
    - destruct Hm as [-> | ->]; constructor;
        solve [discriminate | vm_compute; intuition discriminate | reflexivity].
    - apply (clean_keyword_value (js "URL") url); auto.
      + discriminate.
      + exact URL_no_space.
      + vm_compute. intuition discriminate. }
  destruct (bracketed (join SEP parts)) as (Hopen & Hclose & Hslice).
  assert (Htrim : trim (join SEP parts) = join SEP parts).
  { apply (trim_id (join SEP parts) 72%N (last url 0%N)); try reflexivity.
    - change parts with ([] ++ [js "HTTP " ++ method] ++ [js "URL " ++ url]).
      rewrite app_assoc, hd_error_rev_join by discriminate.
      rewrite rev_app_distr, hd_error_app.
      + apply last_hd_error_rev. exact Hne.
      + destruct url; [contradiction|]. cbn [rev]. intros H.
        apply app_eq_nil in H as [_ H]. discriminate H.
    - exact Hlast. }
  rewrite Hline.
  apply lex_content;
    [ exact Hopen | exact Hclose | rewrite Hslice; exact Htrim
    | unfold parts; simpl; lia | exact Hclean ].
Qed.

(* ================================================================= *)
(** ** The line with two sections (C1) *)

(** C1, amended.  For [M] either [GET] or [POST] and [U] starting with
    [http://] or [https://], longer than 8, without space, without pipe
    and not ending in white space, the line [[HTTP M | URL U]] compiles:
    [method] is [M], [url] and [fullUrl] are [U], and [query], [body] and
    [headers] are the empty object. *)
Theorem minimal_line (method url : jsstring) :
  method = js "GET" \/ method = js "POST" ->
  startsWith (js "http://") url || startsWith (js "https://") url = true ->
  8 < length url ->
  ~ In SPACE url ->
  ~ In PIPE url ->
  isWhiteSpace (last url 0%N) = false ->
  compile (Str (js "[HTTP " ++ method ++ js " | URL " ++ url ++ js "]"))
  = Ok (mkCompiled method url
          (mkRequest (JObject []) (JObject []) (JObject []) url)).
Proof.
  intros Hm Hscheme Hlen Hsp Hpipe Hlast.
  unfold compile.
  rewrite (lex_two_sections method url Hm Hlen Hsp Hpipe Hlast). cbn [bind].
  unfold build.
  rewrite (head_sections_accepts method url Hm Hscheme Hlen Hsp Hlast).
  reflexivity.
Qed.

Lemma minimal_line_witness :
  compile (Str (js "[HTTP POST | URL http://a.io/b]"))
  = Ok (mkCompiled (js "POST") (js "http://a.io/b")
          (mkRequest (JObject []) (JObject []) (JObject []) (js "http://a.io/b"))).
Proof.
  refine (minimal_line (js "POST") (js "http://a.io/b")
            (or_intror eq_refl) eq_refl _ _ _ eq_refl).
  - vm_compute. lia.
  - vm_compute. intuition discriminate.
  - vm_compute. intuition discriminate.
Defined.

(** The claim as stated fails for a URL with a space, for one with a
    pipe, and for one that ends in white space (here a tab), which the
    trimming removes. *)
Lemma minimal_line_counterexample :
  compile (Str (js "[HTTP GET | URL https://a.com/x y]"))
  = Throw (mkAppError (Catalog MULTIPLE_SPACES_FOUND) 400) /\
  compile (Str (js "[HTTP GET | URL https://a.com/x|y]"))
  = Throw (mkAppError (Catalog INVALID_SPACING_AROUND_PIPE) 400) /\
  compile (Str (js "[HTTP GET | URL " ++ (js "https://a.com/x" ++ [9%N]) ++ js "]"))
  = Ok (mkCompiled (js "GET") (js "https://a.com/x")
          (mkRequest (JObject []) (JObject []) (JObject []) (js "https://a.com/x"))) /\
  startsWith (js "https://") (js "https://a.com/x y") = true /\
  8 < length (js "https://a.com/x y").
Proof. repeat split. vm_compute. lia. Qed.

(* ================================================================= *)
(** ** Compiling [fullUrl] again (C7) *)

(** Decide the comparisons of a code unit with constants, one at a
    time, from the bounds in the context. *)
Ltac decide_comparisons :=
  repeat match goal with
         | |- context [(?a <=? ?b)%N] =>
             first [ replace (a <=? b)%N with false
                       by (symmetry; apply N.leb_gt; lia)
                   | replace (a <=? b)%N with true
                       by (symmetry; apply N.leb_le; lia) ]
         | |- context [(?a =? ?b)%N] =>
             replace (a =? b)%N with false by (symmetry; apply N.eqb_neq; lia)
         end.

Lemma printable_not_white (c : N) : printable c -> isWhiteSpace c = false.
Proof.
  unfold printable, isWhiteSpace. intros [Hlo Hhi].
  decide_comparisons. reflexivity.
Qed.

Lemma isUnreserved_printable (c : N) : isUnreserved c = true -> printable c.
Proof.
  unfold printable. intros H.
  destruct (N.le_gt_cases 33 c) as [Hlo|Hlo];
    [destruct (N.le_gt_cases c 126) as [Hhi|Hhi]; [split; assumption|] |];
    exfalso; revert H; unfold isUnreserved, isDigit;
    decide_comparisons; discriminate.
Qed.

Lemma hexDigit_printable (n : N) : printable (hexDigit (n mod 16)).
Proof.
  unfold hexDigit, printable.
  pose proof (N.mod_upper_bound n 16 ltac:(discriminate)) as Hb.
  generalize dependent (n mod 16)%N. intros m Hb.
  destruct (N.ltb_spec m 10); lia.
Qed.

Lemma percentEncode_printable (cp : N) : Forall printable (percentEncode cp).
Proof.
  unfold percentEncode. induction (utf8 cp) as [|b l IH]; [constructor|].
  cbn [map concat]. apply Forall_app. split; [|exact IH].
  unfold percent.
  apply Forall_cons; [unfold printable; lia|].
  apply Forall_cons; [apply hexDigit_printable|].
  apply Forall_cons; [apply hexDigit_printable|apply Forall_nil].
Qed.

(** What [encodeURIComponent] returns has printable ASCII only. *)
Lemma encodeURIComponent_printable (s e : jsstring) :
  encodeURIComponent s = Some e -> Forall printable e.
Proof.
  assert (H : forall n s e, length s <= n -> encodeURIComponent s = Some e ->
                            Forall printable e).
  { clear. induction n as [|n IH]; intros s e Hlen H.
    - destruct s; [|simpl in Hlen; lia]. inversion H. constructor.
    - destruct s as [|c r]; [inversion H; constructor|].
      cbn [encodeURIComponent] in H. cbn [length] in Hlen.
      destruct (isUnreserved c) eqn:Eu.
      { destruct (encodeURIComponent r) as [e'|] eqn:Er; [|discriminate].
        inversion H; subst e. constructor.
        - apply isUnreserved_printable. exact Eu.
        - apply (IH r e'); [lia|exact Er]. }
      destruct (isLeadSurrogate c).
      { destruct r as [|d r']; [discriminate|].
        destruct (isTrailSurrogate d); [|discriminate].
        destruct (encodeURIComponent r') as [e'|] eqn:Er; [|discriminate].
        inversion H; subst e. apply Forall_app. split.
        - apply percentEncode_printable.
        - apply (IH r' e'); [cbn [length] in Hlen; lia|exact Er]. }
      destruct (isTrailSurrogate c); [discriminate|].
      destruct (encodeURIComponent r) as [e'|] eqn:Er; [|discriminate].
      inversion H; subst e. apply Forall_app. split.
      + apply percentEncode_printable.
      + apply (IH r e'); [lia|exact Er]. }
  intros He. exact (H (length s) s e (le_n _) He).
Qed.

Lemma startsWith_app_r (p s r : jsstring) :
  startsWith p s = true -> startsWith p (s ++ r) = true.
Proof.
  intros H. apply startsWith_inv in H as [t ->]. rewrite <- app_assoc.
  apply startsWith_app.
Qed.

Lemma last_app_nonempty (a b : jsstring) (d : N) :
  b <> [] -> last (a ++ b) d = last b d.
Proof.
  intros Hb. destruct (@exists_last _ b Hb) as (b' & z & ->).
  rewrite app_assoc, !last_last. reflexivity.
Qed.

(** The last code unit of a pair of the query string is [=] or comes from
    [encodeURIComponent]. *)
Lemma pair_encoded_last (kv : jsstring * JSValue) (part : jsstring) :
  pair_encoded kv part -> part <> [] /\ printable (last part 0%N).
Proof.
  intros (s & e & _ & He & ->). split.
  - destruct (fst kv); discriminate.
  - rewrite last_app_nonempty by discriminate.
    destruct (@exists_last _ (js "=" ++ e)) as (b & z & Hb); [discriminate|].
    rewrite Hb, last_last.
    assert (HF : Forall printable (js "=" ++ e)).
    { constructor; [split; vm_compute; discriminate|].
      exact (encodeURIComponent_printable s e He). }
    rewrite Hb in HF. apply Forall_app in HF as [_ HF].
    apply Forall_inv in HF. exact HF.
Qed.

Lemma join_last (sep : jsstring) (parts : list jsstring) (p : jsstring) (d : N) :
  p <> [] -> last (join sep (parts ++ [p])) d = last p d.
Proof.
  intros Hp. destruct parts as [|q parts]; [reflexivity|].
  rewrite join_snoc by discriminate.
  rewrite app_assoc. apply last_app_nonempty. exact Hp.
Qed.

(** The URL of a successful run does not end in white space. *)
Lemma compile_url_shape (reqline : Input) (c : Compiled) :
  compile reqline = Ok c ->
  (startsWith (js "http://") (c_url c) || startsWith (js "https://") (c_url c) = true) /\
  8 < length (c_url c) /\
  isWhiteSpace (last (c_url c) 0%N) = false.
Proof.
  intros H. apply compile_Ok_inv in H as (parts & _ & Hb).
  destruct parts as [|httpPart [|urlPart rest]]; try discriminate Hb.
  apply build_Ok_inv in Hb as (st & Hh & _).
  apply head_sections_Ok_inv in Hh. destruct Hh as [_ Hu _ _ _ _ Hscheme Hlen].
  repeat split; auto.
  assert (Hne : c_url c <> []) by (intros E; rewrite E in Hlen; simpl in Hlen; lia).
  destruct (@exists_last _ (c_url c) Hne) as (u' & z & Hz).
  rewrite Hz, last_last. apply (trim_last urlPart (js "URL " ++ u') z).
  rewrite Hu, Hz, app_assoc. reflexivity.
Qed.

(** The same for [fullUrl]. *)
Lemma compile_fullUrl_shape (reqline : Input) (c : Compiled) :
  compile reqline = Ok c ->
  (startsWith (js "http://") (fullUrl (c_request c))
   || startsWith (js "https://") (fullUrl (c_request c)) = true) /\
  8 < length (fullUrl (c_request c)) /\
  isWhiteSpace (last (fullUrl (c_request c)) 0%N) = false.
Proof.
  intros H. destruct (compile_url_shape _ _ H) as (Hscheme & Hlen & Hlast).
  destruct (compile_fullUrl _ _ H) as (props & queryParts & _ & HF & ->).
  destruct props as [|kv props]; [repeat split; assumption|].
  set (mark := if includes (js "?") (c_url c) then js "&" else js "?").
  repeat split.
  - apply orb_true_iff in Hscheme as [Hs|Hs];
      rewrite (startsWith_app_r _ _ _ Hs); [reflexivity|apply orb_true_r].
  - rewrite length_app. lia.
  - pose proof (Forall2_length HF) as Hl. rewrite own_entries_length in Hl.
    destruct (@exists_last _ queryParts) as (qs & q & ->).
    { intros ->. discriminate Hl. }
    assert (Hq : q <> [] /\ printable (last q 0%N)).
    { apply Forall2_app_inv_r in HF as (l1 & l2 & _ & Hq & _).
      inversion Hq as [|kv' q' l2' nil' Hpair Hnil]; subst.
      exact (pair_encoded_last _ _ Hpair). }
    destruct Hq as [Hq Hpr].
    assert (Hj : join (js "&") (qs ++ [q]) <> []).
    { intros E. apply (f_equal (fun l => last l 0%N)) in E.
      rewrite (join_last _ _ _ _ Hq) in E. cbn [last] in E.
      rewrite E in Hpr. unfold printable in Hpr. lia. }
    rewrite app_assoc, last_app_nonempty by exact Hj.
    rewrite (join_last _ _ _ _ Hq). apply printable_not_white. exact Hpr.
Qed.

(** C7, amended.  When a line compiles and its [fullUrl] [F] has no space
    and no pipe, the line [[HTTP GET | URL F]] compiles, with [url] and
    [fullUrl] both [F] and an empty [query]: nothing is appended a second
    time. *)
Theorem fullUrl_recompiles (reqline : Input) (c : Compiled) :
  compile reqline = Ok c ->
  ~ In SPACE (fullUrl (c_request c)) ->
  ~ In PIPE (fullUrl (c_request c)) ->
  compile (Str (js "[HTTP GET | URL " ++ fullUrl (c_request c) ++ js "]"))
  = Ok (mkCompiled (js "GET") (fullUrl (c_request c))
          (mkRequest (JObject []) (JObject []) (JObject [])
                     (fullUrl (c_request c)))).
Proof.
  intros H Hsp Hpipe.
  destruct (compile_fullUrl_shape _ _ H) as (Hscheme & Hlen & Hlast).
  unfold compile.
  change (js "[HTTP GET | URL " ++ fullUrl (c_request c) ++ js "]")
    with (js "[HTTP " ++ js "GET" ++ js " | URL " ++ fullUrl (c_request c) ++ js "]").
  rewrite (lex_two_sections (js "GET") (fullUrl (c_request c))
             (or_introl eq_refl) Hlen Hsp Hpipe Hlast).
  cbn [bind]. unfold build.
  rewrite (head_sections_accepts (js "GET") (fullUrl (c_request c))
             (or_introl eq_refl) Hscheme Hlen Hsp Hlast).
  reflexivity.
Qed.

Lemma fullUrl_recompiles_witness :
  compile (Str (js "[HTTP GET | URL " ++ js "https://api.test/x?a=b%20c" ++ js "]"))
  = Ok (mkCompiled (js "GET") (js "https://api.test/x?a=b%20c")
          (mkRequest (JObject []) (JObject []) (JObject [])
                     (js "https://api.test/x?a=b%20c"))).
Proof.
  refine (fullUrl_recompiles
            (Str (jsq "[HTTP POST | URL https://api.test/x | QUERY {'a':'b c'}]"))
            _ eq_refl _ _).
  - vm_compute. intuition discriminate.
  - vm_compute. intuition discriminate.
Defined.

(** The claim as stated fails: a key goes into [fullUrl] as it is, so
    [fullUrl] can have a space or a pipe, and the second line is then
    rejected. *)
Lemma fullUrl_recompiles_counterexample :
  (exists c, compile spaced_key_line = Ok c /\
             fullUrl (c_request c) = js "https://api.test/x?a b=1" /\
             compile (Str (js "[HTTP GET | URL " ++ fullUrl (c_request c) ++ js "]"))
             = Throw (mkAppError (Catalog MULTIPLE_SPACES_FOUND) 400)) /\
  (exists c, compile pipe_key_line = Ok c /\
             fullUrl (c_request c) = js "https://api.test/x?|=1" /\
             compile (Str (js "[HTTP GET | URL " ++ fullUrl (c_request c) ++ js "]"))
             = Throw (mkAppError (Catalog INVALID_SPACING_AROUND_PIPE) 400)).
Proof.
  split; eexists; (split; [reflexivity|]); split; reflexivity.
Qed.

(* ================================================================= *)
(** ** The order of the optional sections (C4) *)

Lemma same_state_refl (st : State) : same_state st st.
Proof. constructor; reflexivity. Qed.

Lemma same_state_trans (a b c : State) :
  same_state a b -> same_state b c -> same_state a c.
Proof.
  intros [H1 H2 H3] [H1' H2' H3'].
  constructor; [congruence | congruence | intros k; rewrite H3; apply H3'].
Qed.

Lemma same_state_apply (eff : effect) (k : jsstring) (st st' : State) :
  same_state st st' ->
  same_state (apply_effect eff (mark k st)) (apply_effect eff (mark k st')).
Proof.
  intros [Hr Hf Hp]. constructor.
  - destruct eff; cbn [apply_effect mark st_request st_fullUrl];
      try (destruct (negb (isEmpty queryString)); cbn [st_request]);
      rewrite ?Hr, ?Hf; reflexivity.
  - destruct eff; cbn [apply_effect mark st_request st_fullUrl];
      try (destruct (negb (isEmpty queryString)); cbn [st_fullUrl]);
      rewrite ?Hr, ?Hf; reflexivity.
  - intros k'. unfold processed. rewrite !apply_effect_processed.
    cbn [mark st_processed existsb]. f_equal. apply Hp.
Qed.

(** A step from two such states ends in two such states. *)
Lemma optional_section_same (st st' st1 : State) (part : jsstring) :
  same_state st st' ->
  optional_section st part = Ok st1 ->
  exists st1', optional_section st' part = Ok st1' /\ same_state st1 st1'.
Proof.
  intros Hs H.
  apply optional_section_Ok_inv in H as (k & v & eff & Hsec & Hnew & Heff & ->).
  exists (apply_effect eff (mark k st')). split.
  - rewrite (optional_section_eq st' _ _ _ Hsec).
    fold (processed k st'). rewrite <- (ss_processed _ _ Hs k).
    fold (processed k st) in Hnew. rewrite Hnew, Heff. reflexivity.
  - apply same_state_apply. exact Hs.
Qed.

Lemma foldM_same (rest : list jsstring) (st st' st1 : State) :
  same_state st st' ->
  foldM optional_section st rest = Ok st1 ->
  exists st1', foldM optional_section st' rest = Ok st1' /\ same_state st1 st1'.
Proof.
  revert st st'. induction rest as [|p rest IH]; intros st st' Hs H; simpl in H.
  - inversion H; subst. exists st'. split; [reflexivity|exact Hs].
  - apply bind_Ok_inv in H as (sa & Ha & H).
    destruct (optional_section_same _ _ _ _ Hs Ha) as (sa' & Ha' & Hs').
    destruct (IH _ _ Hs' H) as (st1' & H' & Hs1).
    exists st1'. split; [|exact Hs1]. simpl. rewrite Ha'. exact H'.
Qed.

(** Sections with different keywords write different fields. *)
Lemma effects_commute (ka va kb vb : jsstring) (ea eb : effect) (st : State) :
  decodes ka va ea -> decodes kb vb eb -> ka <> kb ->
  same_state (apply_effect eb (mark kb (apply_effect ea (mark ka st))))
             (apply_effect ea (mark ka (apply_effect eb (mark kb st)))).
Proof.
  intros Ha Hb Hne.
  assert (Hp : forall k,
            processed k (apply_effect eb (mark kb (apply_effect ea (mark ka st))))
            = processed k (apply_effect ea (mark ka (apply_effect eb (mark kb st))))).
  { intros k. unfold processed. rewrite !apply_effect_processed.
    cbn [mark st_processed]. rewrite !apply_effect_processed.
    cbn [mark st_processed existsb].
    destruct (str_eqb k ka), (str_eqb k kb); reflexivity. }
  destruct Ha, Hb; try (destruct Hne; reflexivity); constructor; try exact Hp;
    cbn [apply_effect mark st_request st_fullUrl query body headers fullUrl];
    repeat match goal with
           | |- context [if ?c then _ else _] => destruct c
           end; reflexivity.
Qed.

(** Two successive steps can be taken in the other order. *)
Lemma optional_section_swap (st st1 st2 : State) (a b : jsstring) :
  optional_section st a = Ok st1 ->
  optional_section st1 b = Ok st2 ->
  exists st1' st2',
    optional_section st b = Ok st1' /\
    optional_section st1' a = Ok st2' /\
    same_state st2 st2'.
Proof.
  intros Ha Hb.
  apply optional_section_Ok_inv in Ha as (ka & va & ea & Hsa & Hna & Hea & ->).
  apply optional_section_Ok_inv in Hb as (kb & vb & eb & Hsb & Hnb & Heb & ->).
  fold (processed ka st) in Hna.
  fold (processed kb (apply_effect ea (mark ka st))) in Hnb.
  unfold processed in Hnb. rewrite apply_effect_processed in Hnb.
  cbn [mark st_processed existsb] in Hnb.
  apply orb_false_iff in Hnb as [Hne Hnb]. apply str_eqb_neq in Hne.
  exists (apply_effect eb (mark kb st)),
         (apply_effect ea (mark ka (apply_effect eb (mark kb st)))).
  split; [|split].
  - rewrite (optional_section_eq st _ _ _ Hsb). rewrite Hnb, Heb. reflexivity.
  - rewrite (optional_section_eq _ _ _ _ Hsa). rewrite apply_effect_processed.
    cbn [mark st_processed existsb].
    replace (str_eqb ka kb) with false
      by (symmetry; apply str_eqb_neq; congruence).
    fold (processed ka st). rewrite Hna, Hea. reflexivity.
  - apply effects_commute with (va := va) (vb := vb); auto using effect_of_Ok_inv.
Qed.

(** The loop over a permutation of the sections ends in the same request. *)
Lemma foldM_permutation (l1 l2 : list jsstring) :
  Permutation l1 l2 ->
  forall st st' st1,
    same_state st st' ->
    foldM optional_section st l1 = Ok st1 ->
    exists st2, foldM optional_section st' l2 = Ok st2 /\ same_state st1 st2.
Proof.
  induction 1 as [|x l l' _ IH|x y l|l l' l'' _ IH1 _ IH2];
    intros st st' st1 Hs H.
  - exact (foldM_same [] st st' st1 Hs H).
  - simpl in H. apply bind_Ok_inv in H as (sa & Ha & H).
    destruct (optional_section_same _ _ _ _ Hs Ha) as (sa' & Ha' & Hs').
    destruct (IH _ _ _ Hs' H) as (st2 & H' & Hs2).
    exists st2. split; [|exact Hs2]. simpl. rewrite Ha'. exact H'.
  - simpl in H. apply bind_Ok_inv in H as (sa & Ha & H).
    apply bind_Ok_inv in H as (sb & Hb & H).
    destruct (optional_section_swap _ _ _ _ _ Ha Hb) as (ta & tb & Hta & Htb & Hsw).
    destruct (optional_section_same _ _ _ _ Hs Hta) as (ta' & Hta' & Hsa').
    destruct (optional_section_same _ _ _ _ Hsa' Htb) as (tb' & Htb' & Hsb').
    destruct (foldM_same l sb tb' st1 (same_state_trans _ _ _ Hsw Hsb') H)
      as (st2 & H' & Hs2).
    exists st2. split; [|exact Hs2]. simpl. rewrite Hta'. simpl. rewrite Htb'.
    exact H'.
  - destruct (IH1 _ _ _ Hs H) as (sm & Hm & Hsm).
    destruct (IH2 _ _ _ (same_state_refl st') Hm) as (st2 & H2 & Hs2).
    exists st2. split; [exact H2|]. exact (same_state_trans _ _ _ Hsm Hs2).
Qed.

(* ----------------------------------------------------------------- *)
(** *** What the split returns *)

Lemma startsWith_short (p x r : jsstring) :
  length p <= length x -> startsWith p (x ++ r) = startsWith p x.
Proof.
  revert x. induction p as [|c p IH]; intros x Hlen; [reflexivity|].
  destruct x as [|d x]; [simpl in Hlen; lia|].
  cbn [app startsWith]. rewrite IH by (simpl in Hlen; lia). reflexivity.
Qed.

Lemma includes_here (sub s : jsstring) :
  startsWith sub s = true -> includes sub s = true.
Proof. intros H. destruct s; cbn [includes]; rewrite H; reflexivity. Qed.

Lemma includes_middle (sub x y : jsstring) :
  includes sub (x ++ sub ++ y) = true.
Proof.
  induction x as [|c x IH].
  - cbn [app]. apply includes_here. apply startsWith_app.
  - cbn [app includes]. rewrite IH. apply orb_true_r.
Qed.

Lemma includes_app_r (sub s r : jsstring) :
  includes sub s = true -> includes sub (s ++ r) = true.
Proof.
  intros H. apply includes_inv in H as (x & y & ->).
  rewrite <- !app_assoc. apply includes_middle.
Qed.

Lemma split_facts (n : nat) :
  forall s, length s <= n ->
            join SEP (split SEP s) = s /\ split_inv (split SEP s).
Proof.
  induction n as [|n IH]; intros s Hlen.
  - destruct s; [|simpl in Hlen; lia]. split; reflexivity.
  - destruct s as [|c s]; [split; reflexivity|].
    destruct (startsWith SEP (c :: s)) eqn:E.
    + destruct (startsWith_inv _ _ E) as [r Hr]. rewrite Hr.
      rewrite split_SEP_match.
      assert (Hr_len : length r <= n).
      { apply (f_equal (@length N)) in Hr. rewrite length_app in Hr.
        simpl in Hr, Hlen. lia. }
      destruct (IH r Hr_len) as [Hj Hi].
      destruct (split SEP r) as [|q qs] eqn:Eq.
      { destruct (split_go_nonempty _ _ _ Eq). }
      split.
      * rewrite join_cons2, Hj. reflexivity.
      * split; [reflexivity|exact Hi].
    + destruct (split_nomatch c s E) as (p & ps & Hp & ->).
      destruct (IH s ltac:(simpl in Hlen; lia)) as [Hj Hi].
      rewrite Hp in Hj, Hi. split.
      * destruct ps as [|q qs]; [cbn in Hj |- *; congruence|].
        rewrite join_cons2 in Hj |- *. cbn [app]. congruence.
      * destruct ps as [|q qs].
        -- cbn in Hj. subst p. cbn [split_inv] in Hi |- *.
           cbn [includes]. rewrite E, Hi. reflexivity.
        -- destruct Hi as [Hi1 Hi2]. split; [|exact Hi2].
           cbn [app includes]. rewrite Hi1, orb_false_r.
           rewrite join_cons2 in Hj. rewrite <- Hj in E.
           change (SEP ++ join SEP (q :: qs))
             with ([SPACE; PIPE] ++ SPACE :: join SEP (q :: qs)) in E.
           rewrite app_assoc in E. change (c :: (p ++ [SPACE; PIPE]) ++ SPACE :: join SEP (q :: qs))
             with ((c :: p ++ [SPACE; PIPE]) ++ SPACE :: join SEP (q :: qs)) in E.
           rewrite startsWith_short in E; [exact E|].
           cbn [length]. rewrite length_app. simpl. lia.
Qed.

Lemma join_split (s : jsstring) : join SEP (split SEP s) = s.
Proof. exact (proj1 (split_facts (length s) s (le_n _))). Qed.

Lemma split_split_inv (s : jsstring) : split_inv (split SEP s).
Proof. exact (proj2 (split_facts (length s) s (le_n _))). Qed.

Lemma split_inv_at (ps1 ps2 : list jsstring) (p : jsstring) :
  split_inv (ps1 ++ p :: ps2) ->
  includes SEP p = false /\
  (ps2 <> [] -> includes SEP (p ++ [SPACE; PIPE]) = false).
Proof.
  induction ps1 as [|q ps1 IH]; intros H.
  - cbn [app] in H. destruct ps2 as [|p2 ps2].
    + split; [exact H|intros Hne; contradiction].
    + destruct H as [H _]. split; [|intros _; exact H].
      destruct (includes SEP p) eqn:E; [|reflexivity].
      rewrite (includes_app_r _ _ _ E) in H. discriminate.
  - apply IH. cbn [app] in H.
    destruct (ps1 ++ p :: ps2) eqn:E; [destruct ps1; discriminate|].
    exact (proj2 H).
Qed.

Lemma join_app (sep : jsstring) (l1 l2 : list jsstring) :
  l1 <> [] -> l2 <> [] ->
  join sep (l1 ++ l2) = join sep l1 ++ sep ++ join sep l2.
Proof.
  intros H1 H2. induction l1 as [|p [|q l1] IH]; [contradiction| |].
  - destruct l2 as [|r l2]; [contradiction|]. reflexivity.
  - change ((p :: q :: l1) ++ l2) with (p :: q :: l1 ++ l2).
    rewrite !join_cons2. change (q :: l1 ++ l2) with ((q :: l1) ++ l2).
    rewrite IH by discriminate. rewrite <- !app_assoc. reflexivity.
Qed.

Lemma join_around (ps1 ps2 : list jsstring) (p : jsstring) :
  join SEP (ps1 ++ p :: ps2) = before_part ps1 ++ p ++ after_part ps2.
Proof.
  assert (Hp : join SEP (p :: ps2) = p ++ after_part ps2).
  { destruct ps2; [cbn; rewrite app_nil_r; reflexivity|reflexivity]. }
  destruct ps1 as [|q ps1]; [exact Hp|].
  rewrite join_app by discriminate. rewrite Hp. cbn [before_part].
  rewrite <- !app_assoc. reflexivity.
Qed.

Lemma scan_pipes_false (s x y : jsstring) :
  scan_pipes s = false -> s = x ++ PIPE :: y ->
  one_space (rev x) = true /\ one_space y = true.
Proof.
  intros Hs E. apply andb_true_iff.
  destruct (one_space (rev x) && one_space y) eqn:Eo; [reflexivity|].
  assert (Hbad : scan_pipes s = true)
    by (apply scan_pipes_true; exists x, y; split; assumption).
  congruence.
Qed.

Lemma one_space_inv (r : jsstring) :
  one_space r = true ->
  exists r', r = SPACE :: r' /\ is_char SPACE (hd_error r') = false.
Proof.
  destruct r as [|c r']; [discriminate|]. cbn [one_space]. intros H.
  apply andb_true_iff in H as [Hc Hn]. apply N.eqb_eq in Hc. subst c.
  exists r'. split; [reflexivity|]. apply negb_true_iff. exact Hn.
Qed.

Lemma hd_error_rev_app (p r : jsstring) :
  p <> [] -> hd_error (rev (r ++ p)) = hd_error (rev p).
Proof.
  intros Hp. rewrite rev_app_distr. apply hd_error_app.
  destruct p; [contradiction|]. cbn [rev]. intros H.
  apply app_eq_nil in H as [_ H]. discriminate H.
Qed.

(** The sections of a line whose pipes are well spaced, that came out of
    the split, that do not start with a pipe, and whose line has no space
    at either end, are clean. *)
Lemma parts_clean (parts : list jsstring) :
  scan_pipes (join SEP parts) = false ->
  split_inv parts ->
  Forall starts_well parts ->
  is_char SPACE (hd_error (join SEP parts)) = false ->
  is_char SPACE (hd_error (rev (join SEP parts))) = false ->
  Forall clean parts.
Proof.
  intros Hscan Hinv Hwell Hfirst Hlast. apply Forall_forall. intros p Hin.
  destruct (in_split _ _ Hin) as (ps1 & ps2 & ->).
  pose proof (join_around ps1 ps2 p) as Hj.
  destruct (split_inv_at _ _ _ Hinv) as [Hi1 Hi2].
  apply Forall_app in Hwell as [_ Hwell]. apply Forall_inv in Hwell.
  destruct Hwell as [Hne Hhd].
  constructor.
  - exact Hne.
  - intros Hpipe. destruct (in_split _ _ Hpipe) as (a & b & Hp).
    destruct (scan_pipes_false _ (before_part ps1 ++ a) (b ++ after_part ps2) Hscan)
      as [Ho1 Ho2].
    { rewrite Hj, Hp, <- !app_assoc. reflexivity. }
    destruct a as [|a0 a].
    { rewrite Hp in Hhd. discriminate Hhd. }
    destruct (@exists_last _ (a0 :: a)) as (a' & c & Ha); [discriminate|].
    rewrite Ha in Ho1, Hp. rewrite app_assoc, rev_app_distr in Ho1.
    apply one_space_inv in Ho1 as (r1 & Hr1 & _). inversion Hr1; subst c.
    destruct b as [|d b].
    + cbn [app] in Ho2. destruct ps2 as [|q ps2]; [discriminate Ho2|].
      assert (Hbad : includes SEP (p ++ [SPACE; PIPE]) = true).
      { rewrite Hp, <- !app_assoc.
        change ([SPACE] ++ [PIPE] ++ [SPACE; PIPE]) with (SEP ++ [PIPE]).
        apply includes_middle. }
      rewrite Hi2 in Hbad by discriminate. discriminate.
    + cbn [app] in Ho2. apply one_space_inv in Ho2 as (r2 & Hr2 & _).
      inversion Hr2; subst d.
      assert (Hbad : includes SEP p = true).
      { rewrite Hp, <- !app_assoc.
        change ([SPACE] ++ PIPE :: SPACE :: b) with (SEP ++ b).
        apply includes_middle. }
      congruence.
  - destruct ps1 as [|q ps1].
    + rewrite Hj in Hfirst. cbn [before_part app] in Hfirst.
      rewrite hd_error_app in Hfirst by exact Hne. exact Hfirst.
    + destruct (scan_pipes_false _ (join SEP (q :: ps1) ++ [SPACE])
                  (SPACE :: p ++ after_part ps2) Hscan) as [_ Ho2].
      { rewrite Hj. cbn [before_part]. rewrite <- !app_assoc. reflexivity. }
      apply one_space_inv in Ho2 as (r2 & Hr2 & Hn). inversion Hr2; subst r2.
      rewrite hd_error_app in Hn by exact Hne. exact Hn.
  - destruct ps2 as [|q ps2].
    + rewrite Hj in Hlast. cbn [after_part] in Hlast. rewrite app_nil_r in Hlast.
      rewrite hd_error_rev_app in Hlast by exact Hne. exact Hlast.
    + destruct (scan_pipes_false _ (before_part ps1 ++ p ++ [SPACE])
                  (SPACE :: join SEP (q :: ps2)) Hscan) as [Ho1 _].
      { rewrite Hj. cbn [after_part]. rewrite <- !app_assoc. reflexivity. }
      rewrite app_assoc, rev_app_distr in Ho1. cbn [rev app] in Ho1.
      apply one_space_inv in Ho1 as (r1 & Hr1 & Hn). inversion Hr1; subst r1.
      rewrite hd_error_rev_app in Hn by exact Hne. exact Hn.
Qed.

Lemma lex_Ok_inv (line : jsstring) (parts : list jsstring) :
  lex (Str line) = Ok parts ->
  startsWith (js "[") line = true /\
  endsWith (js "]") line = true /\
  isEmpty (trim (slice_1_neg1 line)) = false /\
  scan_pipes (trim (slice_1_neg1 line)) = false /\
  parts = split SEP (trim (slice_1_neg1 line)) /\
  2 <= length parts.
Proof.
  unfold lex. intros H.
  ok_throwIf H H0. ok_throwIf H Hb. ok_throwIf H He.
  ok_throwIf H Hi1. ok_throwIf H Hi2. ok_throwIf H Hs. ok_throwIf H Hl.
  apply orb_false_iff in Hb as [Hopen Hclose].
  apply negb_false_iff in Hopen, Hclose.
  inversion H; subst parts. repeat split; auto.
  apply Nat.ltb_ge in Hl. exact Hl.
Qed.

Lemma trimStart_suffix (s : jsstring) : exists w, s = w ++ trimStart s.
Proof.
  induction s as [|c s [w IH]]; [exists []; reflexivity|].
  cbn [trimStart]. destruct (isWhiteSpace c).
  - exists (c :: w). cbn [app]. f_equal. exact IH.
  - exists []. reflexivity.
Qed.

(** A trimmed string does not start with white space. *)
Lemma trim_first (s r : jsstring) (a : N) :
  trim s = a :: r -> isWhiteSpace a = false.
Proof.
  unfold trim, trimEnd. intros H.
  destruct (trimStart_suffix (rev (trimStart s))) as [w Hw].
  apply (f_equal (@rev N)) in Hw. rewrite rev_involutive, rev_app_distr, H in Hw.
  cbn [app] in Hw. exact (trimStart_head _ _ _ Hw).
Qed.

Lemma trim_keeps_head (y : jsstring) (a : N) :
  isWhiteSpace a = false -> exists y', trim (a :: y) = a :: y'.
Proof.
  intros Ha. unfold trim. rewrite (trimStart_fixed _ _ Ha). unfold trimEnd.
  cbn [rev]. destruct (trimStart_snoc (rev y) a Ha) as [w ->].
  rewrite rev_app_distr. exists (rev w). reflexivity.
Qed.

Lemma starts_well_trim (p r : jsstring) (c : N) :
  trim p = c :: r -> c <> PIPE -> starts_well p.
Proof.
  intros Ht Hc. split.
  - intros ->. discriminate Ht.
  - destruct p as [|a p]; [reflexivity|]. cbn [hd_error is_char].
    apply N.eqb_neq. intros ->.
    destruct (trim_keeps_head p PIPE eq_refl) as [y' Hy].
    rewrite Hy in Ht. inversion Ht. congruence.
Qed.

(** The sections of a line that compiles are clean. *)
Lemma compiled_parts_clean (line : jsstring) (parts : list jsstring) (c : Compiled) :
  lex (Str line) = Ok parts -> build parts = Ok c -> Forall clean parts.
Proof.
  intros Hlex Hb.
  destruct (lex_Ok_inv _ _ Hlex) as (_ & _ & Hne & Hscan & Hparts & _).
  set (content := trim (slice_1_neg1 line)) in *.
  assert (Hj : join SEP parts = content) by (rewrite Hparts; apply join_split).
  apply parts_clean.
  - rewrite Hj. exact Hscan.
  - rewrite Hparts. apply split_split_inv.
  - destruct parts as [|httpPart [|urlPart rest]]; try discriminate Hb.
    apply build_Ok_inv in Hb as (st & Hh & Hf & _).
    apply head_sections_Ok_inv in Hh. destruct Hh as [Hth Htu _ _ _ _ _ _].
    apply Forall_cons; [|apply Forall_cons].
    + apply (starts_well_trim _ _ _ Hth). discriminate.
    + apply (starts_well_trim _ _ _ Htu). discriminate.
    + apply Forall_forall. intros p Hin.
      destruct (foldM_accepts _ _ _ Hf p Hin) as (k & v & [_ Ht Hk]).
      destruct Hk as [-> | [-> | ->]];
        apply (starts_well_trim _ _ _ Ht); discriminate.
  - rewrite Hj. destruct content as [|a r] eqn:E; [discriminate Hne|].
    cbn [hd_error is_char]. apply N.eqb_neq. intros ->.
    pose proof (trim_first _ _ _ E) as Hw. discriminate Hw.
  - rewrite Hj. destruct (@exists_last _ content) as (r & z & E).
    { intros E. rewrite E in Hne. discriminate Hne. }
    rewrite E, rev_app_distr. cbn [rev app hd_error is_char].
    apply N.eqb_neq. intros ->.
    pose proof (trim_last _ _ _ E) as Hw. discriminate Hw.
Qed.

(* ----------------------------------------------------------------- *)
(** *** Sections that differ in white space at their ends *)

Lemma trimStart_In (s : jsstring) (c : N) : In c (trimStart s) -> In c s.
Proof.
  destruct (trimStart_suffix s) as [w Hw]. intros H. rewrite Hw.
  apply in_or_app. right; exact H.
Qed.

Lemma trim_In (s : jsstring) (c : N) : In c (trim s) -> In c s.
Proof.
  unfold trim, trimEnd. intros H. apply in_rev in H.
  apply trimStart_In in H. apply in_rev in H. apply trimStart_In in H. exact H.
Qed.














(** The same for sections in a different order and no other difference. *)
Lemma sections_order_compile
      (line1 line2 httpPart urlPart : jsstring) (rest1 rest2 : list jsstring)
      (c : Compiled) :
  sections line1 = Some (httpPart :: urlPart :: rest1) ->
  sections line2 = Some (httpPart :: urlPart :: rest2) ->
  Permutation rest1 rest2 ->
  compile (Str line1) = Ok c ->
  compile (Str line2) = Ok c.
Proof.
  unfold sections. intros H1 H2 Hperm Hc.
  destruct (startsWith (js "[") line2 && endsWith (js "]") line2) eqn:Hbr2;
    [|discriminate H2].
  apply andb_true_iff in Hbr2 as [Hopen2 Hclose2]. inversion H2 as [Hs2]. clear H2.
  apply compile_Ok_inv in Hc as (parts1 & Hlex1 & Hb1).
  destruct (lex_Ok_inv _ _ Hlex1) as (Hopen1 & Hclose1 & _ & _ & Hp1 & _).
  rewrite Hopen1, Hclose1 in H1. inversion H1 as [Hs1]. clear H1.
  rewrite Hs1 in Hp1. subst parts1.
  pose proof (compiled_parts_clean _ _ _ Hlex1 Hb1) as Hclean1.
  assert (Hclean2 : Forall clean (httpPart :: urlPart :: rest2)).
  { refine (Permutation_Forall _ Hclean1).
    apply perm_skip, perm_skip. exact Hperm. }
  assert (Hlex2 : lex (Str line2) = Ok (httpPart :: urlPart :: rest2)).
  { apply lex_content; auto.
    - rewrite <- Hs2. symmetry. apply join_split.
    - simpl. lia. }
  unfold compile. rewrite Hlex2. cbn [bind].
  apply build_Ok_inv in Hb1 as (st1 & Hh & Hf & Hr).
  destruct (foldM_permutation _ _ Hperm _ _ _
              (same_state_refl (initial_state (c_url c))) Hf)
    as (st2 & Hf2 & Hsame).
  unfold build. rewrite Hh. cbn [bind]. rewrite Hf2. cbn [bind].
  rewrite <- (ss_request _ _ Hsame), <- Hr. destruct c; reflexivity.
Qed.



(* ================================================================= *)
(** ** The fuel of the JSON parser is enough *)

Lemma skip_ws_length (s : jsstring) : length (skip_ws s) <= length s.
Proof.
  induction s as [|c s IH]; [apply le_n|].
  cbn [skip_ws]. destruct (isJsonWs c); cbn [length]; lia.
Qed.

Lemma scan_string_length (s acc k r : jsstring) :
  scan_string s acc = Some (k, r) -> length r < length s.
Proof.
  assert (H : forall n s acc, length s <= n -> scan_string s acc = Some (k, r) ->
                              length r < length s).
  { clear. induction n as [|n IH]; intros s acc Hlen H.
    - destruct s; [discriminate H|simpl in Hlen; lia].
    - destruct s as [|c s]; [discriminate H|]. cbn [scan_string] in H.
      cbn [length] in Hlen |- *.
      destruct (c =? 34)%N; [inversion H; subst; lia|].
      destruct (c =? 92)%N.
      + destruct s as [|e s1]; [discriminate H|].
        destruct (e =? 117)%N.
        * destruct s1 as [|h1 [|h2 [|h3 [|h4 s2]]]]; try discriminate H.
          destruct (hex4 h1 h2 h3 h4); [|discriminate H].
          apply IH in H; cbn [length] in *; lia.
        * destruct (simpleEscape e); [|discriminate H].
          apply IH in H; cbn [length] in *; lia.
      + destruct (c <? 32)%N; [discriminate H|].
        apply IH in H; lia. }
  intros Hs. exact (H (length s) s acc (le_n _) Hs).
Qed.

Lemma span_digits_length (s : jsstring) :
  length (snd (span_digits s)) <= length s.
Proof.
  induction s as [|c s IH]; [apply le_n|]. cbn [span_digits].
  destruct (isDigit c); [|apply le_n].
  destruct (span_digits s) as [ds r]. cbn [snd length] in *. lia.
Qed.

Lemma scan_int_length (s i r : jsstring) :
  scan_int s = Some (i, r) -> length r < length s.
Proof.
  destruct s as [|c s]; [discriminate|]. cbn [scan_int length].
  destruct (c =? 48)%N; [intros H; inversion H; subst; lia|].
  destruct (isDigit c); [|discriminate].
  pose proof (span_digits_length s) as Hl.
  destruct (span_digits s) as [ds r']. intros H. inversion H; subst.
  cbn [snd] in Hl. lia.
Qed.

Lemma scan_frac_length (s f r : jsstring) :
  scan_frac s = Some (f, r) -> length r <= length s.
Proof.
  destruct s as [|c s]; [intros H; inversion H; apply le_n|].
  cbn [scan_frac length]. destruct (c =? 46)%N.
  - pose proof (span_digits_length s) as Hl.
    destruct (span_digits s) as [[|d ds] r']; [discriminate|].
    intros H. inversion H; subst. cbn [snd] in Hl. lia.
  - intros H. inversion H; subst. apply le_n.
Qed.

Lemma scan_exp_length (s e r : jsstring) :
  scan_exp s = Some (e, r) -> length r <= length s.
Proof.
  destruct s as [|c s]; [intros H; inversion H; apply le_n|].
  cbn [scan_exp length]. destruct ((c =? 101) || (c =? 69))%N.
  - destruct s as [|g s'].
    + cbn. discriminate.
    + destruct ((g =? 43) || (g =? 45))%N.
      * pose proof (span_digits_length s') as Hl.
        destruct (span_digits s') as [[|d ds] r']; [discriminate|].
        intros H. inversion H; subst. cbn [snd length] in *. lia.
      * pose proof (span_digits_length (g :: s')) as Hl.
        destruct (span_digits (g :: s')) as [[|d ds] r']; [discriminate|].
        intros H. inversion H; subst. cbn [snd length] in *. lia.
  - intros H. inversion H; subst. apply le_n.
Qed.

Lemma scan_number_length (s lit r : jsstring) :
  scan_number s = Some (lit, r) -> length r < length s.
Proof.
  unfold scan_number.
  assert (Hsign : forall s0 sign,
            (sign, s0) = match s with
                         | c :: r0 => if (c =? 45)%N then ([c], r0) else ([], s)
                         | [] => ([], s)
                         end -> length s0 <= length s).
  { intros s0 sign E. destruct s as [|c r0]; [inversion E; apply le_n|].
    destruct (c =? 45)%N; inversion E; subst; cbn [length]; lia. }
  destruct (match s with
            | c :: r0 => if (c =? 45)%N then ([c], r0) else ([], s)
            | [] => ([], s)
            end) as [sign s0] eqn:E.
  specialize (Hsign s0 sign eq_refl).
  destruct (scan_int s0) as [[i s1]|] eqn:Ei; [|discriminate].
  destruct (scan_frac s1) as [[f s2]|] eqn:Ef; [|discriminate].
  destruct (scan_exp s2) as [[e s3]|] eqn:Ee; [|discriminate].
  intros H. inversion H; subst.
  apply scan_int_length in Ei. apply scan_frac_length in Ef.
  apply scan_exp_length in Ee. lia.
Qed.

Lemma skipn_startsWith (p s : jsstring) :
  startsWith p s = true -> length (skipn (length p) s) + length p = length s.
Proof.
  intros H. apply startsWith_inv in H as [r ->].
  rewrite skipn_app, Nat.sub_diag, skipn_all. cbn [app skipn].
  rewrite length_app. lia.
Qed.

(** A value, the elements of an array and the members of an object each
    take at least one code unit. *)
Lemma parse_consumes (f : nat) :
  (forall s v r, parse_value f s = POk v r -> length r < length s) /\
  (forall s acc v r, parse_elements f s acc = POk v r -> length r < length s) /\
  (forall s acc v r, parse_members f s acc = POk v r -> length r < length s).
Proof.
  induction f as [|f (IHv & IHe & IHm)]; [repeat split; intros; discriminate|].
  split; [|split].
  - intros s v r H. cbn [parse_value] in H.
    pose proof (skip_ws_length s) as Hws.
    destruct (skip_ws s) as [|c t]; [discriminate H|]. cbn [length] in Hws.
    destruct (c =? 123)%N.
    { pose proof (skip_ws_length t) as Hws'.
      destruct (skip_ws t) as [|c' t']; [discriminate H|]. cbn [length] in Hws'.
      destruct (c' =? 125)%N; [inversion H; subst; lia|].
      apply IHm in H. cbn [length] in H. lia. }
    destruct (c =? 91)%N.
    { pose proof (skip_ws_length t) as Hws'.
      destruct (skip_ws t) as [|c' t']; [discriminate H|]. cbn [length] in Hws'.
      destruct (c' =? 93)%N; [inversion H; subst; lia|].
      apply IHe in H. cbn [length] in H. lia. }
    destruct (c =? 34)%N.
    { destruct (scan_string t []) as [[str r']|] eqn:Es; [|discriminate H].
      inversion H; subst. apply scan_string_length in Es. lia. }
    destruct (startsWith (js "true") (c :: t)) eqn:Et.
    { apply skipn_startsWith in Et. change (length (js "true")) with 4 in Et.
      set (r' := skipn 4 (c :: t)) in *. cbn [length] in Et.
      inversion H; subst. lia. }
    destruct (startsWith (js "false") (c :: t)) eqn:Ef.
    { apply skipn_startsWith in Ef. change (length (js "false")) with 5 in Ef.
      set (r' := skipn 5 (c :: t)) in *. cbn [length] in Ef.
      inversion H; subst. lia. }
    destruct (startsWith (js "null") (c :: t)) eqn:En.
    { apply skipn_startsWith in En. change (length (js "null")) with 4 in En.
      set (r' := skipn 4 (c :: t)) in *. cbn [length] in En.
      inversion H; subst. lia. }
    destruct (scan_number (c :: t)) as [[lit r']|] eqn:Enum; [|discriminate H].
    inversion H; subst. apply scan_number_length in Enum. cbn [length] in Enum. lia.
  - intros s acc v r H. cbn [parse_elements] in H.
    destruct (parse_value f s) as [v1 r1| |] eqn:Ev; try discriminate H.
    apply IHv in Ev. pose proof (skip_ws_length r1) as Hws.
    destruct (skip_ws r1) as [|c t]; [discriminate H|]. cbn [length] in Hws.
    destruct (c =? 44)%N; [apply IHe in H; lia|].
    destruct (c =? 93)%N; [inversion H; subst; lia|discriminate H].
  - intros s acc v r H. cbn [parse_members] in H.
    pose proof (skip_ws_length s) as Hws.
    destruct (skip_ws s) as [|c t]; [discriminate H|]. cbn [length] in Hws.
    destruct (c =? 34)%N; [|discriminate H].
    destruct (scan_string t []) as [[k r1]|] eqn:Es; [|discriminate H].
    apply scan_string_length in Es. pose proof (skip_ws_length r1) as Hws1.
    destruct (skip_ws r1) as [|c1 r2]; [discriminate H|]. cbn [length] in Hws1.
    destruct (c1 =? 58)%N; [|discriminate H].
    destruct (parse_value f r2) as [v1 r3| |] eqn:Ev; try discriminate H.
    apply IHv in Ev. pose proof (skip_ws_length r3) as Hws3.
    destruct (skip_ws r3) as [|c3 r4]; [discriminate H|]. cbn [length] in Hws3.
    destruct (c3 =? 44)%N; [apply IHm in H; lia|].
    destruct (c3 =? 125)%N; [inversion H; subst; lia|discriminate H].
Qed.

(** With fuel above twice the length of the text no call runs out. *)
Lemma parse_fuel_enough (f : nat) :
  (forall s, 2 * length s + 1 <= f -> parse_value f s <> PFuel) /\
  (forall s acc, 2 * length s + 2 <= f -> parse_elements f s acc <> PFuel) /\
  (forall s acc, 2 * length s + 2 <= f -> parse_members f s acc <> PFuel).
Proof.
  induction f as [|f (IHv & IHe & IHm)]; [repeat split; intros; lia|].
  destruct (parse_consumes f) as (Cv & _ & _).
  split; [|split].
  - intros s Hf. cbn [parse_value].
    pose proof (skip_ws_length s) as Hws.
    destruct (skip_ws s) as [|c t]; [discriminate|]. cbn [length] in Hws.
    destruct (c =? 123)%N.
    { pose proof (skip_ws_length t) as Hws'.
      destruct (skip_ws t) as [|c' t']; [discriminate|]. cbn [length] in Hws'.
      destruct (c' =? 125)%N; [discriminate|].
      apply IHm. cbn [length]. lia. }
    destruct (c =? 91)%N.
    { pose proof (skip_ws_length t) as Hws'.
      destruct (skip_ws t) as [|c' t']; [discriminate|]. cbn [length] in Hws'.
      destruct (c' =? 93)%N; [discriminate|].
      apply IHe. cbn [length]. lia. }
    destruct (c =? 34)%N.
    { destruct (scan_string t []) as [[str r']|]; discriminate. }
    destruct (startsWith (js "true") (c :: t)); [discriminate|].
    destruct (startsWith (js "false") (c :: t)); [discriminate|].
    destruct (startsWith (js "null") (c :: t)); [discriminate|].
    destruct (scan_number (c :: t)) as [[lit r']|]; discriminate.
  - intros s acc Hf. cbn [parse_elements].
    destruct (parse_value f s) as [v1 r1| |] eqn:Ev.
    + apply Cv in Ev. pose proof (skip_ws_length r1) as Hws.
      destruct (skip_ws r1) as [|c t]; [discriminate|]. cbn [length] in Hws.
      destruct (c =? 44)%N; [apply IHe; lia|].
      destruct (c =? 93)%N; discriminate.
    + discriminate.
    + exfalso. apply (IHv s); [lia|exact Ev].
  - intros s acc Hf. cbn [parse_members].
    pose proof (skip_ws_length s) as Hws.
    destruct (skip_ws s) as [|c t]; [discriminate|]. cbn [length] in Hws.
    destruct (c =? 34)%N; [|discriminate].
    destruct (scan_string t []) as [[k r1]|] eqn:Es; [|discriminate].
    apply scan_string_length in Es. pose proof (skip_ws_length r1) as Hws1.
    destruct (skip_ws r1) as [|c1 r2]; [discriminate|]. cbn [length] in Hws1.
    destruct (c1 =? 58)%N; [|discriminate].
    destruct (parse_value f r2) as [v1 r3| |] eqn:Ev.
    + apply Cv in Ev. pose proof (skip_ws_length r3) as Hws3.
      destruct (skip_ws r3) as [|c3 r4]; [discriminate|]. cbn [length] in Hws3.
      destruct (c3 =? 44)%N; [apply IHm; lia|].
      destruct (c3 =? 125)%N; discriminate.
    + discriminate.
    + exfalso. apply (IHv r2); [lia|exact Ev].
Qed.

(** [JSON_parse] never fails for lack of fuel: a text is parsed to a
    value or is not JSON. *)
Lemma JSON_parse_total (s : jsstring) :
  parse_value (json_fuel s) s <> PFuel.
Proof.
  apply (proj1 (parse_fuel_enough (json_fuel s))). unfold json_fuel. lia.
Qed.

(* ================================================================= *)
(** ** More on trimming *)

Lemma trimStart_blank_app (ws s : jsstring) :
  forallb isWhiteSpace ws = true -> trimStart (ws ++ s) = trimStart s.
Proof.
  induction ws as [|c ws IH]; intros H; [reflexivity|].
  cbn [forallb] in H. apply andb_true_iff in H as [Hc Hws].
  cbn [app trimStart]. rewrite Hc. exact (IH Hws).
Qed.

Lemma trimStart_nil (s : jsstring) :
  trimStart s = [] <-> forallb isWhiteSpace s = true.
Proof.
  induction s as [|c s IH]; [split; reflexivity|].
  cbn [trimStart forallb]. destruct (isWhiteSpace c); cbn [andb].
  - exact IH.
  - split; discriminate.
Qed.

Lemma trimStart_app_keep (s t : jsstring) :
  trimStart s <> [] -> trimStart (s ++ t) = trimStart s ++ t.
Proof.
  induction s as [|c s IH]; intros H; [contradiction|].
  cbn [app trimStart] in *. destruct (isWhiteSpace c); [exact (IH H)|reflexivity].
Qed.

Lemma forallb_rev (f : N -> bool) (l : jsstring) :
  forallb f (rev l) = forallb f l.
Proof.
  induction l as [|c l IH]; [reflexivity|].
  cbn [rev forallb]. rewrite forallb_app, IH. cbn [forallb].
  rewrite andb_true_r. apply andb_comm.
Qed.

Lemma trimEnd_app_blank (s ws : jsstring) :
  forallb isWhiteSpace ws = true -> trimEnd (s ++ ws) = trimEnd s.
Proof.
  intros H. unfold trimEnd. rewrite rev_app_distr, trimStart_blank_app; [reflexivity|].
  rewrite forallb_rev. exact H.
Qed.

(** White space around a string does not change its trimming. *)
Lemma trim_padded (ws1 s ws2 : jsstring) :
  forallb isWhiteSpace ws1 = true -> forallb isWhiteSpace ws2 = true ->
  trim (ws1 ++ s ++ ws2) = trim s.
Proof.
  intros H1 H2. unfold trim. rewrite (trimStart_blank_app ws1 _ H1).
  destruct (trimStart s) as [|c t] eqn:E.
  - apply trimStart_nil in E.
    assert (Hall : forallb isWhiteSpace (s ++ ws2) = true)
      by (rewrite forallb_app, E, H2; reflexivity).
    apply trimStart_nil in Hall. rewrite Hall. reflexivity.
  - rewrite trimStart_app_keep by (rewrite E; discriminate).
    rewrite E. apply trimEnd_app_blank. exact H2.
Qed.

Lemma trim_blank (ws : jsstring) :
  forallb isWhiteSpace ws = true -> trim ws = [].
Proof.
  intros H. unfold trim. apply trimStart_nil in H. rewrite H. reflexivity.
Qed.

(* ================================================================= *)
(** ** The errors of each stage *)

Ltac raises_now :=
  intros; split;
  [ reflexivity
  | eexists; split;
    [reflexivity | cbv [In lex_keys head_keys optional_keys]; tauto] ].

Lemma raises_incl (keys keys' : list message_key) (e : AppError) :
  incl keys keys' -> raises keys e -> raises keys' e.
Proof.
  intros Hi (Hs & k & Hm & Hk). split; [exact Hs|]. exists k. split; auto.
Qed.

Lemma lex_raises (reqline : Input) :
  throws_only (raises lex_keys) (lex reqline).
Proof.
  unfold lex. destruct reqline as [truthy|s].
  - step_throws; [raises_now|]. step_throws. raises_now.
  - do 7 (step_throws; [raises_now|]). step_throws.
Qed.

Lemma head_sections_raises (httpPart urlPart : jsstring) :
  throws_only (raises head_keys) (head_sections httpPart urlPart).
Proof.
  unfold head_sections.
  step_throws; [raises_now|].
  apply orb_false_iff in Hc as [Hne Hhttp]. apply negb_false_iff in Hhttp.
  step_throws; [raises_now|].
  apply orb_false_iff in Hc as [Hne' Hurl]. apply negb_false_iff in Hurl.
  destruct (trim_keyword (js "HTTP") httpPart HTTP_no_space Hhttp)
    as (rh & Hh & Hi & Hk & Hm).
  destruct (trim_keyword (js "URL") urlPart URL_no_space Hurl)
    as (ru & Hu & Hi' & Hk' & Hv).
  pose proof (trimmed_value _ _ _ Hh) as Hrh.
  pose proof (trimmed_value _ _ _ Hu) as Hru.
  apply orb_false_iff in Hrh as [Hrh _]. apply orb_false_iff in Hru as [Hru _].
  step_throws.
  { intros Hbad. rewrite Hne, Hh in Hbad. discriminate Hbad. }
  step_throws; [raises_now|].
  rewrite Hi, Hk, Hm.
  step_throws.
  { intros Hbad. discriminate Hbad. }
  step_throws.
  { intros Hbad. rewrite Hrh in Hbad. discriminate Hbad. }
  step_throws; [raises_now|].
  step_throws.
  do 2 (step_throws; [raises_now|]).
  step_throws.
  { intros Hbad. rewrite Hne', Hu in Hbad. discriminate Hbad. }
  step_throws; [raises_now|].
  rewrite Hi', Hk', Hv.
  step_throws.
  { intros Hbad. discriminate Hbad. }
  step_throws.
  { intros Hbad. rewrite Hru in Hbad. discriminate Hbad. }
  do 2 (step_throws; [raises_now|]).
  step_throws.
Qed.

Lemma try_section_raises (keyword value : jsstring) (st : State) (e : AppError) :
  try_section keyword value st = Throw (AppErr e) -> raises optional_keys e.
Proof.
  unfold try_section, throwIf_try, when, native, JSON_parse_or_throw.
  intros H.
  repeat match type of H with
         | context [if ?c then _ else _] => destruct c
         | context [match ?x with _ => _ end] => destruct x; simpl in H
         end;
    try discriminate; inversion H; subst; raises_now.
Qed.

Lemma optional_section_raises (st : State) (part : jsstring) :
  throws_only (raises_or_json optional_keys) (optional_section st part).
Proof.
  unfold optional_section.
  do 2 (step_throws; [intros; left; raises_now|]).
  destruct (indexOf SPACE (trim part)) as [spaceIndex|] eqn:Hi;
    [|step_throws; left; raises_now].
  destruct (indexOf_Some_split _ _ _ Hi) as [Hsplit _].
  step_throws.
  step_throws; [intros; left; raises_now|].
  step_throws; [intros; left; raises_now|].
  match goal with
  | H : negb _ && negb _ && negb _ = false |- _ =>
      apply optional_keyword_allowed in H; rename H into Hkw
  end.
  step_throws; [intros; left; raises_now|].
  step_throws.
  { intros Hbad. rewrite (trimmed_value _ _ _ Hsplit) in Hbad. discriminate Hbad. }
  intros e H.
  destruct (try_section _ _ _) as [s|[e'|n]|] eqn:Et; simpl in H; try discriminate.
  - inversion H; subst. left. exact (try_section_raises _ _ _ _ Et).
  - inversion H; subst. right. split; [reflexivity|].
    eexists. split; [exact Hkw|reflexivity].
Qed.

Lemma raises_or_json_incl (keys keys' : list message_key) (e : AppError) :
  incl keys keys' -> raises_or_json keys e -> raises_or_json keys' e.
Proof.
  intros Hi [H|H]; [left; exact (raises_incl _ _ _ Hi H)|right; exact H].
Qed.

Lemma build_raises (parts : list jsstring) :
  throws_only (raises_or_json (head_keys ++ optional_keys)) (build parts).
Proof.
  unfold build.
  destruct parts as [|httpPart [|urlPart rest]];
    try (step_throws; left; split;
         [reflexivity|eexists; split; [reflexivity|cbv; tauto]]).
  apply throws_only_bind.
  - intros e H. left. apply (raises_incl head_keys); [apply incl_appl, incl_refl|].
    exact (head_sections_raises _ _ e H).
  - intros [method url] _. apply throws_only_bind.
    + apply throws_only_foldM. intros s a e H.
      apply (raises_or_json_incl optional_keys); [apply incl_appr, incl_refl|].
      exact (optional_section_raises s a e H).
    + intros st _. step_throws.
Qed.

Lemma compile_raises (reqline : Input) :
  throws_only (raises_or_json reachable_keys) (compile reqline).
Proof.
  unfold compile. apply throws_only_bind.
  - intros e H. left. apply (raises_incl lex_keys).
    + intros k Hk. cbv in Hk |- *. tauto.
    + exact (lex_raises reqline e H).
  - intros parts _ e H.
    apply (raises_or_json_incl (head_keys ++ optional_keys)).
    + intros k Hk. cbv in Hk |- *. tauto.
    + exact (build_raises parts e H).
Qed.

(* ================================================================= *)
(** ** Which errors come out, and which never do *)

(** X1.  An error of the validation and the building has status 400 and
    its message is one of sixteen entries of the catalog, or the text
    [Invalid JSON format in K section] for [K] one of [HEADERS], [QUERY],
    [BODY].  Each of the sixteen, and each of the three texts, is raised
    by some line. *)
Theorem error_taxonomy :
  (forall reqline e,
     compile reqline = Throw e ->
     errStatus e = 400%Z /\
     ((exists k, errMessage e = Catalog k /\ In k reachable_keys) \/
      (exists keyword,
         optional_keyword keyword /\ errMessage e = json_error_text keyword))) /\
  (forall k, In k reachable_keys ->
     exists reqline, compile reqline = Throw (mkAppError (Catalog k) 400)) /\
  (forall keyword, optional_keyword keyword ->
     exists reqline,
       compile reqline = Throw (mkAppError (json_error_text keyword) 400)).
Proof.
  split; [|split].
  - intros reqline e H.
    destruct (compile_raises reqline e H) as [(Hs & k & Hm & Hk) | (Hs & K & HK & Hm)].
    + split; [exact Hs|]. left. exists k. split; assumption.
    + split; [exact Hs|]. right. exists K. split; assumption.
  - intros k Hk. cbv [In reachable_keys] in Hk.
    repeat (destruct Hk as [<- | Hk]); [..|destruct Hk].
    + exists (Str []). reflexivity.
    + exists (NotString true). reflexivity.
    + exists (Str (js "HTTP GET")). reflexivity.
    + exists (Str (js "[HTTP GET|URL https://a.com/x]")). reflexivity.
    + exists (Str (js "[URL https://a.com/x | HTTP GET]")). reflexivity.
    + exists (Str (js "[HTTP GET | HEADERS {}]")). reflexivity.
    + exists (Str (js "[HTTP GET now | URL https://a.com/x]")). reflexivity.
    + exists (Str (js "[HTTP GET | URL https://a.com/x | BODY]")). reflexivity.
    + exists (Str (js "[HTTP get | URL https://a.com/x]")). reflexivity.
    + exists (Str (js "[HTTP PUT | URL https://a.com/x]")). reflexivity.
    + exists (Str (js "[HTTP GET | URL ftp://a.com/x]")). reflexivity.
    + exists (Str (js "[HTTP GET | URL https://a.com/x | body {}]")). reflexivity.
    + exists (Str (js "[HTTP GET | URL https://a.com/x | COOKIES {}]")). reflexivity.
    + exists (Str (js "[HTTP GET | URL https://a.com/x | BODY 1 | BODY 2]")). reflexivity.
    + exists (Str (js "[HTTP GET | URL https://a.com/x | HEADERS [1]]")). reflexivity.
    + exists (Str (js "[HTTP GET | URL https://a.com/x | QUERY 1]")). reflexivity.
  - intros keyword [-> | [-> | ->]].
    + exists (Str (js "[HTTP GET | URL https://a.com/x | HEADERS {]")). reflexivity.
    + exists (Str (js "[HTTP GET | URL https://a.com/x | QUERY {]")). reflexivity.
    + exists (Str (js "[HTTP GET | URL https://a.com/x | BODY {]")). reflexivity.
Qed.

Lemma error_taxonomy_witness :
  errStatus (mkAppError (Catalog INVALID_URL_FORMAT) 400) = 400%Z /\
  ((exists k, Catalog INVALID_URL_FORMAT = Catalog k /\ In k reachable_keys) \/
   (exists keyword,
      optional_keyword keyword /\
      Catalog INVALID_URL_FORMAT = json_error_text keyword)).
Proof.
  exact (proj1 error_taxonomy (Str (js "[HTTP GET | URL http://a]"))
           (mkAppError (Catalog INVALID_URL_FORMAT) 400) eq_refl).
Defined.

(** X2.  The five "empty section" entries are never raised: the tests of
    lines 91, 136 and 230 cannot hold, since a section that got that far
    starts with its keyword and a space, and a trimmed section does not
    end in a space. *)
Theorem empty_section_unreachable (reqline : Input) (status : Z) (k : message_key) :
  In k [EMPTY_HTTP_SECTION; EMPTY_URL_SECTION; EMPTY_HEADERS_SECTION;
        EMPTY_QUERY_SECTION; EMPTY_BODY_SECTION] ->
  compile reqline <> Throw (mkAppError (Catalog k) status).
Proof.
  intros Hk H.
  destruct (compile_raises reqline _ H) as [(_ & k' & Hm & Hk') | (_ & K & _ & Hm)];
    [|discriminate Hm].
  cbn [errMessage] in Hm. inversion Hm; subst k'.
  cbv [In reachable_keys] in Hk, Hk'.
  repeat (destruct Hk as [<- | Hk]; [intuition discriminate|]). exact Hk.
Qed.

Lemma empty_section_unreachable_witness :
  compile (Str (js "[HTTP GET | URL https://a.com/x | BODY ]"))
  <> Throw (mkAppError (Catalog EMPTY_BODY_SECTION) 400).
Proof.
  apply (empty_section_unreachable _ 400%Z EMPTY_BODY_SECTION).
  cbn [In]. tauto.
Defined.

(* ================================================================= *)
(** ** The checks on the whole line *)

(** The sections never raise one of the three errors of the whole line. *)
Lemma build_not_whole_line (parts : list jsstring) (e : AppError) :
  build parts = Throw e ->
  errMessage e <> Catalog MISSING_REQLINE /\
  errMessage e <> Catalog INVALID_REQLINE_FORMAT /\
  errMessage e <> Catalog INVALID_SPACING_AROUND_PIPE.
Proof.
  intros H.
  destruct (build_raises parts e H) as [(_ & k & Hm & Hk) | (_ & K & _ & Hm)].
  - rewrite Hm. cbv in Hk.
    repeat (destruct Hk as [<- | Hk]; [repeat split; discriminate|]).
    destruct Hk.
  - rewrite Hm. repeat split; discriminate.
Qed.

(** A string with no pipe passes the three checks of the pipes. *)
Lemma includes_needs (c : N) (p q s : jsstring) :
  ~ In c s -> includes (p ++ c :: q) s = false.
Proof.
  intros Hno. destruct (includes (p ++ c :: q) s) eqn:H; [|reflexivity].
  exfalso. apply includes_inv in H as (a & b & ->).
  apply Hno. rewrite !in_app_iff. right. left. right. left. reflexivity.
Qed.

Lemma scan_pipes_no_pipe (s : jsstring) : ~ In PIPE s -> scan_pipes s = false.
Proof.
  intros Hno. destruct (scan_pipes s) eqn:H; [|reflexivity].
  exfalso. apply scan_pipes_true in H as (x & y & -> & _).
  apply Hno. rewrite in_app_iff. right. left. reflexivity.
Qed.

Lemma slice_1_neg1_In (s : jsstring) (c : N) : In c (slice_1_neg1 s) -> In c s.
Proof.
  unfold slice_1_neg1. intros H.
  destruct s as [|a s]; [exact H|]. right. cbn [tl] in H.
  revert H. induction s as [|b s IH]; [intros []|].
  destruct s as [|b' s]; [intros []|].
  change (removelast (b :: b' :: s)) with (b :: removelast (b' :: s)).
  intros [<- | H]; [left; reflexivity | right; exact (IH H)].
Qed.

(** X3.  The line is reported missing exactly when it is falsy (absent,
    [null], [false], [0], the empty string), and ill-formatted exactly
    when it is a string, not empty, that does not both start with [[] and
    end with []]; no later check raises either error.  A value that is
    truthy and not a string is a syntax error. *)
Theorem whole_line_errors (reqline : Input) :
  (compile reqline = Throw (mkAppError (Catalog MISSING_REQLINE) 400) <->
   reqline = NotString false \/ reqline = Str []) /\
  (compile reqline = Throw (mkAppError (Catalog INVALID_REQLINE_FORMAT) 400) <->
   exists s, reqline = Str s /\ s <> [] /\
             (startsWith (js "[") s = false \/ endsWith (js "]") s = false)) /\
  (reqline = NotString true ->
   compile reqline = Throw (mkAppError (Catalog INVALID_SYNTAX) 400)).
Proof.
  assert (Hlex : forall e,
            compile reqline = Throw e ->
            errMessage e = Catalog MISSING_REQLINE \/
            errMessage e = Catalog INVALID_REQLINE_FORMAT ->
            lex reqline = Throw e).
  { intros e H Hm. unfold compile in H.
    apply bind_Throw_inv in H as [H | (parts & _ & H)]; [exact H|].
    destruct (build_not_whole_line parts e H) as (H1 & H2 & _).
    destruct Hm as [Hm|Hm]; [destruct (H1 Hm) | destruct (H2 Hm)]. }
  split; [|split].
  - split.
    + intros H. apply Hlex in H; [|left; reflexivity].
      destruct reqline as [[|]|s]; [discriminate H | left; reflexivity |].
      right. destruct s as [|a s]; [reflexivity|]. exfalso.
      unfold lex in H. cbn [isEmpty throwIf bind] in H.
      repeat match type of H with
             | bind (throwIf ?c _) _ = _ =>
                 destruct c; cbn [throwIf bind throwAppError] in H;
                 [discriminate H|]
             end.
      discriminate H.
    + intros [-> | ->]; reflexivity.
  - split.
    + intros H. apply Hlex in H; [|right; reflexivity].
      destruct reqline as [[|]|s]; [discriminate H | discriminate H |].
      exists s. split; [reflexivity|].
      destruct s as [|a s]; [discriminate H|]. split; [discriminate|].
      unfold lex in H. cbn [isEmpty throwIf bind] in H.
      destruct (startsWith (js "[") (a :: s)); [|left; reflexivity].
      destruct (endsWith (js "]") (a :: s)); [|right; reflexivity].
      exfalso. cbn [negb orb throwIf bind] in H.
      repeat match type of H with
             | bind (throwIf ?c _) _ = _ =>
                 destruct c; cbn [throwIf bind throwAppError] in H;
                 [discriminate H|]
             end.
      discriminate H.
    + intros (s & -> & Hne & Hb). unfold compile, lex.
      destruct s as [|a s]; [destruct (Hne eq_refl)|].
      cbn [isEmpty throwIf bind].
      destruct Hb as [Hb|Hb]; rewrite Hb; [reflexivity|].
      rewrite orb_true_r. reflexivity.
  - intros ->. reflexivity.
Qed.

(** X4.  [INVALID_SPACING_AROUND_PIPE] is raised only for a bracketed line
    whose interior has a pipe with no space, or with two and more, just
    before or just after it.  In a line that compiles every pipe of the
    interior has exactly one space before it and one after it, so that
    the text of no section has a pipe.  (A value can still hold one,
    written in a JSON string as the escape of its code unit.) *)
Theorem pipes_are_delimiters (line : jsstring) :
  (forall status,
     compile (Str line)
     = Throw (mkAppError (Catalog INVALID_SPACING_AROUND_PIPE) status) ->
     startsWith (js "[") line = true /\ endsWith (js "]") line = true /\
     exists x y, trim (slice_1_neg1 line) = x ++ PIPE :: y /\
                 (spaces_before x <> 1 \/ spaces_after y <> 1)) /\
  (forall c,
     compile (Str line) = Ok c ->
     (forall x y, trim (slice_1_neg1 line) = x ++ PIPE :: y ->
                  spaces_before x = 1 /\ spaces_after y = 1) /\
     (forall parts, sections line = Some parts -> Forall (fun p => ~ In PIPE p) parts)).
Proof.
  split.
  - intros status H. unfold compile in H.
    apply bind_Throw_inv in H as [H | (parts & _ & H)].
    2:{ destruct (build_not_whole_line parts _ H) as (_ & _ & H3).
        destruct (H3 eq_refl). }
    unfold lex in H.
    destruct (isEmpty line); [discriminate H|]. cbn [throwIf bind] in H.
    destruct (startsWith (js "[") line); [|discriminate H].
    destruct (endsWith (js "]") line); [|discriminate H].
    cbn [negb orb throwIf bind] in H.
    split; [reflexivity|]. split; [reflexivity|].
    set (content := trim (slice_1_neg1 line)) in *.
    destruct (isEmpty content); [discriminate H|]. cbn [throwIf bind] in H.
    destruct (includes (js "  |") content) eqn:H1.
    { apply includes_inv in H1 as (a & b & Hc).
      exists (a ++ [SPACE; SPACE]), b. split.
      - rewrite Hc, <- app_assoc. reflexivity.
      - left. unfold spaces_before. rewrite rev_app_distr. simpl. discriminate. }
    cbn [throwIf bind] in H.
    destruct (includes (js "|  ") content) eqn:H2.
    { apply includes_inv in H2 as (a & b & Hc).
      exists a, (SPACE :: SPACE :: b). split; [exact Hc|].
      right. unfold spaces_after. simpl. discriminate. }
    cbn [throwIf bind] in H.
    destruct (scan_pipes content) eqn:H3.
    { apply scan_pipes_true in H3 as (x & y & Hc & Hone).
      exists x, y. split; [exact Hc|].
      rewrite !one_space_leading in Hone. unfold spaces_before, spaces_after.
      apply andb_false_iff in Hone as [Hone|Hone]; apply Nat.eqb_neq in Hone;
        [left|right]; exact Hone. }
    cbn [throwIf bind] in H.
    destruct (length (split (js " | ") content) <? 2); discriminate H.
  - intros c H. apply compile_Ok_inv in H as (parts & Hlex & Hbuild).
    pose proof (compiled_parts_clean line parts c Hlex Hbuild) as Hclean.
    apply lex_Ok_inv in Hlex as (Ho & Hc & _ & Hscan & Hparts & _).
    split.
    + intros x y Hxy.
      destruct (scan_pipes_false _ x y Hscan Hxy) as [H1 H2].
      rewrite one_space_leading in H1, H2.
      apply Nat.eqb_eq in H1, H2. split; assumption.
    + intros parts' Hs. unfold sections in Hs. rewrite Ho, Hc in Hs.
      injection Hs as <-. fold SEP in Hparts. rewrite <- Hparts.
      revert Hclean. apply Forall_impl. intros p Hp. exact (clean_no_pipe p Hp).
Qed.

Lemma pipes_are_delimiters_witness :
  (forall x y,
     trim (slice_1_neg1 (js "[HTTP GET | URL https://a.com/x]")) = x ++ PIPE :: y ->
     spaces_before x = 1 /\ spaces_after y = 1) /\
  (forall parts, sections (js "[HTTP GET | URL https://a.com/x]") = Some parts ->
                 Forall (fun p => ~ In PIPE p) parts).
Proof.
  exact (proj2 (pipes_are_delimiters (js "[HTTP GET | URL https://a.com/x]")) _ eq_refl).
Defined.

(** X5.  A line needs two sections: a bracketed line with no pipe, be its
    interior blank or not, is a syntax error. *)
Theorem one_section_invalid_syntax (line : jsstring) :
  startsWith (js "[") line = true ->
  endsWith (js "]") line = true ->
  ~ In PIPE line ->
  compile (Str line) = Throw (mkAppError (Catalog INVALID_SYNTAX) 400).
Proof.
  intros Ho Hc Hno. unfold compile, lex.
  assert (Hne : isEmpty line = false) by (destruct line; [discriminate Ho|reflexivity]).
  rewrite Hne, Ho, Hc. cbn [negb orb throwIf bind].
  set (content := trim (slice_1_neg1 line)).
  assert (Hno' : ~ In PIPE content).
  { intros Hin. apply Hno. apply slice_1_neg1_In. exact (trim_In _ _ Hin). }
  destruct (isEmpty content); [reflexivity|]. cbn [throwIf bind].
  assert (H1 : includes (js "  |") content = false)
    by exact (includes_needs PIPE (js "  ") [] content Hno').
  assert (H2 : includes (js "|  ") content = false)
    by exact (includes_needs PIPE [] (js "  ") content Hno').
  rewrite H1, H2. cbn [throwIf bind].
  rewrite (scan_pipes_no_pipe content Hno'). cbn [throwIf bind].
  fold SEP. rewrite (split_pipe_free content Hno'). reflexivity.
Qed.

Lemma one_section_invalid_syntax_witness :
  compile (Str (js "[HTTP GET]")) = Throw (mkAppError (Catalog INVALID_SYNTAX) 400).
Proof.
  apply one_section_invalid_syntax; [reflexivity | reflexivity |].
  intros H. cbv in H. repeat (destruct H as [H|H]; [discriminate H|]). exact H.
Defined.

(** X6.  White space just inside the brackets does not count: a line and
    the line with blanks added after [[] and before []] compile alike, and
    run alike. *)
Theorem inner_padding_ignored
        (httpRequest : TransportRequest -> TransportOutcome) (t0 t1 : Z)
        (ws1 content ws2 : jsstring) :
  forallb isWhiteSpace ws1 = true ->
  forallb isWhiteSpace ws2 = true ->
  compile (Str (js "[" ++ (ws1 ++ content ++ ws2) ++ js "]"))
  = compile (Str (js "[" ++ content ++ js "]")) /\
  parse httpRequest t0 t1 (Str (js "[" ++ (ws1 ++ content ++ ws2) ++ js "]"))
  = parse httpRequest t0 t1 (Str (js "[" ++ content ++ js "]")).
Proof.
  intros H1 H2.
  assert (H : compile (Str (js "[" ++ (ws1 ++ content ++ ws2) ++ js "]"))
              = compile (Str (js "[" ++ content ++ js "]"))).
  { unfold compile, lex.
    destruct (bracketed (ws1 ++ content ++ ws2)) as (Ho & Hc & Hs).
    destruct (bracketed content) as (Ho' & Hc' & Hs').
    rewrite Ho, Hc, Hs, Ho', Hc', Hs'.
    rewrite (trim_padded ws1 content ws2 H1 H2). reflexivity. }
  split; [exact H|]. unfold parse. rewrite H. reflexivity.
Qed.

Lemma inner_padding_ignored_witness :
  compile (Str (js "[  HTTP GET | URL https://a.com/x ]"))
  = compile (Str (js "[HTTP GET | URL https://a.com/x]")).
Proof.
  exact (proj1 (inner_padding_ignored transport_down 0 0
                  (js "  ") (js "HTTP GET | URL https://a.com/x") (js " ")
                  eq_refl eq_refl)).
Defined.

(* ================================================================= *)
(** ** The two mandatory sections *)

Lemma trim_nonempty (s r : jsstring) (a : N) : trim s = a :: r -> isEmpty s = false.
Proof. destruct s; [discriminate|reflexivity]. Qed.

(** The checks of lines 79-175 pass on what [head_ok] describes. *)
Lemma head_sections_complete (httpPart urlPart method url : jsstring) :
  head_ok httpPart urlPart method url ->
  head_sections httpPart urlPart = Ok (method, url).
Proof.
  intros [Hth Htu Hdh Hdu Hm Hsp Hscheme Hlen].
  assert (Hne : url <> []) by (intros ->; simpl in Hlen; lia).
  assert (Hmu : not_upper method = Ok false)
    by (destruct Hm as [-> | ->]; reflexivity).
  assert (Hms : includes (js " ") method = false)
    by (destruct Hm as [-> | ->]; reflexivity).
  assert (Hmv : negb (str_eqb method (js "GET")) && negb (str_eqb method (js "POST"))
                = false)
    by (destruct Hm as [-> | ->]; reflexivity).
  assert (Hme : isEmpty method = false)
    by (destruct Hm as [-> | ->]; reflexivity).
  destruct (keyword_before_space (js "HTTP") method HTTP_no_space) as (Hi & Hk & Hv).
  destruct (keyword_before_space (js "URL") url URL_no_space) as (Hi' & Hk' & Hv').
  unfold head_sections.
  rewrite (trim_nonempty httpPart _ _ Hth), (trim_nonempty urlPart _ _ Htu).
  rewrite Hth, Htu.
  rewrite (startsWith_app (js "HTTP ") method), (startsWith_app (js "URL ") url).
  rewrite Hdh, Hdu.
  change (js "HTTP " ++ method) with (js "HTTP" ++ SPACE :: method).
  change (js "URL " ++ url) with (js "URL" ++ SPACE :: url).
  rewrite Hi, Hk, Hv, Hi', Hk', Hv'.
  change (isEmpty (js "HTTP" ++ SPACE :: method)) with false.
  change (isEmpty (js "URL" ++ SPACE :: url)) with false.
  rewrite !str_eqb_refl, Hme, Hms, Hmu, Hmv.
  cbn [negb orb andb throwIf bind].
  rewrite (proj2 (includes_space url) Hsp), Hscheme.
  replace (8 <? length url) with true by (symmetry; apply Nat.ltb_lt; exact Hlen).
  destruct url; [contradiction|]. reflexivity.
Qed.

(** X7.  The first two sections are accepted exactly when: trimmed, they
    read [HTTP M] and [URL U]; neither has two consecutive spaces; [M] is
    [GET] or [POST]; [U] has no space, starts with [http://] or
    [https://] and is longer than eight code units.  The result is then
    [M] and [U]. *)
Theorem head_sections_accepted (httpPart urlPart method url : jsstring) :
  head_sections httpPart urlPart = Ok (method, url) <->
  trim httpPart = js "HTTP " ++ method /\
  trim urlPart = js "URL " ++ url /\
  has_double_space httpPart = false /\
  has_double_space urlPart = false /\
  (method = js "GET" \/ method = js "POST") /\
  ~ In SPACE url /\
  startsWith (js "http://") url || startsWith (js "https://") url = true /\
  8 < length url.
Proof.
  split.
  - intros H. destruct (head_sections_Ok_inv _ _ _ _ H).
    repeat (split; [assumption|]). assumption.
  - intros (H1 & H2 & H3 & H4 & H5 & H6 & H7 & H8).
    apply head_sections_complete. constructor; assumption.
Qed.

(** One step of a failing run: the test of the [throwIf] holds and the
    run stops there, or it does not and the run goes on. *)
Ltac throw_step H Hc :=
  match type of H with
  | bind (throwIf ?c _) _ = Throw _ =>
      destruct c eqn:Hc; cbn [throwIf bind throwAppError] in H;
      [ injection H as <- | ]
  end.

Lemma head_sections_error_inv (httpPart urlPart : jsstring) (e : AppError) :
  head_sections httpPart urlPart = Throw e ->
  errStatus e = 400%Z /\ head_error_cause httpPart urlPart e.
Proof.
  unfold head_sections. intros H.
  throw_step H Hc1.
  { split; [reflexivity|]. cbn. apply orb_true_iff in Hc1 as [Hc1|Hc1].
    - destruct httpPart; [reflexivity|discriminate Hc1].
    - apply negb_true_iff in Hc1. exact Hc1. }
  apply orb_false_iff in Hc1 as [Hne Hhttp]. apply negb_false_iff in Hhttp.
  throw_step H Hc2.
  { split; [reflexivity|]. cbn. split; [exact Hhttp|].
    apply orb_true_iff in Hc2 as [Hc2|Hc2].
    - destruct urlPart; [reflexivity|discriminate Hc2].
    - apply negb_true_iff in Hc2. exact Hc2. }
  apply orb_false_iff in Hc2 as [Hne' Hurl]. apply negb_false_iff in Hurl.
  destruct (trim_keyword (js "HTTP") httpPart HTTP_no_space Hhttp)
    as (method & Hh & Hi & Hk & Hm).
  destruct (trim_keyword (js "URL") urlPart URL_no_space Hurl)
    as (url & Hu & Hi' & Hk' & Hv).
  throw_step H Hc3; [split; [reflexivity|exact I]|].
  throw_step H Hc4; [split; [reflexivity|exact I]|].
  rewrite Hi, Hk, Hm in H.
  throw_step H Hc5; [split; [reflexivity|exact I]|].
  throw_step H Hc6; [split; [reflexivity|exact I]|].
  throw_step H Hc7; [split; [reflexivity|exact I]|].
  apply includes_space in Hc7.
  unfold not_upper in H. destruct (toUpperCase method) as [upper|] eqn:Hup;
    [|discriminate H]. cbn [bind] in H.
  throw_step H Hc8; [split; [reflexivity|exact I]|].
  throw_step H Hc9; [split; [reflexivity|exact I]|].
  assert (Hmethod : method = js "GET" \/ method = js "POST").
  { apply andb_false_iff in Hc9 as [Hg|Hg]; apply negb_false_iff, str_eqb_eq in Hg;
      [left|right]; exact Hg. }
  throw_step H Hc10; [split; [reflexivity|exact I]|].
  throw_step H Hc11; [split; [reflexivity|exact I]|].
  rewrite Hi', Hk', Hv in H.
  throw_step H Hc12; [split; [reflexivity|exact I]|].
  throw_step H Hc13; [split; [reflexivity|exact I]|].
  throw_step H Hc14; [split; [reflexivity|exact I]|].
  apply includes_space in Hc14.
  throw_step H Hc15; [|discriminate H].
  split; [reflexivity|]. cbn. split; [exact Hc4|]. split; [exact Hc11|].
  exists method, url. split; [exact Hh|]. split; [exact Hmethod|].
  split; [exact Hu|]. split; [exact Hc14|].
  apply negb_true_iff, andb_false_iff in Hc15 as [Hs|Hl]; [left; exact Hs|].
  right. apply Nat.ltb_ge in Hl. exact Hl.
Qed.

(** The five errors of the first two sections come from nowhere else. *)
Lemma compile_head_error (reqline : Input) (e : AppError) (k : message_key) :
  compile reqline = Throw e ->
  errMessage e = Catalog k ->
  In k [HTTP_NOT_FIRST; URL_NOT_SECOND; HTTP_METHOD_NOT_UPPERCASE;
        INVALID_HTTP_METHOD; INVALID_URL_FORMAT] ->
  exists httpPart urlPart rest,
    lex reqline = Ok (httpPart :: urlPart :: rest) /\
    head_sections httpPart urlPart = Throw e.
Proof.
  intros H Hm Hk. unfold compile in H.
  apply bind_Throw_inv in H as [H | (parts & Hlex & H)].
  { exfalso. destruct (lex_raises reqline e H) as (_ & k' & Hm' & Hk').
    rewrite Hm in Hm'. injection Hm' as <-. cbv in Hk, Hk'.
    repeat (destruct Hk as [<- | Hk]; [intuition discriminate|]). exact Hk. }
  destruct parts as [|httpPart [|urlPart rest]].
  - exfalso. injection H as <-. injection Hm as <-. cbv in Hk. intuition discriminate.
  - exfalso. injection H as <-. injection Hm as <-. cbv in Hk. intuition discriminate.
  - exists httpPart, urlPart, rest. split; [exact Hlex|].
    unfold build in H. apply bind_Throw_inv in H as [H | ([method url] & _ & H)];
      [exact H|]. exfalso.
    apply bind_Throw_inv in H as [H | (st & _ & H)]; [|discriminate H].
    assert (Hopt : raises_or_json optional_keys e).
    { revert H. apply throws_only_foldM. intros s a. apply optional_section_raises. }
    destruct Hopt as [(_ & k' & Hm' & Hk') | (_ & K & _ & Hm')];
      rewrite Hm in Hm'; [|discriminate Hm'].
    injection Hm' as <-. cbv in Hk, Hk'.
    repeat (destruct Hk as [<- | Hk]; [intuition discriminate|]). exact Hk.
Qed.

Lemma compile_of_head (reqline : Input) (httpPart urlPart : jsstring)
      (rest : list jsstring) (e : AppError) :
  lex reqline = Ok (httpPart :: urlPart :: rest) ->
  head_sections httpPart urlPart = Throw e ->
  compile reqline = Throw e.
Proof. intros Hlex H. unfold compile. rewrite Hlex. cbn [bind build]. rewrite H. reflexivity. Qed.

Lemma lex_length (reqline : Input) (parts : list jsstring) :
  lex reqline = Ok parts -> 2 <= length parts.
Proof.
  destruct reqline as [[|]|line]; [discriminate | discriminate |].
  intros H. apply lex_Ok_inv in H. tauto.
Qed.

Lemma trim_starts_nonempty (p s : jsstring) (a : N) :
  startsWith (a :: p) (trim s) = true -> isEmpty s = false.
Proof. destruct s; [discriminate|reflexivity]. Qed.

(** X8.  [HTTP_NOT_FIRST] is raised exactly when the line passes the
    checks of the whole line and its first section, trimmed, does not
    start with [HTTP] and a space; [URL_NOT_SECOND] exactly when the first
    section does and the second, trimmed, does not start with [URL] and a
    space.  Both come before any check of the method, of the URL and of
    the other sections. *)
Theorem section_order_errors (reqline : Input) :
  (compile reqline = Throw (mkAppError (Catalog HTTP_NOT_FIRST) 400) <->
   exists httpPart rest,
     lex reqline = Ok (httpPart :: rest) /\
     startsWith (js "HTTP ") (trim httpPart) = false) /\
  (compile reqline = Throw (mkAppError (Catalog URL_NOT_SECOND) 400) <->
   exists httpPart urlPart rest,
     lex reqline = Ok (httpPart :: urlPart :: rest) /\
     startsWith (js "HTTP ") (trim httpPart) = true /\
     startsWith (js "URL ") (trim urlPart) = false).
Proof.
  split; split.
  - intros H.
    destruct (compile_head_error reqline _ HTTP_NOT_FIRST H eq_refl)
      as (h & u & rest & Hlex & Hhead); [cbn [In]; tauto|].
    exists h, (u :: rest). split; [exact Hlex|].
    exact (proj2 (head_sections_error_inv h u _ Hhead)).
  - intros (h & rest & Hlex & Hno).
    pose proof (lex_length reqline _ Hlex) as Hlen.
    destruct rest as [|u rest]; [simpl in Hlen; lia|].
    apply (compile_of_head reqline h u rest _ Hlex).
    unfold head_sections. rewrite Hno. cbn [negb]. rewrite orb_true_r. reflexivity.
  - intros H.
    destruct (compile_head_error reqline _ URL_NOT_SECOND H eq_refl)
      as (h & u & rest & Hlex & Hhead); [cbn [In]; tauto|].
    exists h, u, rest. split; [exact Hlex|].
    exact (proj2 (head_sections_error_inv h u _ Hhead)).
  - intros (h & u & rest & Hlex & Hhttp & Hno).
    apply (compile_of_head reqline h u rest _ Hlex).
    unfold head_sections.
    rewrite (trim_starts_nonempty _ _ _ Hhttp), Hhttp, Hno.
    cbn [negb orb throwIf bind]. rewrite orb_true_r. reflexivity.
Qed.



(** X10.  [INVALID_URL_FORMAT] is raised exactly when the line passes the
    checks of the whole line, its first two sections read [HTTP M] and
    [URL U] with [M] either [GET] or [POST], neither section has two
    consecutive spaces, [U] has no space, and [U] does not start with
    [http://] or [https://], in lower case, or has no more than eight
    code units. *)
Theorem url_format_error (reqline : Input) :
  compile reqline = Throw (mkAppError (Catalog INVALID_URL_FORMAT) 400) <->
  exists httpPart urlPart rest method url,
    lex reqline = Ok (httpPart :: urlPart :: rest) /\
    has_double_space httpPart = false /\
    has_double_space urlPart = false /\
    trim httpPart = js "HTTP " ++ method /\
    (method = js "GET" \/ method = js "POST") /\
    trim urlPart = js "URL " ++ url /\
    ~ In SPACE url /\
    (startsWith (js "http://") url || startsWith (js "https://") url = false
     \/ length url <= 8).
Proof.
  split.
  - intros H.
    destruct (compile_head_error reqline _ INVALID_URL_FORMAT H eq_refl)
      as (h & u & rest & Hlex & Hhead); [cbn [In]; tauto|].
    destruct (head_sections_error_inv h u _ Hhead)
      as (_ & Hdh & Hdu & method & url & Hh & Hm & Hu & Hsp & Hbad).
    exists h, u, rest, method, url. tauto.
  - intros (h & u & rest & method & url & Hlex & Hdh & Hdu & Hh & Hm & Hu & Hsp & Hbad).
    apply (compile_of_head reqline h u rest _ Hlex).
    assert (Hhttp : startsWith (js "HTTP ") (trim h) = true)
      by (rewrite Hh; apply startsWith_app).
    assert (Hurl : startsWith (js "URL ") (trim u) = true)
      by (rewrite Hu; apply startsWith_app).
    change (js "HTTP " ++ method) with (js "HTTP" ++ SPACE :: method) in Hh.
    change (js "URL " ++ url) with (js "URL" ++ SPACE :: url) in Hu.
    pose proof (trimmed_value _ _ _ Hu) as Hval.
    apply orb_false_iff in Hval as [Hval _].
    destruct (keyword_before_space (js "HTTP") method HTTP_no_space) as (Hi & Hk & Hv).
    destruct (keyword_before_space (js "URL") url URL_no_space) as (Hi' & Hk' & Hv').
    unfold head_sections.
    rewrite (trim_starts_nonempty _ _ _ Hhttp), (trim_starts_nonempty _ _ _ Hurl).
    rewrite Hhttp, Hurl, Hdh, Hdu, Hh, Hu, Hi, Hk, Hv, Hi', Hk', Hv'.
    change (isEmpty (js "HTTP" ++ SPACE :: method)) with false.
    change (isEmpty (js "URL" ++ SPACE :: url)) with false.
    rewrite !str_eqb_refl, Hval, (proj2 (includes_space url) Hsp).
    assert (Hmu : not_upper method = Ok false)
      by (destruct Hm as [-> | ->]; reflexivity).
    assert (Hms : includes (js " ") method = false)
      by (destruct Hm as [-> | ->]; reflexivity).
    assert (Hmv : negb (str_eqb method (js "GET")) && negb (str_eqb method (js "POST"))
                  = false)
      by (destruct Hm as [-> | ->]; reflexivity).
    assert (Hme : isEmpty method = false)
      by (destruct Hm as [-> | ->]; reflexivity).
    rewrite Hme, Hms, Hmu, Hmv.
    cbn [negb orb throwIf bind].
    destruct Hbad as [Hbad|Hbad].
    + rewrite Hbad. reflexivity.
    + replace (8 <? length url) with false
        by (symmetry; apply Nat.ltb_ge; exact Hbad).
      rewrite andb_false_r. reflexivity.
Qed.

(* ================================================================= *)
(** ** The optional sections *)



(** X12.  A section [K value] that is well formed and not a duplicate,
    but whose value is not a JSON text, fails with status 400 and the
    text [Invalid JSON format in K section], which is not an entry of the
    catalog.  A [QUERY] whose JSON is sound but one of whose values does
    not turn into a string, or is refused by [encodeURIComponent], fails
    with the same text. *)
Theorem invalid_json_text (st : State) (part keyword value : jsstring) :
  section_of part keyword value ->
  processed keyword st = false ->
  JSON_parse value = None \/
  (keyword = js "QUERY" /\
   exists props n,
     JSON_parse value = Some (JObject props) /\
     mapM query_part (own_entries props) = Throw n) ->
  optional_section st part
  = Throw (mkAppError
             (Text (js "Invalid JSON format in " ++ keyword ++ js " section")) 400).
Proof.
  intros Hs Hp Hbad.
  rewrite (optional_section_eq st part keyword value Hs).
  unfold processed in Hp. rewrite Hp. cbn [throwIf bind].
  destruct Hbad as [Hv | (-> & props & n & Hv & Hq)].
  - destruct (so_keyword _ _ _ Hs) as [-> | [-> | ->]];
      unfold effect_of, JSON_parse_or_throw; cbn [str_eqb js]; rewrite Hv;
      reflexivity.
  - unfold effect_of, JSON_parse_or_throw; cbn [str_eqb js]; rewrite Hv.
    cbn [native bind typeof_object Array_isArray negb orb throwIf_try when
         Object_entries].
    rewrite Hq. reflexivity.
Qed.

Lemma invalid_json_text_witness :
  optional_section (initial_state (js "https://a.com/x")) (js "BODY {'a':1}")
  = Throw (mkAppError (Text (js "Invalid JSON format in BODY section")) 400) /\
  optional_section (initial_state (js "https://a.com/x"))
                   (jsq "QUERY {'a':{'toString':1}}")
  = Throw (mkAppError (Text (js "Invalid JSON format in QUERY section")) 400).
Proof.
  split.
  - apply (invalid_json_text _ _ (js "BODY") (js "{'a':1}")).
    + constructor; [reflexivity | reflexivity | right; right; reflexivity].
    + reflexivity.
    + left. reflexivity.
  - apply (invalid_json_text _ _ (js "QUERY") (jsq "{'a':{'toString':1}}")).
    + constructor; [reflexivity | reflexivity | right; left; reflexivity].
    + reflexivity.
    + right. split; [reflexivity|].
      exists [(js "a", JObject [(js "toString", JNumber (js "1"))])], TypeError.
      split; reflexivity.
Defined.




(* ================================================================= *)
(** ** The fields of the request *)

Lemma field_of_mark (k k' : jsstring) (st : State) :
  field_of k (st_request (mark k' st)) = field_of k (st_request st).
Proof. reflexivity. Qed.

(** A section sets the field of its keyword to its value, decoded. *)
Lemma apply_effect_sets (keyword value : jsstring) (eff : effect) (st : State) :
  decodes keyword value eff ->
  JSON_parse value = Some (field_of keyword (st_request (apply_effect eff st))).
Proof.
  intros [value' v Hv Ht Ha | value' props queryParts Hv Hq | value' v Hv];
    cbn [apply_effect]; try exact Hv.
  destruct (negb (isEmpty (join (js "&") queryParts))); exact Hv.
Qed.

(** And leaves the other two as they are. *)
Lemma apply_effect_keeps (k keyword value : jsstring) (eff : effect) (st : State) :
  decodes keyword value eff ->
  optional_keyword k -> k <> keyword ->
  field_of k (st_request (apply_effect eff st)) = field_of k (st_request st).
Proof.
  intros [value' v Hv Ht Ha | value' props queryParts Hv Hq | value' v Hv] Hk Hne;
    cbn [apply_effect];
    try destruct (negb (isEmpty (join (js "&") queryParts)));
    destruct Hk as [-> | [-> | ->]]; try reflexivity; destruct (Hne eq_refl).
Qed.

(** The loop leaves a field alone when no section has its keyword. *)
Lemma foldM_keeps_field (k : jsstring) (rest : list jsstring) (st st' : State) :
  foldM optional_section st rest = Ok st' ->
  optional_keyword k ->
  (forall part, In part rest -> keyword_of part <> Some k) ->
  field_of k (st_request st') = field_of k (st_request st).
Proof.
  revert st. induction rest as [|p rest IH]; intros st H Hk Hno; simpl in H.
  - inversion H; subst; reflexivity.
  - apply bind_Ok_inv in H as (st1 & H1 & H).
    rewrite (IH st1 H Hk (fun part Hin => Hno part (or_intror Hin))).
    apply optional_section_Ok_inv in H1 as (keyword & value & eff & Hs & _ & Hd & ->).
    apply effect_of_Ok_inv in Hd.
    rewrite (apply_effect_keeps k keyword value eff _ Hd Hk); [apply field_of_mark|].
    intros ->. apply (Hno p (or_introl eq_refl)).
    exact (section_of_keyword_of _ _ _ Hs).
Qed.

(** Once a keyword is marked, no later section has it. *)
Lemma foldM_marked_absent (k : jsstring) (rest : list jsstring) (st st' : State) :
  foldM optional_section st rest = Ok st' ->
  processed k st = true ->
  forall part, In part rest -> keyword_of part <> Some k.
Proof.
  revert st. induction rest as [|p rest IH]; intros st H Hk part Hin; simpl in H.
  - destruct Hin.
  - apply bind_Ok_inv in H as (st1 & H1 & H).
    destruct Hin as [<- | Hin].
    + apply optional_section_marks in H1 as (keyword & value & Hs & Hp & _).
      rewrite (section_of_keyword_of _ _ _ Hs). intros E. injection E as ->.
      rewrite Hk in Hp. discriminate Hp.
    + apply (IH st1 H); [|exact Hin].
      exact (foldM_keeps_mark k [p] st st1
               ltac:(simpl; rewrite H1; reflexivity) Hk).
Qed.

(** After the loop, the field of a section's keyword is the section's
    value, decoded. *)
Lemma foldM_sets_field (rest : list jsstring) (st st' : State)
      (part keyword value : jsstring) :
  foldM optional_section st rest = Ok st' ->
  In part rest -> section_of part keyword value ->
  JSON_parse value = Some (field_of keyword (st_request st')).
Proof.
  revert st. induction rest as [|p rest IH]; intros st H Hin Hs; simpl in H.
  - destruct Hin.
  - apply bind_Ok_inv in H as (st1 & H1 & H).
    destruct Hin as [-> | Hin]; [|exact (IH st1 H Hin Hs)].
    pose proof H1 as H1'.
    apply optional_section_Ok_inv in H1 as (k & v & eff & Hs' & _ & Hd & Hst).
    apply effect_of_Ok_inv in Hd.
    destruct (section_of_unique _ _ _ _ _ Hs Hs') as [<- <-].
    rewrite (foldM_keeps_field keyword rest st1 st' H (so_keyword _ _ _ Hs)).
    + rewrite Hst. exact (apply_effect_sets _ _ _ _ Hd).
    + apply (foldM_marked_absent keyword rest st1 st' H).
      apply (foldM_marks [part] st st1 ltac:(simpl; rewrite H1'; reflexivity)
                         part keyword value (or_introl eq_refl) Hs).
Qed.

(** X14.  On a successful run each of [headers], [query] and [body] is
    the JSON value of the section with its keyword, wherever the section
    stands among the optional ones, and the empty object when no section
    has the keyword. *)
Theorem fields_rule (reqline : Input) (c : Compiled)
        (httpPart urlPart : jsstring) (rest : list jsstring) (keyword : jsstring) :
  compile reqline = Ok c ->
  lex reqline = Ok (httpPart :: urlPart :: rest) ->
  optional_keyword keyword ->
  (forall part value,
     In part rest -> section_of part keyword value ->
     JSON_parse value = Some (field_of keyword (c_request c))) /\
  ((forall part, In part rest -> keyword_of part <> Some keyword) ->
   field_of keyword (c_request c) = JObject []).
Proof.
  intros H Hlex Hk.
  apply compile_Ok_inv in H as (parts & Hlex' & Hbuild).
  rewrite Hlex in Hlex'. injection Hlex' as <-.
  apply build_Ok_inv in Hbuild as (st & _ & Hfold & ->).
  split.
  - intros part value Hin Hs. exact (foldM_sets_field rest _ st _ _ _ Hfold Hin Hs).
  - intros Hno. rewrite (foldM_keeps_field keyword rest _ st Hfold Hk Hno).
    destruct Hk as [-> | [-> | ->]]; reflexivity.
Qed.

Lemma fields_rule_witness :
  JSON_parse (js "[1,2]")
  = Some (field_of (js "BODY")
            (c_request
               (mkCompiled (js "POST") (js "https://a.com/x")
                  (mkRequest (JObject [])
                             (JArray [JNumber (js "1"); JNumber (js "2")])
                             (JObject []) (js "https://a.com/x"))))) /\
  field_of (js "HEADERS")
    (c_request
       (mkCompiled (js "POST") (js "https://a.com/x")
          (mkRequest (JObject [])
                     (JArray [JNumber (js "1"); JNumber (js "2")])
                     (JObject []) (js "https://a.com/x"))))
  = JObject [].
Proof.
  pose proof (fields_rule (Str (js "[HTTP POST | URL https://a.com/x | BODY [1,2]]"))
                (mkCompiled (js "POST") (js "https://a.com/x")
                   (mkRequest (JObject [])
                              (JArray [JNumber (js "1"); JNumber (js "2")])
                              (JObject []) (js "https://a.com/x")))
                (js "HTTP POST") (js "URL https://a.com/x") [js "BODY [1,2]"])
    as H.
  split.
  - refine (proj1 (H (js "BODY") eq_refl eq_refl _) (js "BODY [1,2]") (js "[1,2]") _ _).
    + right; right; reflexivity.
    + left; reflexivity.
    + constructor; [reflexivity | reflexivity | right; right; reflexivity].
  - refine (proj2 (H (js "HEADERS") eq_refl eq_refl _) _).
    + left; reflexivity.
    + intros part [<- | []]. discriminate.
Defined.

(* ================================================================= *)
(** ** How many optional sections *)

Lemma processed_In (k : jsstring) (st : State) :
  processed k st = true <-> In k (st_processed st).
Proof.
  unfold processed. rewrite existsb_exists. split.
  - intros (x & Hin & Hx). apply str_eqb_eq in Hx. subst x. exact Hin.
  - intros Hin. exists k. split; [exact Hin | apply str_eqb_refl].
Qed.

(** The keywords of the sections of a successful loop: one for each
    section, all different, none marked before. *)
Lemma foldM_keywords (rest : list jsstring) (st st' : State) :
  foldM optional_section st rest = Ok st' ->
  exists keywords,
    map keyword_of rest = map Some keywords /\
    Forall optional_keyword keywords /\
    NoDup keywords /\
    (forall k, In k keywords -> processed k st = false).
Proof.
  revert st. induction rest as [|p rest IH]; intros st H; simpl in H.
  - exists []. split; [reflexivity|]. split; [constructor|].
    split; [constructor | intros k []].
  - apply bind_Ok_inv in H as (st1 & H1 & H).
    destruct (IH st1 H) as (keywords & Hmap & Hall & Hnd & Hnew).
    apply optional_section_marks in H1 as (keyword & value & Hs & Hp & Hst).
    assert (Hk1 : processed keyword st1 = true).
    { apply processed_In. rewrite Hst. left. reflexivity. }
    exists (keyword :: keywords). split; [|split; [|split]].
    + cbn [map]. rewrite (section_of_keyword_of _ _ _ Hs), Hmap. reflexivity.
    + constructor; [exact (so_keyword _ _ _ Hs) | exact Hall].
    + constructor; [|exact Hnd]. intros Hin.
      rewrite (Hnew keyword Hin) in Hk1. discriminate Hk1.
    + intros k [<- | Hin]; [exact Hp|].
      destruct (processed k st) eqn:E; [|reflexivity].
      rewrite <- (Hnew k Hin). symmetry. apply processed_In. rewrite Hst.
      right. apply processed_In. exact E.
Qed.

(** X15.  In a line that compiles, every section after the second has one
    of the keywords [HEADERS], [QUERY], [BODY], no two have the same, and
    so there are at most three of them: at most five sections in all. *)
Theorem optional_sections_distinct (reqline : Input) (c : Compiled)
        (httpPart urlPart : jsstring) (rest : list jsstring) :
  compile reqline = Ok c ->
  lex reqline = Ok (httpPart :: urlPart :: rest) ->
  (exists keywords,
     map keyword_of rest = map Some keywords /\
     Forall optional_keyword keywords /\
     NoDup keywords) /\
  length rest <= 3.
Proof.
  intros H Hlex.
  apply compile_Ok_inv in H as (parts & Hlex' & Hbuild).
  rewrite Hlex in Hlex'. injection Hlex' as <-.
  apply build_Ok_inv in Hbuild as (st & _ & Hfold & _).
  destruct (foldM_keywords rest _ st Hfold) as (keywords & Hmap & Hall & Hnd & _).
  split.
  - exists keywords. split; [exact Hmap|]. split; [exact Hall | exact Hnd].
  - assert (Hlen : length rest = length keywords).
    { rewrite <- (length_map keyword_of rest), Hmap. apply length_map. }
    rewrite Hlen.
    apply (NoDup_incl_length (l' := [js "HEADERS"; js "QUERY"; js "BODY"]) Hnd).
    intros k Hin. rewrite Forall_forall in Hall.
    destruct (Hall k Hin) as [-> | [-> | ->]]; cbn [In]; tauto.
Qed.

Lemma optional_sections_distinct_witness :
  (exists keywords,
     map keyword_of [js "BODY {}"; js "HEADERS {}"] = map Some keywords /\
     Forall optional_keyword keywords /\
     NoDup keywords) /\
  length [js "BODY {}"; js "HEADERS {}"] <= 3.
Proof.
  exact (optional_sections_distinct
           (Str (js "[HTTP GET | URL https://a.com/x | BODY {} | HEADERS {}]"))
           (mkCompiled (js "GET") (js "https://a.com/x")
              (mkRequest (JObject []) (JObject []) (JObject []) (js "https://a.com/x")))
           (js "HTTP GET") (js "URL https://a.com/x")
           [js "BODY {}"; js "HEADERS {}"] eq_refl eq_refl).
Defined.

(* ================================================================= *)
(** ** Consecutive spaces *)

Lemma has_double_space_app (a b : jsstring) :
  has_double_space (a ++ b) =
  has_double_space a
  || (is_char SPACE (hd_error (rev a)) && is_char SPACE (hd_error b))
  || has_double_space b.
Proof.
  induction a as [|c a IH]; [reflexivity|].
  change ((c :: a) ++ b) with (c :: (a ++ b)).
  rewrite !has_double_space_cons, IH.
  destruct a as [|d a].
  - cbn [app rev hd_error]. change (has_double_space []) with false.
    destruct (is_char SPACE (Some c)), (is_char SPACE (hd_error b)),
      (has_double_space b); reflexivity.
  - assert (Hrev : hd_error (rev (c :: d :: a)) = hd_error (rev (d :: a))).
    { change (rev (c :: d :: a)) with (rev (d :: a) ++ [c]).
      apply hd_error_app. cbn [rev]. intros H.
      apply app_eq_nil in H as [_ H]. discriminate H. }
    rewrite Hrev. cbn [app hd_error].
    destruct (is_char SPACE (Some c) && is_char SPACE (Some d)),
      (has_double_space (d :: a)),
      (is_char SPACE (hd_error (rev (d :: a))) && is_char SPACE (hd_error b)),
      (has_double_space b); reflexivity.
Qed.

Lemma has_double_space_includes (s : jsstring) :
  has_double_space s = includes (js "  ") s.
Proof.
  induction s as [|c s IH]; [reflexivity|].
  rewrite has_double_space_cons, IH. cbn [includes].
  f_equal. change (js "  ") with [SPACE; SPACE]. cbn [startsWith is_char].
  rewrite (N.eqb_sym SPACE c). f_equal.
  destruct s as [|d s]; [reflexivity|]. cbn [hd_error startsWith].
  rewrite (N.eqb_sym SPACE d), andb_true_r. reflexivity.
Qed.

Lemma has_double_space_join (parts : list jsstring) :
  Forall clean parts ->
  Forall (fun p => has_double_space p = false) parts ->
  has_double_space (join SEP parts) = false.
Proof.
  induction parts as [|p [|q ps] IH]; intros Hclean Hds.
  - reflexivity.
  - inversion Hds; subst. assumption.
  - rewrite join_cons2.
    inversion Hclean as [|? ? Hp Hclean']. inversion Hds as [|? ? Hdp Hds']. subst.
    specialize (IH Hclean' Hds').
    rewrite has_double_space_app, Hdp, (clean_last p Hp). cbn [andb orb].
    rewrite has_double_space_app, IH.
    change (has_double_space SEP) with false.
    assert (Hhd : is_char SPACE (hd_error (join SEP (q :: ps))) = false).
    { inversion Hclean' as [|? ? Hq _]. subst.
      destruct ps as [|r ps]; [exact (clean_first q Hq)|].
      rewrite join_cons2, hd_error_app; [exact (clean_first q Hq)|].
      exact (clean_nonempty q Hq). }
    rewrite Hhd, andb_false_r. reflexivity.
Qed.

(** X16.  In a line that compiles, the text of the interior has no two
    consecutive spaces anywhere, also not where JSON allows them, between
    tokens or inside a string literal.  (A value can still hold two
    spaces, written in a JSON string as escapes.) *)
Theorem no_consecutive_spaces (line : jsstring) (c : Compiled) :
  compile (Str line) = Ok c ->
  includes (js "  ") (trim (slice_1_neg1 line)) = false.
Proof.
  intros H. apply compile_Ok_inv in H as (parts & Hlex & Hbuild).
  pose proof (compiled_parts_clean line parts c Hlex Hbuild) as Hclean.
  apply lex_Ok_inv in Hlex as (_ & _ & _ & _ & Hparts & Hlen).
  rewrite <- has_double_space_includes.
  rewrite <- (join_split (trim (slice_1_neg1 line))), <- Hparts.
  apply has_double_space_join; [exact Hclean|].
  destruct parts as [|h [|u rest]]; [simpl in Hlen; lia | simpl in Hlen; lia |].
  apply build_Ok_inv in Hbuild as (st & Hhead & Hfold & _).
  apply head_sections_Ok_inv in Hhead.
  constructor; [exact (ho_http_spaces _ _ _ _ Hhead)|].
  constructor; [exact (ho_url_spaces _ _ _ _ Hhead)|].
  apply Forall_forall. intros part Hin.
  destruct (foldM_accepts rest _ st Hfold part Hin) as (k & v & Hs).
  exact (so_spaces _ _ _ Hs).
Qed.

Lemma no_consecutive_spaces_witness :
  includes (js "  ")
    (trim (slice_1_neg1 (js "[HTTP GET | URL https://a.com/x | BODY {}]"))) = false.
Proof.
  exact (no_consecutive_spaces (js "[HTTP GET | URL https://a.com/x | BODY {}]")
           (mkCompiled (js "GET") (js "https://a.com/x")
              (mkRequest (JObject []) (JObject []) (JObject []) (js "https://a.com/x")))
           eq_refl).
Defined.

(* ================================================================= *)
(** ** The shape of the request *)

Lemma foldM_headers_object (rest : list jsstring) (st st' : State) :
  foldM optional_section st rest = Ok st' ->
  typeof_object (headers (st_request st)) = true /\
  Array_isArray (headers (st_request st)) = false ->
  typeof_object (headers (st_request st')) = true /\
  Array_isArray (headers (st_request st')) = false.
Proof.
  revert st. induction rest as [|p rest IH]; intros st H Hinv; simpl in H.
  - inversion H; subst; exact Hinv.
  - apply bind_Ok_inv in H as (st1 & H1 & H). apply (IH st1 H).
    apply optional_section_Ok_inv in H1 as (keyword & value & eff & _ & _ & Hd & ->).
    apply effect_of_Ok_inv in Hd.
    destruct Hd as [value' v Hv Ht Ha | value' props queryParts Hv Hq | value' v Hv];
      cbn [apply_effect];
      try destruct (negb (isEmpty (join (js "&") queryParts)));
      cbn [st_request headers mark]; try exact Hinv.
    split; assumption.
Qed.

(** X17.  What the transport is called with on a successful validation:
    the method is [GET] or [POST]; the URL starts with that of the URL
    section, which starts with [http://] or [https://], is longer than
    eight code units and has no space; the headers pass the test
    [typeof h === 'object' && !Array.isArray(h)]; the data is the body,
    for [GET] as for [POST]. *)
Theorem transport_request_shape (reqline : Input) (c : Compiled) :
  compile reqline = Ok c ->
  (t_method (transport_request c) = js "GET" \/
   t_method (transport_request c) = js "POST") /\
  startsWith (c_url c) (t_url (transport_request c)) = true /\
  startsWith (js "http://") (c_url c) || startsWith (js "https://") (c_url c) = true /\
  8 < length (c_url c) /\
  ~ In SPACE (c_url c) /\
  typeof_object (t_headers (transport_request c)) = true /\
  Array_isArray (t_headers (transport_request c)) = false /\
  t_data (transport_request c) = body (c_request c).
Proof.
  intros H.
  destruct (compile_fullUrl reqline c H) as (props & queryParts & _ & _ & Hfull).
  apply compile_Ok_inv in H as (parts & Hlex & Hbuild).
  pose proof (lex_length reqline parts Hlex) as Hlen.
  destruct parts as [|h [|u rest]]; [simpl in Hlen; lia | simpl in Hlen; lia |].
  apply build_Ok_inv in Hbuild as (st & Hhead & Hfold & Hrq).
  apply head_sections_Ok_inv in Hhead.
  destruct Hhead as [_ _ _ _ Hm Hsp Hscheme Hlong].
  split; [exact Hm|].
  split.
  { cbn [transport_request t_url]. rewrite Hfull.
    destruct props; [|apply startsWith_app].
    rewrite <- (app_nil_r (c_url c)) at 2. apply startsWith_app. }
  split; [exact Hscheme|]. split; [exact Hlong|]. split; [exact Hsp|].
  cbn [transport_request t_headers t_data]. rewrite Hrq.
  destruct (foldM_headers_object rest _ st Hfold) as [Ht Ha];
    [split; reflexivity|].
  split; [exact Ht|]. split; [exact Ha | reflexivity].
Qed.

Lemma transport_request_shape_witness :
  t_method (transport_request
              (mkCompiled (js "GET") (js "https://a.com/x")
                 (mkRequest (JObject [(js "a", JString (js "1"))])
                            (JObject []) (JObject [])
                            (js "https://a.com/x?a=1")))) = js "GET" \/
  t_method (transport_request
              (mkCompiled (js "GET") (js "https://a.com/x")
                 (mkRequest (JObject [(js "a", JString (js "1"))])
                            (JObject []) (JObject [])
                            (js "https://a.com/x?a=1")))) = js "POST".
Proof.
  exact (proj1 (transport_request_shape
                  (Str (jsq "[HTTP GET | URL https://a.com/x | QUERY {'a':'1'}]"))
                  _ eq_refl)).
Defined.

(* ================================================================= *)
(** ** The reply of the endpoint *)

(** X18.  The endpoint answers with [HTTP_200_OK] whenever the line
    compiles and the transport resolves, whatever the status of the
    upstream response, which is only reported as [httpStatus] inside the
    data together with the request, the two timestamps and their
    difference.  In every other case the error of the service goes to the
    server as it is. *)
Theorem handler_reply
        (httpRequest : TransportRequest -> TransportOutcome) (t0 t1 ok : Z)
        (reqline : Input) :
  (forall c upstream d,
     compile reqline = Ok c ->
     httpRequest (transport_request c) = Resolved upstream d ->
     Endpoint.handler httpRequest t0 t1 ok reqline
     = Ok (Endpoint.mkReply ok
             (mkResult (c_request c) (mkResponse upstream (t1 - t0) t0 t1 d)))) /\
  (forall r,
     Endpoint.handler httpRequest t0 t1 ok reqline = Ok r ->
     Endpoint.status r = ok /\
     exists c,
       compile reqline = Ok c /\
       httpRequest (transport_request c)
       = Resolved (httpStatus (response (Endpoint.data r)))
                  (responseData (response (Endpoint.data r)))) /\
  (forall e,
     Endpoint.handler httpRequest t0 t1 ok reqline = Throw e <->
     parse httpRequest t0 t1 reqline = Throw e).
Proof.
  split; [|split].
  - intros c upstream d Hc Ht. unfold Endpoint.handler.
    rewrite (parse_after_compile httpRequest t0 t1 reqline c Hc), Ht. reflexivity.
  - intros r H. unfold Endpoint.handler in H.
    apply bind_Ok_inv in H as (res & Hp & H). injection H as <-.
    split; [reflexivity|].
    unfold parse in Hp. apply bind_Ok_inv in Hp as (c & Hc & Hp).
    exists c. split; [exact Hc|].
    change (mkTransportRequest (c_method c) (fullUrl (c_request c))
              (body (c_request c)) (headers (c_request c)))
      with (transport_request c) in Hp.
    destruct (httpRequest (transport_request c)) as [st d | msg rs];
      [|discriminate Hp].
    injection Hp as <-. reflexivity.
  - intros e. unfold Endpoint.handler.
    destruct (parse httpRequest t0 t1 reqline); cbn [bind];
      split; intros H; try discriminate H; injection H as ->; reflexivity.
Qed.

Lemma handler_reply_witness :
  Endpoint.handler transport_404 10 25 200 (Str (js "[HTTP GET | URL https://a.com/x]"))
  = Ok (Endpoint.mkReply 200
          (mkResult (mkRequest (JObject []) (JObject []) (JObject [])
                               (js "https://a.com/x"))
                    (mkResponse 404 15 10 25 (JString (js "Not Found"))))).
Proof.
  exact (proj1 (handler_reply transport_404 10 25 200
                  (Str (js "[HTTP GET | URL https://a.com/x]")))
               (mkCompiled (js "GET") (js "https://a.com/x")
                  (mkRequest (JObject []) (JObject []) (JObject [])
                             (js "https://a.com/x")))
               404%Z (JString (js "Not Found")) eq_refl eq_refl).
Defined.

(** X19.  The four branches of the first two sections that raise
    [MISSING_SPACE_AFTER_KEYWORD] (lines 107, 118, 152 and 163) never
    fire: a section that is [HTTP] or [URL] alone is reported as out of
    place.  When the compiler raises this error, the first two sections
    were accepted and the error is about a later one. *)
Theorem missing_space_is_optional (reqline : Input) (status : Z) :
  (forall httpPart urlPart,
     head_sections httpPart urlPart
     <> Throw (mkAppError (Catalog MISSING_SPACE_AFTER_KEYWORD) status)) /\
  (compile reqline = Throw (mkAppError (Catalog MISSING_SPACE_AFTER_KEYWORD) status) ->
   exists httpPart urlPart rest method url,
     lex reqline = Ok (httpPart :: urlPart :: rest) /\
     head_sections httpPart urlPart = Ok (method, url) /\
     rest <> []).
Proof.
  assert (Hhead : forall httpPart urlPart,
            head_sections httpPart urlPart
            <> Throw (mkAppError (Catalog MISSING_SPACE_AFTER_KEYWORD) status)).
  { intros h u H.
    destruct (head_sections_raises h u _ H) as (_ & k & Hm & Hk).
    cbn [errMessage] in Hm. injection Hm as <-. cbv in Hk. intuition discriminate. }
  split; [exact Hhead|].
  intros H. unfold compile in H.
  apply bind_Throw_inv in H as [H | (parts & Hlex & H)].
  { exfalso. destruct (lex_raises reqline _ H) as (_ & k & Hm & Hk).
    cbn [errMessage] in Hm. injection Hm as <-. cbv in Hk. intuition discriminate. }
  destruct parts as [|h [|u rest]]; [discriminate H | discriminate H |].
  unfold build in H. apply bind_Throw_inv in H as [H | ([method url] & Hok & H)].
  { destruct (Hhead h u H). }
  exists h, u, rest, method, url. split; [exact Hlex|]. split; [exact Hok|].
  intros ->. discriminate H.
Qed.

Lemma missing_space_is_optional_witness :
  exists httpPart urlPart rest method url,
    lex (Str (js "[HTTP GET | URL https://a.com/x | BODY]"))
    = Ok (httpPart :: urlPart :: rest) /\
    head_sections httpPart urlPart = Ok (method, url) /\
    rest <> [].
Proof.
  exact (proj2 (missing_space_is_optional
                  (Str (js "[HTTP GET | URL https://a.com/x | BODY]")) 400)
               eq_refl).
Defined.
